(** * monodromy: polytope algebra and right-angled path search

    A shallow embedding of [monodromy/polytopes.py],
    [monodromy/xx_decompose/paths.py] and [src/monodromy/depthPass.py].

    - Python [int] is [Z] (dimensions) or [N] (bit masks), [Fraction] is [Q]
      compared with [Qeq_bool], which is what [==] does on [Fraction]s.
    - A raised exception is the [Raise] branch of [result].
    - The geometry backend is external: its entry points are section
      variables, [None] standing for [NoFeasibleSolutions].
    - A [Polytope] carries the two memo cells that [memoized_property]
      hangs on the instance; reading a property returns the value together
      with the instance after the read. *)

From Stdlib Require Import ZArith NArith QArith Lia String Ascii.
From stdpp Require Import base list sorting gmap strings pretty.

Close Scope Q_scope.
Local Open Scope nat_scope.
Local Open Scope list_scope.

(** ** Exceptions *)

Inductive exn : Type :=
| ValueError
| IndexError
| NoBacksolution.

Inductive result (A : Type) : Type :=
| Ok (a : A)
| Raise (e : exn).
Arguments Ok {A} a.
Arguments Raise {A} e.

#[global] Instance result_bind : MBind result :=
  fun A B (k : A -> result B) (r : result A) =>
    match r with
    | Ok a => k a
    | Raise e => Raise e
    end.

(** A [for] loop whose body may raise: the first exception ends it. *)
Fixpoint for_each {A S : Type} (body : S -> A -> result S) (xs : list A) (st : S)
  : result S :=
  match xs with
  | [] => Ok st
  | x :: rest => st' ← body st x; for_each body rest st'
  end.

(** A list comprehension whose element expression may raise. *)
Fixpoint comprehension {A B : Type} (f : A -> result B) (xs : list A)
  : result (list B) :=
  match xs with
  | [] => Ok []
  | x :: rest => y ← f x; ys ← comprehension f rest; Ok (y :: ys)
  end.

(** [l[i]] and [l[i] = a] for a non-negative index. *)
Definition getitem {A : Type} (l : list A) (i : nat) : result A :=
  match l !! i with
  | Some a => Ok a
  | None => Raise IndexError
  end.

Definition setitem {A : Type} (l : list A) (i : nat) (a : A) : result (list A) :=
  if bool_decide (i < length l) then Ok (<[i := a]> l) else Raise IndexError.

Module Polytopes.

(** ** PolytopeVolume *)

Record PolytopeVolume : Type := mkPolytopeVolume {
  dimension : Z;
  volume : Q
}.

Definition PolytopeVolume_add (self other : PolytopeVolume) : PolytopeVolume :=
  if (dimension other <? dimension self)%Z then self
  else if (dimension self <? dimension other)%Z then other
  else mkPolytopeVolume (dimension self) (volume self + volume other)%Q.

Definition PolytopeVolume_sub (self other : PolytopeVolume) : result PolytopeVolume :=
  if (dimension other <? dimension self)%Z then Ok self
  else if (dimension self =? dimension other)%Z then
    Ok (mkPolytopeVolume (dimension self) (volume self - volume other)%Q)
  else Raise ValueError.

(** [dataclass(order=True)]: equality and order are those of the tuple
    [(dimension, volume)]. *)
Definition PolytopeVolume_eqb (a b : PolytopeVolume) : bool :=
  (dimension a =? dimension b)%Z && Qeq_bool (volume a) (volume b).

Definition Qlt_bool (x y : Q) : bool := negb (Qle_bool y x).

Definition PolytopeVolume_ltb (a b : PolytopeVolume) : bool :=
  if negb (dimension a =? dimension b)%Z then (dimension a <? dimension b)%Z
  else if negb (Qeq_bool (volume a) (volume b)) then Qlt_bool (volume a) (volume b)
  else false.

(** [a] may stand before [b] when volumes are listed in descending order. *)
Definition not_below (a b : PolytopeVolume) : Prop :=
  PolytopeVolume_ltb a b = false.

(** ** ConvexPolytope *)

Definition vertex : Type := list Q.

Record ConvexPolytope : Type := mkConvexPolytope {
  inequalities : list (list Q);
  equalities : list (list Q)
}.

Definition ConvexPolytope_intersect (self other : ConvexPolytope) : ConvexPolytope :=
  mkConvexPolytope (inequalities self ++ inequalities other)
                   (equalities self ++ equalities other).

(** [v in vertices]: list membership with [==] on lists of [Fraction]s. *)
Fixpoint vertex_eqb (v w : vertex) : bool :=
  match v, w with
  | [], [] => true
  | x :: v', y :: w' => Qeq_bool x y && vertex_eqb v' w'
  | _, _ => false
  end.

Definition vertex_in (v : vertex) (vs : list vertex) : bool :=
  existsb (vertex_eqb v) vs.

(** ** Polytope *)

Record Polytope : Type := mkPolytope {
  convex_subpolytopes : list ConvexPolytope;
  memo_volume : option PolytopeVolume;
  memo_vertices : option (list (list vertex))
}.

(** [Polytope(convex_subpolytopes=cs)]: a new instance has empty memo cells. *)
Definition Polytope_init (cs : list ConvexPolytope) : Polytope :=
  mkPolytope cs None None.

(** What reading [volume] answers when the memo cell is filled. *)
Definition cached_volume (p : Polytope) : PolytopeVolume :=
  default (mkPolytopeVolume 0 0) (memo_volume p).

(** Modelled from the spec: [monodromy.utilities.memoized_property] is not
    among the sources.  The spec describes it as a memo cell per instance,
    filled on the first read and returned as it is afterwards. *)
Definition memoized_property {O V : Type}
    (cell : O -> option V) (store : V -> O -> O) (fget : O -> result V)
    (self : O) : result (V * O) :=
  match cell self with
  | Some v => Ok (v, self)
  | None => v ← fget self; Ok (v, store v self)
  end.

(** Modelled from the spec: [monodromy.utilities.clear_memoization] is not
    among the sources.  The spec has it reset the memo cells of the
    instance. *)
Definition clear_memoization (p : Polytope) : Polytope :=
  mkPolytope (convex_subpolytopes p) None None.

(** [copy(self)] followed by [clone.convex_subpolytopes = cs]: the shallow
    copy takes every attribute of the instance with it, memo cells too. *)
Definition clone_with_components (self : Polytope) (cs : list ConvexPolytope) : Polytope :=
  mkPolytope cs (memo_volume self) (memo_vertices self).

Definition Polytope_union (self other : Polytope) : Polytope :=
  let clone := clone_with_components self
                 (convex_subpolytopes self ++ convex_subpolytopes other) in
  clear_memoization clone.

Definition Polytope_intersect (self other : Polytope) : Polytope :=
  let convex_subpolytopes' :=
    flat_map (fun left_subpolytope =>
                map (fun right_subpolytope =>
                       ConvexPolytope_intersect left_subpolytope right_subpolytope)
                    (convex_subpolytopes other))
             (convex_subpolytopes self) in
  let clone := clone_with_components self convex_subpolytopes' in
  clear_memoization clone.

(** *** Bit patterns *)

Fixpoint popcount_pos (p : positive) : nat :=
  match p with
  | xH => 1
  | xO p' => popcount_pos p'
  | xI p' => S (popcount_pos p')
  end.

Definition bitcount (m : N) : nat :=
  match m with
  | N0 => 0
  | Npos p => popcount_pos p
  end.

(** Modelled from the spec: [monodromy.utilities.bit_iteration] is not among
    the sources.  The spec asks for the enumeration of all bit masks over
    [length] positions with exactly [weight] bits set; they are listed here
    in increasing order. *)
Definition bit_iteration (length weight : nat) : list N :=
  filter (fun m => bitcount m = weight) (map N.of_nat (seq 0 (2 ^ length))).

(** Every selection of entries of [l], in the order of [l]. *)
Fixpoint sublists {A : Type} (l : list A) : list (list A) :=
  match l with
  | [] => [[]]
  | x :: rest => map (cons x) (sublists rest) ++ sublists rest
  end.

Section WithBackend.

(** The geometry backend ([monodromy.backend.backend]). *)
Variable backend_volume : ConvexPolytope -> option PolytopeVolume.
Variable backend_vertices : ConvexPolytope -> option (list vertex).
Variable backend_reduce : ConvexPolytope -> option ConvexPolytope.

(** The memoized properties of a [ConvexPolytope].  No code of the module
    assigns to the fields of an existing [ConvexPolytope], so its memo cells
    always hold what the backend returns for its constraints and are left
    out of the record. *)
Definition ConvexPolytope_volume (c : ConvexPolytope) : PolytopeVolume :=
  match backend_volume c with
  | Some v => v
  | None => mkPolytopeVolume 0 0
  end.

Definition ConvexPolytope_vertices (c : ConvexPolytope) : list vertex :=
  match backend_vertices c with
  | Some vs => vs
  | None => []
  end.

(** *** Volume by inclusion-exclusion *)

Record volume_state : Type := mkVolumeState {
  running_volume : PolytopeVolume;
  skip_masks : list N;
  previous_volumes : list (option PolytopeVolume)
}.

(** [any([mask & bitstring == mask for mask in skip_masks])] *)
Definition any_mask_within (masks : list N) (bitstring : N) : bool :=
  existsb (fun mask => N.eqb (N.land mask bitstring) mask) masks.

(** [any([bitstring & mask == mask for mask in skip_masks])] *)
Definition any_mask_within' (masks : list N) (bitstring : N) : bool :=
  existsb (fun mask => N.eqb (N.land bitstring mask) mask) masks.

Definition mask_in (m : N) (masks : list N) : bool :=
  existsb (N.eqb m) masks.

Definition subset_intersection (cs : list ConvexPolytope) (bitstring : N)
  : ConvexPolytope :=
  fold_left
    (fun intersection '(index, convex_subpolytope) =>
       if negb (N.eqb 0 (N.land bitstring (N.shiftl 1 (N.of_nat index))))
       then ConvexPolytope_intersect intersection convex_subpolytope
       else intersection)
    (imap pair cs)
    (mkConvexPolytope [] []).

(** [volume = volume - v] when [d] is odd, [volume = volume + v] otherwise. *)
Definition balance (d : nat) (vol v : PolytopeVolume) : result PolytopeVolume :=
  if Nat.odd d then PolytopeVolume_sub vol v else Ok (PolytopeVolume_add vol v).

(** [a == b] where [b] may be [None]: a [PolytopeVolume] never equals [None]. *)
Definition volume_eq_entry (a : PolytopeVolume) (b : option PolytopeVolume) : bool :=
  match b with
  | Some v => PolytopeVolume_eqb a v
  | None => false
  end.

(** The loop over [parent_index], left by [break] after the first fold-in. *)
Fixpoint parent_scan (d : nat) (bitstring : N) (this_volume : PolytopeVolume)
    (parents : list nat) (st : volume_state) : result volume_state :=
  match parents with
  | [] => Ok st
  | parent_index :: rest =>
    let parent_string := N.lxor bitstring (2 ^ N.of_nat parent_index) in
    if N.eqb 0 (N.land (2 ^ N.of_nat parent_index) bitstring) then
      parent_scan d bitstring this_volume rest st
    else if negb (mask_in parent_string (skip_masks st)) then
      parent_volume ← getitem (previous_volumes st) (N.to_nat parent_string);
      if volume_eq_entry this_volume parent_volume then
        vol ← balance d (running_volume st) this_volume;
        Ok (mkVolumeState vol (skip_masks st ++ [parent_string]) (previous_volumes st))
      else parent_scan d bitstring this_volume rest st
    else parent_scan d bitstring this_volume rest st
  end.

(** Body of the first loop over [bit_iteration(n, 1 + d)]. *)
Definition visit_subset (cs : list ConvexPolytope) (top_dimension : Z) (d : nat)
    (st : volume_state) (bitstring : N) : result volume_state :=
  if any_mask_within (skip_masks st) bitstring then Ok st
  else
    let this_volume := ConvexPolytope_volume (subset_intersection cs bitstring) in
    previous ← setitem (previous_volumes st) (N.to_nat bitstring) (Some this_volume);
    let masks :=
      if (dimension this_volume <? top_dimension)%Z
      then skip_masks st ++ [bitstring] else skip_masks st in
    parent_scan d bitstring this_volume (seq 0 (length cs))
                (mkVolumeState (running_volume st) masks previous).

(** Body of the second loop over [bit_iteration(n, 1 + d)]. *)
Definition sum_subset (d : nat) (st : volume_state) (bitstring : N)
  : result volume_state :=
  entry ← getitem (previous_volumes st) (N.to_nat bitstring);
  match entry with
  | None => Ok st
  | Some v =>
    if any_mask_within' (skip_masks st) bitstring then Ok st
    else
      vol ← balance d (running_volume st) v;
      Ok (mkVolumeState vol (skip_masks st) (previous_volumes st))
  end.

Definition volume_level (cs : list ConvexPolytope) (top_dimension : Z)
    (st : volume_state) (d : nat) : result volume_state :=
  st1 ← for_each (visit_subset cs top_dimension d)
                 (bit_iteration (length cs) (1 + d)) st;
  for_each (sum_subset d) (bit_iteration (length cs) (1 + d)) st1.

(** The body of [Polytope.volume]. *)
Definition compute_volume (cs : list ConvexPolytope) : result PolytopeVolume :=
  let volume0 := mkPolytopeVolume 0 0 in
  let top_dimension :=
    fold_left (fun top c => Z.max top (dimension (ConvexPolytope_volume c))) cs 0%Z in
  st ← for_each (volume_level cs top_dimension) (seq 0 (length cs))
                (mkVolumeState volume0 [] (replicate (2 ^ length cs) None));
  Ok (running_volume st).

Definition Polytope_volume : Polytope -> result (PolytopeVolume * Polytope) :=
  memoized_property memo_volume
    (fun v p => mkPolytope (convex_subpolytopes p) (Some v) (memo_vertices p))
    (fun p => compute_volume (convex_subpolytopes p)).

Definition compute_vertices (cs : list ConvexPolytope) : list (list vertex) :=
  map ConvexPolytope_vertices cs.

Definition Polytope_vertices : Polytope -> result (list (list vertex) * Polytope) :=
  memoized_property memo_vertices
    (fun vs p => mkPolytope (convex_subpolytopes p) (memo_volume p) (Some vs))
    (fun p => Ok (compute_vertices (convex_subpolytopes p))).

(** *** Containment *)

(** The two nested loops of [contains]: [true] when no vertex is missing. *)
Definition vertex_phase (little_vertices cap_vertices : list (list vertex)) : bool :=
  forallb (fun little_subvertices =>
             forallb (fun v =>
                        existsb (fun cap_subvertices => vertex_in v cap_subvertices)
                                cap_vertices)
                     little_subvertices)
          little_vertices.

(** [self.contains(other)].  The second component is [other] after the
    call: reading its properties fills its memo cells. *)
Definition Polytope_contains (self other : Polytope) : result (bool * Polytope) :=
  let intersection := Polytope_intersect other self in
  '(little_vertices, other1) ← Polytope_vertices other;
  '(cap_vertices, intersection1) ← Polytope_vertices intersection;
  if negb (vertex_phase little_vertices cap_vertices) then Ok (false, other1)
  else
    '(little_volume, other2) ← Polytope_volume other1;
    '(cap_volume, _) ← Polytope_volume intersection1;
    Ok (PolytopeVolume_eqb cap_volume little_volume, other2).

(** *** Redundancy elimination *)

(** [sorted(..., key=..., reverse=True)] on the decorated list: descending
    keys, elements with equal keys in their original order. *)
Fixpoint insert_descending (kx : PolytopeVolume * Polytope)
    (l : list (PolytopeVolume * Polytope)) : list (PolytopeVolume * Polytope) :=
  match l with
  | [] => [kx]
  | ky :: rest =>
    if PolytopeVolume_ltb (fst kx) (fst ky) then ky :: insert_descending kx rest
    else kx :: ky :: rest
  end.

Definition sorted_descending (l : list (PolytopeVolume * Polytope))
  : list (PolytopeVolume * Polytope) :=
  foldr insert_descending [] l.

(** The inner loop of [trim_polytope_set]: [fixed_polytope] joined with
    every entry of the list but the one at [index]. *)
Definition others_union (fixed_polytope : Polytope) (index : nat)
    (trimmable_polytopes : list Polytope) : Polytope :=
  fold_left
    (fun other_polytope '(subindex, polytope) =>
       if Nat.eqb subindex index then other_polytope
       else Polytope_union other_polytope polytope)
    (imap pair trimmable_polytopes)
    fixed_polytope.

(** The loop [for index in range(len(trimmable_polytopes) - 1, -1, -1)];
    [remaining] is [index + 1].  [contains] fills the memo cells of
    [this_polytope], which stays in the list unless it is deleted.  An
    instance listed twice has one pair of cells in Python and one pair per
    entry here; a cell filled through one entry holds what reading through
    the other returns, so both read the same values either way. *)
Fixpoint trim_scan (fixed_polytope : Polytope) (remaining : nat)
    (trimmable_polytopes : list Polytope) : result (list Polytope) :=
  match remaining with
  | 0 => Ok trimmable_polytopes
  | S index =>
    this_polytope ← getitem trimmable_polytopes index;
    let other_polytope := others_union fixed_polytope index trimmable_polytopes in
    '(contained, this_polytope') ← Polytope_contains other_polytope this_polytope;
    let trimmable_polytopes' := <[index := this_polytope']> trimmable_polytopes in
    if contained : bool then trim_scan fixed_polytope index (delete index trimmable_polytopes')
    else trim_scan fixed_polytope index trimmable_polytopes'
  end.

Definition fixed_union (fixed_polytopes : option (list Polytope)) : Polytope :=
  match fixed_polytopes with
  | Some polytopes => fold_left Polytope_union polytopes (Polytope_init [])
  | None => Polytope_init []
  end.

Definition trim_polytope_set (trimmable_polytopes : list Polytope)
    (fixed_polytopes : option (list Polytope)) : result (list Polytope) :=
  let fixed_polytope := fixed_union fixed_polytopes in
  keyed ← comprehension Polytope_volume trimmable_polytopes;
  let trimmable_polytopes' := map snd (sorted_descending keyed) in
  trim_scan fixed_polytope (length trimmable_polytopes') trimmable_polytopes'.

(** [Polytope.reduce]: a component whose reduction raises
    [NoFeasibleSolutions] is dropped. *)
Definition Polytope_reduce (self : Polytope) : result Polytope :=
  let independent_polytopes :=
    omap (fun convex_subpolytope =>
            match backend_reduce convex_subpolytope with
            | Some reduced => Some (Polytope_init [reduced])
            | None => None
            end)
         (convex_subpolytopes self) in
  independent_polytopes' ← trim_polytope_set independent_polytopes None;
  components ← comprehension
                 (fun independent_polytope =>
                    getitem (convex_subpolytopes independent_polytope) 0)
                 independent_polytopes';
  Ok (clone_with_components self components).

(** The scan of [trim_polytope_set] as the specification words it: the
    candidates are visited from the last to the first; [front_reversed]
    holds those still to visit (last one first), [kept] the survivors among
    those already visited.  A candidate is dropped when the union of the
    context with all other remaining candidates contains it. *)
Fixpoint scan_from_last (context : Polytope) (front_reversed kept : list Polytope)
  : result (list Polytope) :=
  match front_reversed with
  | [] => Ok kept
  | candidate :: front' =>
    let others := fold_left Polytope_union (rev front' ++ kept) context in
    '(contained, candidate') ← Polytope_contains others candidate;
    if contained : bool then scan_from_last context front' kept
    else scan_from_last context front' (candidate' :: kept)
  end.

(** The memo cells of [p], where filled, hold a volume [==] to the zero
    volume and vertex lists without a vertex. *)
Definition memo_vacant (p : Polytope) : Prop :=
  (forall v, memo_volume p = Some v ->
             PolytopeVolume_eqb v (mkPolytopeVolume 0 0) = true)
  /\ (forall vs, memo_vertices p = Some vs -> Forall (fun sub => sub = []) vs).

(** [c] is found not to lie in the union of [components]. *)
Definition not_containedb (components : list ConvexPolytope) (c : Polytope) : bool :=
  match Polytope_contains (Polytope_init components) c with
  | Ok (false, _) => true
  | _ => false
  end.

(** Taking components away from a union of candidates that does not
    contain [c] never makes it contain [c]: [big] ranges over the
    rearranged selections of [all], [small] over the selections of [big]. *)
Definition contains_antitone_within (context all : list ConvexPolytope)
    (candidates : list Polytope) : Prop :=
  forall big small c,
    In c candidates -> big ⊆+ all -> sublist small big ->
    not_containedb (context ++ big) c = true ->
    not_containedb (context ++ small) c = true.

(** A decision procedure for [contains_antitone_within] on given lists. *)
Definition contains_antitone_withinb (context all : list ConvexPolytope)
    (candidates : list Polytope) : bool :=
  forallb (fun big =>
    forallb (fun small =>
      forallb (fun c => implb (not_containedb (context ++ big) c)
                              (not_containedb (context ++ small) c))
              candidates)
      (sublists big))
    (flat_map permutations (sublists all)).

(** [ConvexPolytope.contains] *)
Definition ConvexPolytope_contains (self other : ConvexPolytope) : bool :=
  let cap_vertices :=
    ConvexPolytope_vertices (ConvexPolytope_intersect other self) in
  forallb (fun v => vertex_in v cap_vertices)
          (ConvexPolytope_vertices other).

End WithBackend.

(** [make_convex_polytope]: a polytope with one component. *)
Definition make_convex_polytope (inequalities : list (list Q))
    (equalities : option (list (list Q))) : Polytope :=
  Polytope_init [mkConvexPolytope inequalities (default [] equalities)].

End Polytopes.

(** ** An exact backend for segments of the line

    Constraints are read as [c0 + c1 * x >= 0] (or [= 0]); a region is a
    closed segment [[lo, hi]].  A region without a lower or an upper end is
    reported like an empty one. *)
Module Interval.
Import Polytopes.

Definition coefficient (c : list Q) (i : nat) : Q := nth i c 0%Q.

Record ends : Type := mkEnds {
  lo : option Q;
  hi : option Q;
  satisfiable : bool
}.

Definition raise_lo (e : ends) (x : Q) : ends :=
  mkEnds (match lo e with
          | Some l => Some (if Qle_bool l x then x else l)
          | None => Some x
          end) (hi e) (satisfiable e).

Definition lower_hi (e : ends) (x : Q) : ends :=
  mkEnds (lo e)
         (match hi e with
          | Some h => Some (if Qle_bool x h then x else h)
          | None => Some x
          end) (satisfiable e).

Definition root (c : list Q) : Q :=
  Qred (- coefficient c 0 / coefficient c 1)%Q.

Definition add_inequality (e : ends) (c : list Q) : ends :=
  if Qlt_bool 0%Q (coefficient c 1) then raise_lo e (root c)
  else if Qlt_bool (coefficient c 1) 0%Q then lower_hi e (root c)
  else mkEnds (lo e) (hi e) (satisfiable e && Qle_bool 0%Q (coefficient c 0)).

Definition add_equality (e : ends) (c : list Q) : ends :=
  if Qeq_bool (coefficient c 1) 0%Q
  then mkEnds (lo e) (hi e) (satisfiable e && Qeq_bool (coefficient c 0) 0%Q)
  else lower_hi (raise_lo e (root c)) (root c).

Definition segment (c : ConvexPolytope) : option (Q * Q) :=
  let e := fold_left add_equality (equalities c)
             (fold_left add_inequality (inequalities c) (mkEnds None None true)) in
  match lo e, hi e with
  | Some l, Some h => if satisfiable e && Qle_bool l h then Some (l, h) else None
  | _, _ => None
  end.

Definition volume (c : ConvexPolytope) : option PolytopeVolume :=
  match segment c with
  | Some (l, h) =>
    if Qeq_bool l h then Some (mkPolytopeVolume 0 1)
    else Some (mkPolytopeVolume 1 (Qred (h - l)%Q))
  | None => None
  end.

Definition vertices (c : ConvexPolytope) : option (list vertex) :=
  match segment c with
  | Some (l, h) => if Qeq_bool l h then Some [[l]] else Some [[l]; [h]]
  | None => None
  end.

Definition reduce (c : ConvexPolytope) : option ConvexPolytope :=
  match segment c with
  | Some (l, h) => Some (mkConvexPolytope [[Qred (- l)%Q; 1%Q]; [h; (-1)%Q]] [])
  | None => None
  end.

(** The segment [[a, b]] as a one-component polytope. *)
Definition between (a b : Q) : ConvexPolytope :=
  mkConvexPolytope [[Qred (- a)%Q; 1%Q]; [b; (-1)%Q]] [].

End Interval.

(** ** Right-angled paths: [monodromy/xx_decompose/paths.py] *)
Module Paths.

Definition operation : Type := string.

(** [Counter(a) != Counter(b)]: some operation occurs a different number
    of times in the two lists. *)
Definition Counter_ne (a b : list operation) : bool :=
  negb (forallb (fun x => count_occ string_dec a x =? count_occ string_dec b x)
                (a ++ b)).

(** [float("inf")] is [None]; a cost is a real number. *)
Definition cost_lt (c : Q) (best_cost : option Q) : bool :=
  match best_cost with
  | None => true
  | Some b => negb (Qle_bool b c)
  end.

Section WithScalars.

(** The coordinates and coefficients of the scipy catalog, with the [0],
    [+] and [*] the comprehensions apply to them. *)
Variable num : Type.
Variable nzero : num.
Variable nadd nmul : num -> num -> num.

Definition point : Type := list num.

Record ConvexPolytopeData : Type := mkConvexPolytopeData {
  inequalities : list (list num);
  equalities : list (list num)
}.

Record PolytopeData : Type := mkPolytopeData {
  convex_subpolytopes : list ConvexPolytopeData
}.

(** Modelled from the spec: [CircuitPolytopeData] is declared in
    [monodromy/io/base.py], which is not among the sources.  The spec gives
    a coverage-set entry as a region, an ordered sequence of operation
    identifiers and a real cost. *)
Record CircuitPolytopeData : Type := mkCircuitPolytopeData {
  region : PolytopeData;
  operations : list operation;
  cost : Q
}.

(** The external collaborators of [monodromy/xx_decompose/scipy.py].  The
    vertex extraction is randomized: it threads a state [W] of its own and
    answers [None] for [NoFeasibleSolutions]. *)
Variable W : Type.
Variable manual_get_random_vertex : PolytopeData -> W -> option point * W.
Variable polyhedron_has_element : CircuitPolytopeData -> point -> bool.

(** [sum(x * y for x, y in zip(coefficients, target))] *)
Definition sum_products (coefficients : list num) (target : point) : num :=
  fold_left nadd (zip_with nmul coefficients target) nzero.

(** [[c[0] + sum(x * y for x, y in zip(c[4:], target)), c[1], c[2], c[3]]] *)
Definition impose_target (target : point) (c : list num) : result (list num) :=
  match c with
  | c0 :: c1 :: c2 :: c3 :: rest =>
    Ok [nadd c0 (sum_products rest target); c1; c2; c3]
  | _ => Raise IndexError
  end.

Definition impose_target_convex (target : point) (cp : ConvexPolytopeData)
  : result ConvexPolytopeData :=
  inequalities' ← comprehension (impose_target target) (inequalities cp);
  equalities' ← comprehension (impose_target target) (equalities cp);
  Ok (mkConvexPolytopeData inequalities' equalities').

Definition triple : Type := point * operation * point.

Record hop_result : Type := mkHopResult {
  hop : triple;
  ancestor : point;
  operations_remaining : list operation
}.

(** The loop [for ancestor in scipy_coverage_set] of
    [single_unordered_decomposition_hop]; [backsolution_polytope] is the
    object created before the loop and extended with [+=] inside it. *)
Fixpoint hop_scan (target : point) (working_operations : list operation)
    (ancestors : list CircuitPolytopeData) (backsolution_polytope : PolytopeData)
    (w : W) : result hop_result * W :=
  match ancestors with
  | [] => (Raise NoBacksolution, w)
  | this_ancestor :: rest =>
    if Counter_ne (operations this_ancestor) working_operations then
      hop_scan target working_operations rest backsolution_polytope w
    else
      match comprehension (impose_target_convex target)
                          (convex_subpolytopes (region this_ancestor)) with
      | Raise e => (Raise e, w)
      | Ok imposed =>
        let backsolution_polytope' :=
          mkPolytopeData (convex_subpolytopes backsolution_polytope ++ imposed) in
        match manual_get_random_vertex backsolution_polytope' w with
        | (Some solution, w') =>
          match last (operations this_ancestor) with
          | Some operation =>
            (Ok (mkHopResult (solution, operation, target) solution
                             (removelast (operations this_ancestor))), w')
          | None => (Raise IndexError, w')
          end
        | (None, w') =>
          hop_scan target working_operations rest backsolution_polytope' w'
        end
      end
  end.

Definition single_unordered_decomposition_hop (target : point)
    (working_operations : list operation)
    (scipy_coverage_set : list CircuitPolytopeData) (w : W)
  : result hop_result * W :=
  hop_scan target working_operations scipy_coverage_set (mkPolytopeData []) w.

(** The scan for the cheapest entry that holds the target:
    [(working_polytope, best_cost)] after each entry. *)
Definition select_step (target : point)
    (st : option CircuitPolytopeData * option Q) (polytope : CircuitPolytopeData)
  : option CircuitPolytopeData * option Q :=
  if cost_lt (cost polytope) (snd st) && polyhedron_has_element polytope target
  then (Some polytope, Some (cost polytope))
  else st.

Definition select_working_polytope (coverage_set : list CircuitPolytopeData)
    (target : point) : option CircuitPolytopeData :=
  fst (fold_left (select_step target) coverage_set (None, None)).

(** The loop [while 0 < len(operations_remaining)].  Every turn of the loop
    uses one unit of [fuel]; [None] means the fuel ran out. *)
Fixpoint hops_while (fuel : nat) (scipy_coverage_set : list CircuitPolytopeData)
    (target : point) (remaining : list operation) (decomposition : list triple)
    (w : W) : option (result (list triple) * W) :=
  match remaining with
  | [] => Some (Ok decomposition, w)
  | _ :: _ =>
    match fuel with
    | 0 => None
    | S fuel' =>
      match single_unordered_decomposition_hop target remaining scipy_coverage_set w with
      | (Raise e, w') => Some (Raise e, w')
      | (Ok r, w') =>
        hops_while fuel' scipy_coverage_set (ancestor r) (operations_remaining r)
                   (hop r :: decomposition) w'
      end
    end
  end.

Definition scipy_unordered_decomposition_hops (fuel : nat)
    (coverage_set scipy_coverage_set : list CircuitPolytopeData)
    (target : point) (w : W) : option (result (list triple) * W) :=
  match select_working_polytope coverage_set target with
  | None => Some (Raise ValueError, w)
  | Some working_polytope =>
    hops_while fuel scipy_coverage_set target (operations working_polytope) [] w
  end.

(** The hop as the specification words it: every matching ancestor is
    tried on the region made of its own components only. *)
Fixpoint hop_scan_own_region (target : point) (working_operations : list operation)
    (ancestors : list CircuitPolytopeData) (w : W) : result hop_result * W :=
  match ancestors with
  | [] => (Raise NoBacksolution, w)
  | this_ancestor :: rest =>
    if Counter_ne (operations this_ancestor) working_operations then
      hop_scan_own_region target working_operations rest w
    else
      match comprehension (impose_target_convex target)
                          (convex_subpolytopes (region this_ancestor)) with
      | Raise e => (Raise e, w)
      | Ok imposed =>
        match manual_get_random_vertex (mkPolytopeData imposed) w with
        | (Some solution, w') =>
          match last (operations this_ancestor) with
          | Some operation =>
            (Ok (mkHopResult (solution, operation, target) solution
                             (removelast (operations this_ancestor))), w')
          | None => (Raise IndexError, w')
          end
        | (None, w') => hop_scan_own_region target working_operations rest w'
        end
      end
  end.

(** The components handed to the vertex extraction once every entry of
    [ancestors] that matches [working_operations] has been visited. *)
Definition accumulated_components (target : point)
    (working_operations : list operation) (ancestors : list CircuitPolytopeData)
  : result (list ConvexPolytopeData) :=
  comprehension (impose_target_convex target)
    (flat_map (fun a => convex_subpolytopes (region a))
       (filter (fun a => Counter_ne (operations a) working_operations = false)
               ancestors)).

(** The decomposition built so far starts at the current target and is a
    chain down to the requested one. *)
Definition linked (current final : point) (d : list triple) : Prop :=
  (forall i s1 o1 t1 s2 o2 t2,
      d !! i = Some (s1, o1, t1) -> d !! S i = Some (s2, o2, t2) -> t1 = s2)
  /\ (forall s o t, last d = Some (s, o, t) -> t = final)
  /\ (forall s o t, head d = Some (s, o, t) -> s = current)
  /\ (d = [] -> current = final).

(** The state of the scan once the entries of [seen] have been visited. *)
Definition selected (target : point) (seen : list CircuitPolytopeData)
    (st : option CircuitPolytopeData * option Q) : Prop :=
  match fst st with
  | None =>
    snd st = None
    /\ forall e, In e seen -> polyhedron_has_element e target = false
  | Some p =>
    snd st = Some (cost p)
    /\ In p seen
    /\ polyhedron_has_element p target = true
    /\ forall e, In e seen -> polyhedron_has_element e target = true ->
                 (cost p <= cost e)%Q
  end.

End WithScalars.

Arguments mkConvexPolytopeData {num} _ _.
Arguments mkPolytopeData {num} _.
Arguments mkCircuitPolytopeData {num} _ _ _.
Arguments inequalities {num} _.
Arguments equalities {num} _.
Arguments convex_subpolytopes {num} _.
Arguments region {num} _.
Arguments operations {num} _.
Arguments cost {num} _.
Arguments mkHopResult {num} _ _ _.
Arguments hop {num} _.
Arguments ancestor {num} _.
Arguments operations_remaining {num} _.

(** *** An integer instance

    Coordinates in [Z]; the vertex extraction tries the points of a short
    list and keeps, as its state, the regions it has been handed. *)
Module Grid.

Definition evaluate (c : list Z) (x : list Z) : Z :=
  match c with
  | [] => 0
  | c0 :: cs => fold_left Z.add (zip_with Z.mul cs x) c0
  end.

Definition satisfies (cp : ConvexPolytopeData Z) (x : list Z) : bool :=
  forallb (fun c => (0 <=? evaluate c x)%Z) (inequalities cp)
  && forallb (fun c => (evaluate c x =? 0)%Z) (equalities cp).

Definition candidates : list (list Z) :=
  [[0; 0; 0]; [1; 0; 0]; [2; 0; 0]; [3; 0; 0]]%Z.

Definition manual_get_random_vertex (p : PolytopeData Z) (w : list (PolytopeData Z))
  : option (list Z) * list (PolytopeData Z) :=
  (head (filter (fun x => existsb (fun cp => satisfies cp x) (convex_subpolytopes p))
                candidates),
   w ++ [p]).

Definition polyhedron_has_element (p : CircuitPolytopeData Z) (x : list Z) : bool :=
  existsb (fun cp => satisfies cp x) (convex_subpolytopes (region p)).

Definition hop_step :=
  single_unordered_decomposition_hop Z 0%Z Z.add Z.mul
    (list (PolytopeData Z)) manual_get_random_vertex.

Definition hop_step_own_region :=
  hop_scan_own_region Z 0%Z Z.add Z.mul
    (list (PolytopeData Z)) manual_get_random_vertex.

Definition decompose :=
  scipy_unordered_decomposition_hops Z 0%Z Z.add Z.mul
    (list (PolytopeData Z)) manual_get_random_vertex polyhedron_has_element.

(** A catalog on the first coordinate: the origin, one [op1] reaches
    [[0, 1]], and [op2] after it reaches [[0, 2]]. *)
Definition coverage_set : list (CircuitPolytopeData Z) :=
  [ mkCircuitPolytopeData
      (mkPolytopeData [mkConvexPolytopeData [[0; 1; 0; 0]; [0; -1; 0; 0]] []])
      [] 0%Q;
    mkCircuitPolytopeData
      (mkPolytopeData [mkConvexPolytopeData [[0; 1; 0; 0]; [1; -1; 0; 0]] []])
      ["op1"%string] 1%Q;
    mkCircuitPolytopeData
      (mkPolytopeData [mkConvexPolytopeData [[0; 1; 0; 0]; [2; -1; 0; 0]] []])
      ["op1"%string; "op2"%string] 2%Q ]%Z.

(** Constraints [[c0, a1, a2, a3, b1, b2, b3]] on an ancestor [a] and a
    target [b]. *)
Definition from_origin : ConvexPolytopeData Z :=
  mkConvexPolytopeData
    [[0; 1; 0; 0; 0; 0; 0]; [0; -1; 0; 0; 0; 0; 0];
     [0; 0; 0; 0; 1; 0; 0]; [1; 0; 0; 0; -1; 0; 0]]%Z [].

Definition one_step_back : ConvexPolytopeData Z :=
  mkConvexPolytopeData
    [[0; 1; 0; 0; 0; 0; 0]; [1; -1; 0; 0; 0; 0; 0];
     [0; -1; 0; 0; 1; 0; 0]; [1; 1; 0; 0; -1; 0; 0]]%Z [].

(** The same step, but only for ancestors at the origin. *)
Definition one_step_from_origin : ConvexPolytopeData Z :=
  mkConvexPolytopeData
    [[0; 1; 0; 0; 0; 0; 0]; [0; -1; 0; 0; 0; 0; 0];
     [0; -1; 0; 0; 1; 0; 0]; [1; 1; 0; 0; -1; 0; 0]]%Z [].

Definition scipy_coverage_set : list (CircuitPolytopeData Z) :=
  [ mkCircuitPolytopeData (mkPolytopeData [from_origin]) ["op1"%string] 1%Q;
    mkCircuitPolytopeData (mkPolytopeData [one_step_back])
      ["op1"%string; "op2"%string] 2%Q ].

(** Two entries for the same multiset of operations, in either order. *)
Definition scipy_coverage_set_two_orders : list (CircuitPolytopeData Z) :=
  [ mkCircuitPolytopeData (mkPolytopeData [one_step_from_origin])
      ["op2"%string; "op1"%string] 2%Q;
    mkCircuitPolytopeData (mkPolytopeData [one_step_back])
      ["op1"%string; "op2"%string] 2%Q ].

(** A vertex extraction without a state of its own: the first point of
    [candidates] that satisfies some component. *)
Definition first_vertex (p : PolytopeData Z) (w : unit) : option (list Z) * unit :=
  (head (filter (fun x => existsb (fun cp => satisfies cp x)
                                  (convex_subpolytopes p))
                candidates),
   w).

End Grid.

End Paths.

(** * The text of a polytope: [__str__] in [monodromy/polytopes.py] *)
Module PolytopeText.
Import Polytopes.

Definition newline : string := String "010"%char EmptyString.

(** [f"{s: >5}"]: [s] after as many spaces as it lacks to five
    characters. *)
Definition right_align5 (s : string) : string :=
  string_of_list_ascii (replicate (5 - String.length s) " "%char) +:+ s.

Section WithStr.

(** [str] on a [Fraction] and on an [int]. *)
Variable str_Fraction : Q -> string.
Variable str_int : nat -> string.

(** One turn of the loop over [enumerate(row[1:])]. *)
Definition write_term (output : string) (index : nat) (item : Q) : string :=
  output +:+ " + " +:+ right_align5 (str_Fraction item)
         +:+ " x" +:+ str_int (1 + index).

(** One turn of the loop over the inequalities or over the equalities. *)
Definition write_constraint (relation : string) (output : string) (row : list Q)
  : result string :=
  first ← getitem row 0;
  let output := output +:+ right_align5 (str_Fraction first) in
  let output :=
    fold_left (fun output '(index, item) => write_term output index item)
              (imap pair (drop 1 row)) output in
  Ok (output +:+ relation +:+ newline).

(** [ConvexPolytope.__str__] *)
Definition ConvexPolytope_str (self : ConvexPolytope) : result string :=
  output ← for_each (write_constraint " >= 0") (inequalities self) ""%string;
  for_each (write_constraint " == 0") (equalities self) output.

(** [Polytope.__str__] *)
Definition Polytope_str (self : Polytope) : result string :=
  output ←
    for_each
      (fun output '(index, item) =>
         text ← ConvexPolytope_str item;
         let output := output +:+ text in
         let output :=
           if bool_decide (1 + index < length (convex_subpolytopes self))
           then output +:+ "," else output in
         Ok (output +:+ newline))
      (imap pair (convex_subpolytopes self)) ("[" +:+ newline);
  Ok (output +:+ "]").

End WithStr.

(** [str] on an [int], and on a [Fraction] held in lowest terms. *)
Definition str_int (n : nat) : string := pretty n.

Definition str_Fraction (q : Q) : string :=
  if (Qden q =? 1)%positive then pretty (Qnum q)
  else pretty (Qnum q) +:+ "/" +:+ pretty (Z.pos (Qden q)).

End PolytopeText.

(** * The depth pass: [src/monodromy/depthPass.py] *)
Module DepthPass.

Section WithCoverage.

(** What the pass takes from outside: the gates ([Instruction]) with their
    number of qubits and their text, the coverage sets, and the memoized
    method [_gate_set_to_coverage], which logs, calls [gates_to_coverage]
    and may raise; [E] is the state these calls act on. *)
Variable Instruction : Type.
Variable coverage : Type.
Variable num_qubits : Instruction -> Z.
Variable str : Instruction -> string.
Variable E : Type.
Variable error : Type.
Variable _gate_set_to_coverage : Instruction -> E -> (error + coverage) * E.

Inductive init_exn :=
| AssertionError
| Raised (e : error).

(** The fields [__init__] sets; [requires] is a constant list and is left
    out. *)
Record MonodromyDepth := mkMonodromyDepth {
  basis_gate : Instruction;
  chatty : bool;
  coverage_set : coverage
}.

(** [MonodromyDepth.__init__]: the result, the dictionary of the class
    ([MonodromyDepth._coverage_cache]) and the outside state after the
    call.  The [assert] is taken as checked. *)
Definition MonodromyDepth_init (basis_gate : Instruction)
    (cache : gmap string coverage) (env : E)
  : (init_exn + MonodromyDepth) * gmap string coverage * E :=
  if negb (num_qubits basis_gate =? 2)%Z then (inl AssertionError, cache, env)
  else
    let basis_gate_key := str basis_gate in
    match cache !! basis_gate_key with
    | Some found => (inr (mkMonodromyDepth basis_gate true found), cache, env)
    | None =>
      match _gate_set_to_coverage basis_gate env with
      | (inl e, env') => (inl (Raised e), cache, env')
      | (inr made, env') =>
        (inr (mkMonodromyDepth basis_gate true made),
         <[basis_gate_key := made]> cache, env')
      end
    end.

End WithCoverage.

Arguments AssertionError {error}.
Arguments Raised {error} e.
Arguments mkMonodromyDepth {Instruction coverage}.
Arguments basis_gate {Instruction coverage}.
Arguments chatty {Instruction coverage}.
Arguments coverage_set {Instruction coverage}.

End DepthPass.

(** * Properties of the polytope algebra *)
Module PolytopeFacts.
Import Polytopes.

#[local] Arguments compute_volume : simpl never.
#[local] Arguments compute_vertices : simpl never.
#[local] Arguments Polytope_intersect : simpl never.

Lemma bind_Ok {A B : Type} (r : result A) (k : A -> result B) (b : B) :
  r ≫= k = Ok b -> exists a, r = Ok a /\ k a = Ok b.
Proof. destruct r as [a|e]; simpl; [eauto | discriminate]. Qed.

(** ** Volumes *)

(** C8: [A - B] is [A] when [A] has the larger dimension, the difference of
    the magnitudes at the common dimension when the dimensions agree, and a
    [ValueError] when [B] has the larger dimension. *)
Theorem PolytopeVolume_sub_cases (A B : PolytopeVolume) :
  ((dimension B < dimension A)%Z -> PolytopeVolume_sub A B = Ok A)
  /\ (dimension A = dimension B ->
      PolytopeVolume_sub A B
      = Ok (mkPolytopeVolume (dimension A) (volume A - volume B)%Q))
  /\ ((dimension A < dimension B)%Z -> PolytopeVolume_sub A B = Raise ValueError).
Proof.
  unfold PolytopeVolume_sub. repeat split; intros H.
  - apply Z.ltb_lt in H. now rewrite H.
  - rewrite H, Z.ltb_irrefl, Z.eqb_refl. reflexivity.
  - destruct (Z.ltb_spec (dimension B) (dimension A)); [lia|].
    destruct (Z.eqb_spec (dimension A) (dimension B)); [lia|reflexivity].
Qed.

Lemma PolytopeVolume_sub_cases_witness :
  PolytopeVolume_sub (mkPolytopeVolume 2 5) (mkPolytopeVolume 1 3)
  = Ok (mkPolytopeVolume 2 5)
  /\ PolytopeVolume_sub (mkPolytopeVolume 2 5) (mkPolytopeVolume 2 3)
     = Ok (mkPolytopeVolume 2 (5 - 3)%Q)
  /\ PolytopeVolume_sub (mkPolytopeVolume 1 5) (mkPolytopeVolume 2 3)
     = Raise ValueError.
Proof.
  split; [|split].
  - apply (PolytopeVolume_sub_cases (mkPolytopeVolume 2 5) (mkPolytopeVolume 1 3)).
    simpl. lia.
  - apply (PolytopeVolume_sub_cases (mkPolytopeVolume 2 5) (mkPolytopeVolume 2 3)).
    reflexivity.
  - apply (PolytopeVolume_sub_cases (mkPolytopeVolume 1 5) (mkPolytopeVolume 2 3)).
    simpl. lia.
Defined.

(** ** The order on volumes and the descending sort *)

Lemma Qlt_bool_iff (x y : Q) : Qlt_bool x y = true <-> (x < y)%Q.
Proof.
  unfold Qlt_bool. rewrite negb_true_iff. split.
  - intros H. apply Qnot_le_lt. intros Hle. apply Qle_bool_iff in Hle. congruence.
  - intros H. destruct (Qle_bool y x) eqn:E; [|reflexivity].
    apply Qle_bool_iff in E. exfalso. exact (Qlt_not_le _ _ H E).
Qed.

Lemma PolytopeVolume_ltb_iff (a b : PolytopeVolume) :
  PolytopeVolume_ltb a b = true
  <-> (dimension a < dimension b)%Z
      \/ (dimension a = dimension b /\ (volume a < volume b)%Q).
Proof.
  unfold PolytopeVolume_ltb.
  destruct (Z.eqb_spec (dimension a) (dimension b)) as [E|N]; cbn.
  - destruct (Qeq_bool (volume a) (volume b)) eqn:Q; cbn.
    + apply Qeq_bool_iff in Q. split; [discriminate|].
      intros [H|[_ H]]; [lia|]. rewrite Q in H. now apply Qlt_irrefl in H.
    + rewrite Qlt_bool_iff. split; [auto|]. intros [H|[_ H]]; [lia|exact H].
  - rewrite Z.ltb_lt. split; [auto|]. intros [H|[H _]]; [exact H|contradiction].
Qed.

Lemma not_below_iff (a b : PolytopeVolume) :
  not_below a b
  <-> (dimension b < dimension a)%Z
      \/ (dimension a = dimension b /\ (volume b <= volume a)%Q).
Proof.
  unfold not_below. split.
  - intros H.
    destruct (Z.lt_trichotomy (dimension a) (dimension b)) as [L|[E|G]].
    + assert (PolytopeVolume_ltb a b = true) by (apply PolytopeVolume_ltb_iff; auto).
      congruence.
    + right. split; [exact E|].
      destruct (Qlt_le_dec (volume a) (volume b)) as [L|L]; [|exact L].
      assert (PolytopeVolume_ltb a b = true) by (apply PolytopeVolume_ltb_iff; auto).
      congruence.
    + left. exact G.
  - intros H. destruct (PolytopeVolume_ltb a b) eqn:E; [|reflexivity].
    apply PolytopeVolume_ltb_iff in E.
    destruct H as [H|[H1 H2]], E as [E|[E1 E2]]; try lia.
    exfalso. exact (Qlt_not_le _ _ E2 H2).
Qed.

Lemma not_below_trans (a b c : PolytopeVolume) :
  not_below a b -> not_below b c -> not_below a c.
Proof.
  rewrite !not_below_iff. intros [H|[H1 H2]] [K|[K1 K2]]; try (left; lia).
  right. split; [lia|]. exact (Qle_trans _ _ _ K2 H2).
Qed.

Lemma ltb_not_below (a b : PolytopeVolume) :
  PolytopeVolume_ltb a b = true -> not_below b a.
Proof.
  rewrite PolytopeVolume_ltb_iff, not_below_iff.
  intros [H|[H1 H2]]; [left; exact H|right].
  split; [lia|]. now apply Qlt_le_weak.
Qed.

Lemma tied_not_below (k a b : PolytopeVolume) :
  PolytopeVolume_eqb k a = true -> PolytopeVolume_eqb k b = true -> not_below a b.
Proof.
  unfold PolytopeVolume_eqb. rewrite !andb_true_iff.
  intros [D1 Q1] [D2 Q2]. apply Z.eqb_eq in D1, D2.
  apply Qeq_bool_iff in Q1, Q2. apply not_below_iff. right.
  split; [lia|]. rewrite <- Q1, <- Q2. apply Qle_refl.
Qed.

Abbreviation keys_descend :=
  (fun a b : PolytopeVolume * Polytope => not_below (fst a) (fst b)).

Lemma insert_descending_Permutation kx l :
  insert_descending kx l ≡ₚ kx :: l.
Proof.
  induction l as [|ky rest IH]; cbn; [reflexivity|].
  destruct (PolytopeVolume_ltb (fst kx) (fst ky)); [|reflexivity].
  rewrite IH. apply perm_swap.
Qed.

Lemma sorted_descending_Permutation l : sorted_descending l ≡ₚ l.
Proof.
  induction l as [|kx l IH]; [reflexivity|].
  change (sorted_descending (kx :: l))
    with (insert_descending kx (sorted_descending l)).
  rewrite insert_descending_Permutation. now rewrite IH.
Qed.

Lemma insert_descending_sorted kx l :
  StronglySorted keys_descend l ->
  StronglySorted keys_descend (insert_descending kx l).
Proof.
  induction 1 as [|ky rest Hs IH Hf]; cbn.
  - repeat constructor.
  - destruct (PolytopeVolume_ltb (fst kx) (fst ky)) eqn:E.
    + constructor; [exact IH|].
      rewrite insert_descending_Permutation. constructor; [|exact Hf].
      now apply ltb_not_below.
    + constructor; [now constructor|]. constructor; [exact E|].
      eapply Forall_impl; [exact Hf|]. cbn. intros z Hz.
      eapply not_below_trans; [exact E|exact Hz].
Qed.

Lemma sorted_descending_sorted l :
  StronglySorted keys_descend (sorted_descending l).
Proof.
  induction l as [|kx l IH]; [constructor|].
  change (sorted_descending (kx :: l))
    with (insert_descending kx (sorted_descending l)).
  now apply insert_descending_sorted.
Qed.

Lemma insert_descending_stable (k : PolytopeVolume) kx l :
  filter (fun y => PolytopeVolume_eqb k (fst y) = true) (insert_descending kx l)
  = filter (fun y => PolytopeVolume_eqb k (fst y) = true) (kx :: l).
Proof.
  induction l as [|ky rest IH]; cbn; [reflexivity|].
  destruct (PolytopeVolume_ltb (fst kx) (fst ky)) eqn:E; [|reflexivity].
  rewrite (filter_cons _ ky), IH, !filter_cons.
  destruct (decide (PolytopeVolume_eqb k (fst ky) = true)) as [Ty|Ty];
    destruct (decide (PolytopeVolume_eqb k (fst kx) = true)) as [Tx|Tx];
    try reflexivity.
  pose proof (tied_not_below k _ _ Tx Ty) as H. unfold not_below in H. congruence.
Qed.

Lemma sorted_descending_stable (k : PolytopeVolume) l :
  filter (fun y => PolytopeVolume_eqb k (fst y) = true) (sorted_descending l)
  = filter (fun y => PolytopeVolume_eqb k (fst y) = true) l.
Proof.
  induction l as [|kx l IH]; [reflexivity|].
  change (sorted_descending (kx :: l))
    with (insert_descending kx (sorted_descending l)).
  rewrite insert_descending_stable, !filter_cons, IH. reflexivity.
Qed.

Lemma sorted_descending_id l :
  StronglySorted keys_descend l -> sorted_descending l = l.
Proof.
  induction 1 as [|kx l Hs IH Hf]; [reflexivity|].
  change (sorted_descending (kx :: l))
    with (insert_descending kx (sorted_descending l)).
  rewrite IH. destruct Hf as [|ky rest Hy _]; cbn; [reflexivity|].
  cbn in Hy. unfold not_below in Hy. now rewrite Hy.
Qed.

Section WithBackend.

Variable backend_volume : ConvexPolytope -> option PolytopeVolume.
Variable backend_vertices : ConvexPolytope -> option (list vertex).
Variable backend_reduce : ConvexPolytope -> option ConvexPolytope.

Abbreviation compute_volume := (compute_volume backend_volume).
Abbreviation compute_vertices := (compute_vertices backend_vertices).
Abbreviation Polytope_volume := (Polytope_volume backend_volume).
Abbreviation Polytope_vertices := (Polytope_vertices backend_vertices).
Abbreviation Polytope_contains := (Polytope_contains backend_volume backend_vertices).
Abbreviation trim_polytope_set := (trim_polytope_set backend_volume backend_vertices).
Abbreviation trim_scan := (trim_scan backend_volume backend_vertices).
Abbreviation scan_from_last := (scan_from_last backend_volume backend_vertices).
Abbreviation Polytope_reduce :=
  (Polytope_reduce backend_volume backend_vertices backend_reduce).
Abbreviation not_containedb := (not_containedb backend_volume backend_vertices).

(** ** Memo cells *)

Lemma Polytope_union_memo (self other : Polytope) :
  convex_subpolytopes (Polytope_union self other)
  = convex_subpolytopes self ++ convex_subpolytopes other
  /\ memo_volume (Polytope_union self other) = None
  /\ memo_vertices (Polytope_union self other) = None.
Proof. repeat split. Qed.

Lemma Polytope_intersect_memo (self other : Polytope) :
  memo_volume (Polytope_intersect self other) = None
  /\ memo_vertices (Polytope_intersect self other) = None.
Proof. split; reflexivity. Qed.

(** [reduce] hands the memo cells of the original to the clone. *)
Lemma Polytope_reduce_memo (self r : Polytope) :
  Polytope_reduce self = Ok r ->
  memo_volume r = memo_volume self /\ memo_vertices r = memo_vertices self.
Proof.
  unfold Polytopes.Polytope_reduce. intros H.
  apply bind_Ok in H as (l & _ & H).
  apply bind_Ok in H as (cs & _ & H).
  injection H as <-. split; reflexivity.
Qed.

Lemma Polytope_vertices_Ok (p : Polytope) :
  exists vs p', Polytope_vertices p = Ok (vs, p')
    /\ memo_vertices p' = Some vs
    /\ memo_volume p' = memo_volume p
    /\ convex_subpolytopes p' = convex_subpolytopes p
    /\ (memo_vertices p = None -> vs = compute_vertices (convex_subpolytopes p))
    /\ (forall ws, memo_vertices p = Some ws -> vs = ws /\ p' = p).
Proof.
  unfold Polytopes.Polytope_vertices, memoized_property.
  destruct (memo_vertices p) as [ws|] eqn:E; simpl.
  - exists ws, p. repeat split; auto; try discriminate; congruence.
  - eexists _, _. repeat split; try discriminate.
Qed.

Lemma Polytope_volume_inv (p p' : Polytope) (v : PolytopeVolume) :
  Polytope_volume p = Ok (v, p') ->
  memo_volume p' = Some v
  /\ memo_vertices p' = memo_vertices p
  /\ convex_subpolytopes p' = convex_subpolytopes p
  /\ (memo_volume p = None -> compute_volume (convex_subpolytopes p) = Ok v)
  /\ (forall w, memo_volume p = Some w -> v = w /\ p' = p).
Proof.
  unfold Polytopes.Polytope_volume, memoized_property.
  destruct (memo_volume p) as [w|] eqn:E; simpl.
  - intros H. injection H as <- <-. repeat split; auto; try discriminate; congruence.
  - intros H. apply bind_Ok in H as (u & Hu & H). injection H as <- <-.
    repeat split; auto; discriminate.
Qed.

Lemma Polytope_volume_memo (p : Polytope) (v : PolytopeVolume) :
  memo_volume p = Some v -> Polytope_volume p = Ok (v, p).
Proof.
  intros H. unfold Polytopes.Polytope_volume, memoized_property. now rewrite H.
Qed.

Lemma Polytope_vertices_memo (p : Polytope) vs :
  memo_vertices p = Some vs -> Polytope_vertices p = Ok (vs, p).
Proof.
  intros H. unfold Polytopes.Polytope_vertices, memoized_property. now rewrite H.
Qed.

(** ** Containment *)

Lemma vertex_phase_spec (little cap : list (list vertex)) :
  vertex_phase little cap = true
  <-> (forall sub v, In sub little -> In v sub ->
         exists cap_sub, In cap_sub cap /\ vertex_in v cap_sub = true).
Proof.
  unfold vertex_phase. rewrite forallb_forall. split.
  - intros H sub v Hs Hv. specialize (H sub Hs).
    rewrite forallb_forall in H. specialize (H v Hv).
    apply existsb_exists in H. exact H.
  - intros H sub Hs. apply forallb_forall. intros v Hv.
    apply existsb_exists. eauto.
Qed.

Lemma Polytope_vertices_fresh (p : Polytope) :
  memo_vertices p = None ->
  Polytope_vertices p
  = Ok (compute_vertices (convex_subpolytopes p),
        mkPolytope (convex_subpolytopes p) (memo_volume p)
                   (Some (compute_vertices (convex_subpolytopes p)))).
Proof.
  intros H. unfold Polytopes.Polytope_vertices, memoized_property. now rewrite H.
Qed.

Lemma Polytope_volume_fresh (p : Polytope) :
  memo_volume p = None ->
  Polytope_volume p
  = v ← compute_volume (convex_subpolytopes p);
    Ok (v, mkPolytope (convex_subpolytopes p) (Some v) (memo_vertices p)).
Proof.
  intros H. unfold Polytopes.Polytope_volume, memoized_property. now rewrite H.
Qed.

(** [contains] written out on the values its property reads return. *)
Lemma Polytope_contains_unfold (self other other1 : Polytope) little :
  Polytope_vertices other = Ok (little, other1) ->
  Polytope_contains self other
  = if negb (vertex_phase little
               (compute_vertices (convex_subpolytopes (Polytope_intersect other self))))
    then Ok (false, other1)
    else '(little_volume, other2) ← Polytope_volume other1;
         cap_volume ← compute_volume
                        (convex_subpolytopes (Polytope_intersect other self));
         Ok (PolytopeVolume_eqb cap_volume little_volume, other2).
Proof.
  intros Hv. unfold Polytopes.Polytope_contains. rewrite Hv.
  rewrite (Polytope_vertices_fresh (Polytope_intersect other self) eq_refl). cbn.
  destruct (vertex_phase _ _); cbn; [|reflexivity].
  destruct (Polytope_volume other1) as [[vl o2]|e]; cbn; [|reflexivity].
  rewrite Polytope_volume_fresh by reflexivity. cbn.
  destruct (compute_volume _); reflexivity.
Qed.

(** C6: [p.contains(q)] is true exactly when every vertex of every
    component of [q] occurs among the vertices of some component of
    [I = q.intersect(p)] and the volume of [I] equals that of [q]; when a
    vertex is missing the answer is false and no volume is read (the
    volume cell of [q] is left as it was, and a volume that would raise is
    not met); when no vertex is missing the answer is the comparison of the
    two volumes.  The vertices of [q] are those its [vertices] property
    returns: the vertex lists of its components when the cell was empty. *)
Theorem Polytope_contains_two_phase (self other other1 : Polytope)
    (little : list (list vertex)) :
  Polytope_vertices other = Ok (little, other1) ->
  let I := Polytope_intersect other self in
  let cap := compute_vertices (convex_subpolytopes I) in
  let no_vertex_missing :=
    forall sub v, In sub little -> In v sub ->
      exists cap_sub, In cap_sub cap /\ vertex_in v cap_sub = true in
  ((exists other', Polytope_contains self other = Ok (true, other'))
   <-> no_vertex_missing
       /\ exists little_volume other2 cap_volume,
            Polytope_volume other1 = Ok (little_volume, other2)
            /\ compute_volume (convex_subpolytopes I) = Ok cap_volume
            /\ PolytopeVolume_eqb cap_volume little_volume = true)
  /\ (~ no_vertex_missing ->
      Polytope_contains self other = Ok (false, other1)
      /\ memo_volume other1 = memo_volume other)
  /\ (no_vertex_missing ->
      Polytope_contains self other
      = '(little_volume, other2) ← Polytope_volume other1;
        cap_volume ← compute_volume (convex_subpolytopes I);
        Ok (PolytopeVolume_eqb cap_volume little_volume, other2))
  /\ (memo_vertices other = None ->
      little = compute_vertices (convex_subpolytopes other)).
Proof.
  intros Hv I cap P.
  enough (G : forall A B C D : Prop, A /\ B /\ C -> D -> A /\ B /\ C /\ D).
  2: { tauto. }
  apply G; clear G.
  2: { intros Hn.
       destruct (Polytope_vertices_Ok other) as (vs & p' & Hv' & _ & _ & _ & Hf & _).
       rewrite Hv in Hv'. injection Hv' as <- <-. now apply Hf. }
  pose proof (Polytope_contains_unfold self other other1 little Hv) as E.
  fold I in E. fold cap in E.
  pose proof (vertex_phase_spec little cap) as S. fold P in S.
  destruct (Polytope_vertices_Ok other) as (vs & p' & Hv' & _ & Hm & _).
  rewrite Hv in Hv'. injection Hv' as <- <-.
  destruct (vertex_phase little cap) eqn:Ph; cbn in E.
  - assert (HP : P) by (now apply S).
    split; [|split].
    + rewrite E. split.
      * intros [o Ho]. split; [exact HP|].
        destruct (Polytope_volume other1) as [[vl o2]|e]; cbn in Ho; [|discriminate].
        destruct (compute_volume (convex_subpolytopes I)) as [vc|e] eqn:Ec;
          cbn in Ho; [|discriminate].
        injection Ho as Hb _. eauto 6.
      * intros (_ & vl & o2 & vc & H1 & H2 & H3).
        rewrite H1. cbn. rewrite H2. cbn. rewrite H3. eauto.
    + intros Hn. contradiction.
    + intros _. exact E.
  - assert (HP : ~ P) by (intros H; apply S in H; discriminate).
    split; [|split].
    + split.
      * intros [o Ho]. rewrite E in Ho. discriminate.
      * intros [H _]. contradiction.
    + intros _. split; [exact E | exact Hm].
    + intros H. contradiction.
Qed.

Lemma compute_volume_nil : compute_volume [] = Ok (mkPolytopeVolume 0 0).
Proof. reflexivity. Qed.

(** C10: every polytope contains the polytope without components, its memo
    cells being empty or, where filled, holding a volume [==] to the zero
    volume and vertex lists without a vertex, as they do on a fresh
    polytope once read and on the polytope without components that
    [reduce] returns. *)
Theorem Polytope_contains_empty (self other : Polytope) :
  convex_subpolytopes other = [] ->
  memo_vacant other ->
  exists other', Polytope_contains self other = Ok (true, other').
Proof.
  intros Hcs [Hvol Hver].
  destruct (Polytope_vertices_Ok other) as (vs & o1 & Hv & _ & Hmv & Hc1 & Hnone & Hsome).
  assert (Hvs : Forall (fun sub => sub = []) vs).
  { destruct (memo_vertices other) as [ws|] eqn:E.
    - destruct (Hsome ws eq_refl) as [-> _]. now apply Hver.
    - rewrite (Hnone eq_refl), Hcs. constructor. }
  rewrite (Polytope_contains_unfold self other o1 vs Hv).
  assert (Hi : convex_subpolytopes (Polytope_intersect other self) = []).
  { unfold Polytope_intersect. cbn. rewrite Hcs. reflexivity. }
  rewrite Hi.
  assert (Hphase : vertex_phase vs (compute_vertices []) = true).
  { unfold vertex_phase. apply forallb_forall. intros sub Hsub.
    rewrite Forall_forall in Hvs. apply list_elem_of_In in Hsub.
    now rewrite (Hvs sub Hsub). }
  rewrite Hphase. cbn [negb].
  assert (exists w o2, Polytope_volume o1 = Ok (w, o2)
                       /\ PolytopeVolume_eqb w (mkPolytopeVolume 0 0) = true)
    as (w & o2 & -> & Hw).
  { destruct (memo_volume o1) as [w|] eqn:E.
    - rewrite (Polytope_volume_memo o1 w E). exists w, o1. split; [reflexivity|].
      apply Hvol. congruence.
    - unfold Polytopes.Polytope_volume, memoized_property. rewrite E, Hc1, Hcs.
      rewrite compute_volume_nil. cbn. eauto. }
  cbn. rewrite compute_volume_nil. cbn.
  exists o2. do 2 f_equal.
  unfold PolytopeVolume_eqb in *. cbn [dimension volume] in *.
  apply andb_true_iff in Hw as [Hd Hq].
  apply Z.eqb_eq in Hd. apply Qeq_bool_iff in Hq.
  rewrite Hd. cbn [Z.eqb andb]. apply Qeq_bool_iff. now symmetry.
Qed.

(** ** Redundancy elimination *)

Lemma comprehension_Forall2 {A B : Type} (f : A -> result B) l ys :
  comprehension f l = Ok ys -> Forall2 (fun x y => f x = Ok y) l ys.
Proof.
  revert ys. induction l as [|x l IH]; intros ys H; cbn in H.
  - injection H as <-. constructor.
  - apply bind_Ok in H as (y & Hy & H). apply bind_Ok in H as (ys' & Hys & H).
    injection H as <-. constructor; auto.
Qed.

Lemma Forall2_comprehension {A B : Type} (f : A -> result B) l ys :
  Forall2 (fun x y => f x = Ok y) l ys -> comprehension f l = Ok ys.
Proof.
  induction 1 as [|x y l ys Hxy _ IH]; cbn; [reflexivity|].
  rewrite Hxy. cbn. rewrite IH. reflexivity.
Qed.

(** [contains] looks at the components of the container only. *)
Lemma Polytope_contains_components (self other : Polytope) :
  Polytope_contains self other
  = Polytope_contains (Polytope_init (convex_subpolytopes self)) other.
Proof. reflexivity. Qed.

Lemma fold_union_components (l : list Polytope) (context : Polytope) :
  convex_subpolytopes (fold_left Polytope_union l context)
  = convex_subpolytopes context ++ concat (map convex_subpolytopes l).
Proof.
  revert context. induction l as [|p l IH]; intros context; cbn.
  - now rewrite app_nil_r.
  - rewrite IH. cbn. now rewrite <- app_assoc.
Qed.

Lemma fixed_union_components (fixed_polytopes : option (list Polytope)) :
  convex_subpolytopes (fixed_union fixed_polytopes)
  = concat (map convex_subpolytopes (default [] fixed_polytopes)).
Proof.
  destruct fixed_polytopes as [l|]; cbn; [|reflexivity].
  apply fold_union_components.
Qed.

Abbreviation skip_step index :=
  (fun (other_polytope : Polytope) '((subindex, polytope) : nat * Polytope) =>
     if Nat.eqb subindex index then other_polytope
     else Polytope_union other_polytope polytope).

Lemma others_union_past (index off : nat) (l : list Polytope) (acc : Polytope) :
  index < off ->
  fold_left (skip_step index) (imap (fun i => pair (off + i)) l) acc
  = fold_left Polytope_union l acc.
Proof.
  revert off acc. induction l as [|x l IH]; intros off acc H; [reflexivity|].
  rewrite imap_cons. cbn [fold_left].
  replace (off + 0 =? index) with false by (symmetry; apply Nat.eqb_neq; lia).
  rewrite <- (IH (S off)) by lia. f_equal. apply imap_ext.
  intros i y _. cbn. f_equal. lia.
Qed.

Lemma others_union_offset (off : nat) (front : list Polytope) c kept acc :
  fold_left (skip_step (off + length front))
            (imap (fun i => pair (off + i)) (front ++ c :: kept)) acc
  = fold_left Polytope_union (front ++ kept) acc.
Proof.
  revert off acc. induction front as [|x front IH]; intros off acc.
  - cbn [app length]. rewrite imap_cons. cbn [fold_left].
    rewrite Nat.eqb_refl.
    rewrite <- (others_union_past (off + 0) (S off)) by lia.
    f_equal. apply imap_ext. intros i y _. cbn. f_equal. lia.
  - cbn [app length]. rewrite imap_cons. cbn [fold_left].
    replace (off + 0 =? off + S (length front)) with false
      by (symmetry; apply Nat.eqb_neq; lia).
    rewrite <- (IH (S off)).
    replace (S off + length front) with (off + S (length front)) by lia.
    f_equal. apply imap_ext. intros i y _. cbn. f_equal. lia.
Qed.

Lemma others_union_middle (context : Polytope) (front : list Polytope) c kept :
  others_union context (length front) (front ++ c :: kept)
  = fold_left Polytope_union (front ++ kept) context.
Proof. exact (others_union_offset 0 front c kept context). Qed.

(** The loop over indices is the scan from the last candidate. *)
Lemma trim_scan_scan_from_last (context : Polytope) (front kept : list Polytope) :
  trim_scan context (length front) (front ++ kept)
  = scan_from_last context (rev front) kept.
Proof.
  revert kept. induction front as [|c front IH] using rev_ind; intros kept.
  - reflexivity.
  - rewrite length_app, Nat.add_1_r, rev_app_distr, <- app_assoc.
    cbn [rev app length].
    cbn [Polytopes.trim_scan Polytopes.scan_from_last].
    unfold getitem. rewrite list_lookup_middle by reflexivity. cbn.
    rewrite others_union_middle, rev_involutive.
    destruct (Polytope_contains _ c) as [[b c']|e]; cbn; [|reflexivity].
    rewrite insert_app_r_alt by lia. rewrite Nat.sub_diag. cbn [insert list_insert].
    destruct b.
    + rewrite delete_middle. apply IH.
    + apply (IH (c' :: kept)).
Qed.

Lemma Polytope_contains_inv (self other other' : Polytope) (b : bool) :
  Polytope_contains self other = Ok (b, other') ->
  convex_subpolytopes other' = convex_subpolytopes other
  /\ memo_vertices other' <> None
  /\ (forall v, memo_volume other = Some v -> memo_volume other' = Some v)
  /\ Polytope_contains self other' = Ok (b, other')
  /\ (forall container b' o,
        memo_volume other = Some (cached_volume other) ->
        Polytope_contains container other' = Ok (b', o) -> o = other').
Proof.
  intros H.
  destruct (Polytope_vertices_Ok other) as (vs & o1 & Hv & Hm1 & Hmv1 & Hc1 & _ & _).
  rewrite (Polytope_contains_unfold self other o1 vs Hv) in H.
  pose proof (Polytope_vertices_memo o1 vs Hm1) as Hv1.
  assert (Hi : forall c, Polytope_intersect o1 c = Polytope_intersect other c).
  { intros c. unfold Polytope_intersect, clear_memoization, clone_with_components.
    cbn. now rewrite Hc1. }
  destruct (vertex_phase vs _) eqn:Ph; cbn in H.
  - destruct (Polytope_volume o1) as [[vl o2]|e] eqn:Hvol; cbn in H; [|discriminate].
    destruct (compute_volume _) as [vc|e] eqn:Hcv; cbn in H; [|discriminate].
    injection H as <- <-.
    destruct (Polytope_volume_inv o1 o2 vl Hvol) as (Hm2 & Hmv2 & Hc2 & _ & Hs).
    assert (Hv2 : Polytope_vertices o2 = Ok (vs, o2)).
    { apply Polytope_vertices_memo. congruence. }
    assert (Hi2 : forall c, Polytope_intersect o2 c = Polytope_intersect other c).
    { intros c. unfold Polytope_intersect, clear_memoization, clone_with_components.
      cbn. now rewrite Hc2, Hc1. }
    repeat split.
    + congruence.
    + congruence.
    + intros v Hv0. rewrite <- Hmv1 in Hv0. destruct (Hs v Hv0) as [-> _]. exact Hm2.
    + rewrite (Polytope_contains_unfold self o2 o2 vs Hv2), Hi2, Ph. cbn.
      rewrite (Polytope_volume_memo o2 vl Hm2). cbn. rewrite Hcv. reflexivity.
    + intros container b' o _ Hc.
      rewrite (Polytope_contains_unfold container o2 o2 vs Hv2) in Hc.
      destruct (negb _); [now injection Hc as _ <-|].
      rewrite (Polytope_volume_memo o2 vl Hm2) in Hc. cbn in Hc.
      destruct (compute_volume
                  (convex_subpolytopes (Polytope_intersect o2 container)));
        cbn in Hc; [|discriminate].
      now injection Hc as _ <-.
  - injection H as <- <-. repeat split.
    + exact Hc1.
    + congruence.
    + intros v Hv0. congruence.
    + rewrite (Polytope_contains_unfold self o1 o1 vs Hv1), Hi, Ph. reflexivity.
    + intros container b' o Hk Hc.
      rewrite (Polytope_contains_unfold container o1 o1 vs Hv1) in Hc.
      destruct (negb _); [now injection Hc as _ <-|].
      rewrite <- Hmv1 in Hk.
      rewrite (Polytope_volume_memo o1 _ Hk) in Hc. cbn in Hc.
      destruct (compute_volume
                  (convex_subpolytopes (Polytope_intersect o1 container)));
        cbn in Hc; [|discriminate].
      now injection Hc as _ <-.
Qed.

Lemma sublist_map {A B : Type} (f : A -> B) (l1 l2 : list A) :
  sublist l1 l2 -> sublist (map f l1) (map f l2).
Proof. induction 1; cbn; constructor; auto. Qed.

Lemma sublist_concat {A : Type} (l1 l2 : list (list A)) :
  sublist l1 l2 -> sublist (concat l1) (concat l2).
Proof.
  induction 1 as [|x l1 l2 _ IH|x l1 l2 _ IH]; cbn.
  - constructor.
  - apply sublist_app; [reflexivity|exact IH].
  - now apply sublist_inserts_l.
Qed.

(** What a finished scan returns: the survivors, in order, put before
    [kept]; their components and cached volumes are those of a selection of
    the candidates. *)
Lemma scan_from_last_survivors (context : Polytope) (fr kept out : list Polytope) :
  scan_from_last context fr kept = Ok out ->
  exists survivors,
    out = survivors ++ kept
    /\ sublist (map convex_subpolytopes survivors) (map convex_subpolytopes (rev fr)).
Proof.
  revert kept out. induction fr as [|c fr IH]; intros kept out H.
  - injection H as <-. exists []. split; [reflexivity|constructor].
  - cbn [Polytopes.scan_from_last] in H.
    apply bind_Ok in H as ([b c'] & Hc & H).
    apply Polytope_contains_inv in Hc as (Hcs & _).
    cbn [rev]. rewrite map_app. destruct b.
    + apply IH in H as (s & -> & Hs). exists s. split; [reflexivity|].
      now apply sublist_inserts_r.
    + apply IH in H as (s & -> & Hs). exists (s ++ [c']).
      split; [now rewrite <- app_assoc|].
      rewrite map_app. cbn. rewrite Hcs. apply sublist_app; [exact Hs|reflexivity].
Qed.

Lemma trim_polytope_set_as_scan (trimmable_polytopes : list Polytope)
    (fixed_polytopes : option (list Polytope)) :
  trim_polytope_set trimmable_polytopes fixed_polytopes
  = (keyed ← comprehension Polytope_volume trimmable_polytopes;
     scan_from_last (fixed_union fixed_polytopes)
                    (rev (map snd (sorted_descending keyed))) []).
Proof.
  unfold Polytopes.trim_polytope_set.
  destruct (comprehension _ _) as [keyed|e]; cbn; [|reflexivity].
  rewrite <- trim_scan_scan_from_last, app_nil_r. reflexivity.
Qed.

(** C7: the candidates are sorted by volume, largest first and ties in
    input order; the sorted list is scanned from its last entry to its
    first, a candidate being dropped exactly when the union of the context
    polytopes with all other remaining candidates contains it; that union
    always holds every component of every context polytope; the survivors
    come back in their order in the sorted list. *)
Theorem trim_polytope_set_refines (trimmable_polytopes : list Polytope)
    (fixed_polytopes : option (list Polytope)) :
  (forall keyed,
      comprehension Polytope_volume trimmable_polytopes = Ok keyed ->
      Forall2 (fun p kx => Polytope_volume p = Ok kx) trimmable_polytopes keyed
      /\ sorted_descending keyed ≡ₚ keyed
      /\ StronglySorted keys_descend (sorted_descending keyed)
      /\ (forall k,
            filter (fun y => PolytopeVolume_eqb k (fst y) = true)
                   (sorted_descending keyed)
            = filter (fun y => PolytopeVolume_eqb k (fst y) = true) keyed))
  /\ trim_polytope_set trimmable_polytopes fixed_polytopes
     = (keyed ← comprehension Polytope_volume trimmable_polytopes;
        scan_from_last (fixed_union fixed_polytopes)
                       (rev (map snd (sorted_descending keyed))) [])
  /\ (forall others,
        convex_subpolytopes
          (fold_left Polytope_union others (fixed_union fixed_polytopes))
        = concat (map convex_subpolytopes (default [] fixed_polytopes))
          ++ concat (map convex_subpolytopes others))
  /\ (forall keyed out,
        comprehension Polytope_volume trimmable_polytopes = Ok keyed ->
        trim_polytope_set trimmable_polytopes fixed_polytopes = Ok out ->
        sublist (map convex_subpolytopes out)
                (map convex_subpolytopes (map snd (sorted_descending keyed)))).
Proof.
  pose proof (trim_polytope_set_as_scan trimmable_polytopes fixed_polytopes) as E.
  split; [|split; [exact E|split]].
  - intros keyed H. split; [now apply comprehension_Forall2|].
    split; [apply sorted_descending_Permutation|].
    split; [apply sorted_descending_sorted|].
    intros k. apply sorted_descending_stable.
  - intros others. rewrite fold_union_components, fixed_union_components.
    reflexivity.
  - intros keyed out Hk Ho. rewrite E, Hk in Ho. cbn in Ho.
    apply scan_from_last_survivors in Ho as (s & -> & Hs).
    rewrite app_nil_r. now rewrite rev_involutive in Hs.
Qed.

(** ** The output of a trim is a fixed point *)

Lemma Permutation_concat {A : Type} (l1 l2 : list (list A)) :
  l1 ≡ₚ l2 -> concat l1 ≡ₚ concat l2.
Proof.
  induction 1 as [|x l1 l2 _ IH|x y l|l1 l2 l3 _ IH1 _ IH2]; cbn.
  - reflexivity.
  - now rewrite IH.
  - apply Permutation_app_swap_app.
  - now rewrite IH1.
Qed.

Lemma StronglySorted_sublist {A : Type} (R : A -> A -> Prop) (l1 l2 : list A) :
  sublist l1 l2 -> StronglySorted R l2 -> StronglySorted R l1.
Proof.
  induction 1 as [|x l1 l2 Hs IH|x l1 l2 Hs IH]; intros H.
  - constructor.
  - apply StronglySorted_inv in H as [H1 H2]. constructor; [auto|].
    rewrite Forall_forall in H2. rewrite Forall_forall. intros y Hy. apply H2.
    eapply sublist_subseteq; eauto.
  - apply StronglySorted_inv in H as [H1 _]. auto.
Qed.

Lemma StronglySorted_map {A B : Type} (R : B -> B -> Prop) (f : A -> B) (l : list A) :
  StronglySorted (fun a b => R (f a) (f b)) l <-> StronglySorted R (map f l).
Proof.
  induction l as [|x l IH]; cbn.
  - split; constructor.
  - split; intros H; apply StronglySorted_inv in H as [H1 H2];
      (constructor; [now apply IH|]).
    + rewrite Forall_forall in H2. rewrite Forall_forall. intros y Hy.
      apply list_elem_of_In, in_map_iff in Hy as (z & <- & Hz).
      apply H2. now apply list_elem_of_In.
    + rewrite Forall_forall in H2. rewrite Forall_forall. intros y Hy. apply H2.
      apply list_elem_of_In, in_map. now apply list_elem_of_In.
Qed.

Abbreviation volume_cached :=
  (fun p : Polytope => memo_volume p = Some (cached_volume p)).

Lemma volume_cached_Some (p : Polytope) (v : PolytopeVolume) :
  memo_volume p = Some v -> volume_cached p /\ cached_volume p = v.
Proof. intros H. unfold cached_volume. rewrite H. split; reflexivity. Qed.

Lemma not_containedb_union (context : Polytope) (others : list Polytope) c :
  not_containedb
    (convex_subpolytopes context ++ concat (map convex_subpolytopes others)) c
  = match Polytope_contains (fold_left Polytope_union others context) c with
    | Ok (false, _) => true
    | _ => false
    end.
Proof.
  unfold Polytopes.not_containedb.
  rewrite (Polytope_contains_components (fold_left _ _ _)), fold_union_components.
  reflexivity.
Qed.

(** Scanning the survivors of a scan again drops none of them. *)
Lemma scan_from_last_fixed_point (context : Polytope) (all : list ConvexPolytope)
    (fr kept out : list Polytope) :
  scan_from_last context fr kept = Ok out ->
  Forall volume_cached fr ->
  concat (map convex_subpolytopes (rev fr ++ kept)) ⊆+ all ->
  contains_antitone_within backend_volume backend_vertices
    (convex_subpolytopes context) all out ->
  exists survivors,
    out = survivors ++ kept
    /\ sublist (map convex_subpolytopes survivors) (map convex_subpolytopes (rev fr))
    /\ sublist (map cached_volume survivors) (map cached_volume (rev fr))
    /\ Forall volume_cached survivors
    /\ scan_from_last context (rev survivors) kept = Ok (survivors ++ kept).
Proof.
  revert kept out. induction fr as [|c0 fr IH]; intros kept out H Hmemo Hall Hanti.
  - injection H as <-. exists []. repeat split; constructor.
  - cbn [Polytopes.scan_from_last] in H.
    apply bind_Ok in H as ([b c1] & Hc & H).
    pose proof (Polytope_contains_inv _ _ _ _ Hc) as (Hcs & _ & Hvol & Hagain & Hsame).
    apply Forall_cons in Hmemo as [Hm0 Hmemo].
    specialize (Hvol _ Hm0). apply volume_cached_Some in Hvol as [Hm1 Hk1].
    specialize (fun container b' o => Hsame container b' o Hm0).
    cbn [rev] in Hall |- *. rewrite <- app_assoc in Hall. cbn [app] in Hall.
    rewrite !map_app. cbn [map]. destruct b.
    + destruct (IH kept out H Hmemo) as (s & -> & Hs1 & Hs2 & Hs3 & Hs4).
      * etransitivity; [|exact Hall]. apply sublist_submseteq, sublist_concat.
        rewrite !map_app. apply sublist_app; [reflexivity|]. cbn. now constructor.
      * exact Hanti.
      * exists s. repeat split; auto; now apply sublist_inserts_r.
    + destruct (IH (c1 :: kept) out H Hmemo) as (s & -> & Hs1 & Hs2 & Hs3 & Hs4).
      * rewrite map_app in Hall |- *. cbn [map] in Hall |- *. now rewrite Hcs.
      * exact Hanti.
      * exists (s ++ [c1]). rewrite <- !app_assoc. cbn [app].
        split; [reflexivity|]. rewrite !map_app. cbn [map].
        split; [rewrite Hcs; apply sublist_app; [exact Hs1|reflexivity]|].
        split; [rewrite Hk1; apply sublist_app; [exact Hs2|reflexivity]|].
        split; [apply Forall_app; split; [exact Hs3|now constructor]|].
        rewrite rev_app_distr. cbn [rev app Polytopes.scan_from_last].
        rewrite rev_involutive.
        assert (Hn : not_containedb
                       (convex_subpolytopes context
                        ++ concat (map convex_subpolytopes (s ++ kept))) c1 = true).
        { apply (Hanti (concat (map convex_subpolytopes (rev fr ++ kept)))).
          - apply in_or_app. right. now left.
          - etransitivity; [|exact Hall]. apply sublist_submseteq, sublist_concat.
            rewrite !map_app. apply sublist_app; [reflexivity|]. cbn. now constructor.
          - apply sublist_concat. rewrite !map_app.
            apply sublist_app; [exact Hs1|reflexivity].
          - rewrite not_containedb_union, Hagain. reflexivity. }
        rewrite not_containedb_union in Hn.
        destruct (Polytope_contains (fold_left Polytope_union (s ++ kept) context) c1)
          as [[[] o]|e] eqn:E; try discriminate Hn.
        rewrite (Hsame _ _ _ E). cbn. exact Hs4.
Qed.

Lemma comprehension_volume_cached (l : list Polytope) :
  Forall volume_cached l ->
  comprehension Polytope_volume l = Ok (map (fun p => (cached_volume p, p)) l).
Proof.
  induction 1 as [|p l Hp _ IH]; cbn; [reflexivity|].
  rewrite (Polytope_volume_memo p _ Hp). cbn. rewrite IH. reflexivity.
Qed.

Lemma keyed_volume_cached (l : list Polytope) keyed :
  Forall2 (fun p kx => Polytope_volume p = Ok kx) l keyed ->
  Forall (fun kx => volume_cached (snd kx) /\ cached_volume (snd kx) = fst kx) keyed
  /\ map convex_subpolytopes (map snd keyed) = map convex_subpolytopes l.
Proof.
  induction 1 as [|p [k p'] l keyed Hp _ [IH1 IH2]]; cbn; [split; constructor|].
  apply Polytope_volume_inv in Hp as (Hm & _ & Hc & _).
  split; [constructor; [now apply volume_cached_Some|exact IH1]|].
  now rewrite Hc, IH2.
Qed.


Lemma In_sublists {A : Type} (s l : list A) : sublist s l -> In s (sublists l).
Proof.
  induction 1 as [|x s l _ IH|x s l _ IH]; cbn.
  - now left.
  - apply in_or_app. left. now apply in_map.
  - apply in_or_app. now right.
Qed.

Lemma contains_antitone_withinb_sound context all candidates :
  contains_antitone_withinb backend_volume backend_vertices context all candidates
  = true ->
  contains_antitone_within backend_volume backend_vertices context all candidates.
Proof.
  unfold Polytopes.contains_antitone_withinb. rewrite forallb_forall.
  intros H big small c Hc Hbig Hsmall Hn.
  apply submseteq_sublist_r in Hbig as (l2 & Hp & Hl2).
  assert (Hin : In big (flat_map permutations (sublists all))).
  { apply in_flat_map. exists l2. split; [now apply In_sublists|].
    apply list_elem_of_In, permutations_Permutation. now symmetry. }
  specialize (H big Hin). rewrite forallb_forall in H.
  specialize (H small (In_sublists _ _ Hsmall)). rewrite forallb_forall in H.
  specialize (H c Hc). rewrite Hn in H. exact H.
Qed.

End WithBackend.

Lemma Polytope_contains_empty_witness :
  exists p1 p2 other other',
    Polytope_vertices Interval.vertices (Polytope_init [Interval.between 1 0])
    = Ok ([[]], p1)
    /\ Polytope_volume Interval.volume p1 = Ok (mkPolytopeVolume 0 0, p2)
    /\ Polytope_reduce Interval.volume Interval.vertices Interval.reduce p2 = Ok other
    /\ convex_subpolytopes other = []
    /\ memo_volume other = Some (mkPolytopeVolume 0 0)
    /\ memo_vertices other = Some [[]]
    /\ Polytope_contains Interval.volume Interval.vertices
         (Polytope_init [Interval.between 0 1]) other
       = Ok (true, other').
Proof.
  assert (H : exists other',
             Polytope_contains Interval.volume Interval.vertices
               (Polytope_init [Interval.between 0 1])
               (mkPolytope [] (Some (mkPolytopeVolume 0 0)) (Some [[]]))
             = Ok (true, other')).
  { apply (Polytope_contains_empty Interval.volume Interval.vertices).
    - reflexivity.
    - split.
      + intros v Hv. injection Hv as <-. reflexivity.
      + intros vs Hvs. injection Hvs as <-. repeat constructor. }
  destruct H as [other' H].
  eexists _, _, _, other'.
  split; [reflexivity|]. split; [vm_compute; reflexivity|].
  split; [vm_compute; reflexivity|].
  split; [reflexivity|]. split; [reflexivity|]. split; [reflexivity|]. exact H.
Defined.

Lemma Polytope_contains_two_phase_witness :
  Polytope_vertices Interval.vertices (Polytope_init [Interval.between (1#2) (3#2)])
  = Ok ([[[1#2]; [3#2]]]%Q,
        mkPolytope [Interval.between (1#2) (3#2)] None (Some [[[1#2]; [3#2]]]%Q))
  /\ Polytope_contains Interval.volume Interval.vertices
       (Polytope_init [Interval.between 0 (1#2)])
       (Polytope_init [Interval.between (1#2) (3#2)])
     = Ok (false,
           mkPolytope [Interval.between (1#2) (3#2)] None (Some [[[1#2]; [3#2]]]%Q)).
Proof.
  split; [reflexivity|].
  refine (proj1 (proj1 (proj2 (Polytope_contains_two_phase
            Interval.volume Interval.vertices
            (Polytope_init [Interval.between 0 (1#2)])
            (Polytope_init [Interval.between (1#2) (3#2)]) _ _ eq_refl)) _)).
  intros H.
  destruct (H [[1#2]; [3#2]]%Q [3#2]%Q) as (cap_sub & Hin & Hv);
    [left; reflexivity | right; left; reflexivity |].
  vm_compute in Hin. destruct Hin as [<-|[]]. vm_compute in Hv. discriminate Hv.
Defined.

(** C1: [union] and [intersect] return a clone with empty memo cells, but
    [reduce] does not: on the unit segment listed twice, read once for its
    vertices, the reduced polytope has one component and still answers
    with the two vertex lists of the original. *)
Theorem Polytope_reduce_keeps_stale_memo :
  let reduce := Polytope_reduce Interval.volume Interval.vertices Interval.reduce in
  let unit_segment := Interval.between 0 1 in
  exists p r stale,
    Polytope_vertices Interval.vertices (Polytope_init [unit_segment; unit_segment])
    = Ok (stale, p)
    /\ reduce p = Ok r
    /\ convex_subpolytopes r = [unit_segment]
    /\ memo_vertices r = Some stale
    /\ Polytope_vertices Interval.vertices r = Ok (stale, r)
    /\ length stale = 2
    /\ compute_vertices Interval.vertices (convex_subpolytopes r) <> stale
    /\ memo_vertices (Polytope_union p p) = None
    /\ memo_vertices (Polytope_intersect p p) = None.
Proof.
  intros reduce unit_segment.
  eexists _, _, _. split; [reflexivity|].
  split; [vm_compute; reflexivity|].
  repeat split. intros H. discriminate H.
Qed.

Lemma trim_polytope_set_refines_witness :
  let candidates :=
    [Polytope_init [Interval.between 0 1]; Polytope_init [Interval.between 0 2];
     Polytope_init [Interval.between (1#2) 1]; Polytope_init [Interval.between 2 3]] in
  let context := Some [Polytope_init [Interval.between 2 (7#2)]] in
  exists keyed out,
    comprehension (Polytope_volume Interval.volume) candidates = Ok keyed
    /\ trim_polytope_set Interval.volume Interval.vertices candidates context = Ok out
    /\ map convex_subpolytopes out = [[Interval.between 0 2]]
    /\ sublist (map convex_subpolytopes out)
               (map convex_subpolytopes (map snd (sorted_descending keyed))).
Proof.
  intros candidates context. eexists _, _.
  split; [vm_compute; reflexivity|].
  split; [vm_compute; reflexivity|].
  split; [reflexivity|].
  apply (proj2 (proj2 (proj2 (trim_polytope_set_refines
           Interval.volume Interval.vertices candidates context))));
    vm_compute; reflexivity.
Defined.


End PolytopeFacts.

(** * Properties of the path search *)
Module PathFacts.
Import Paths.

Lemma Counter_ne_false_length (a b : list operation) :
  Counter_ne a b = false -> length a = length b.
Proof.
  unfold Counter_ne. rewrite negb_false_iff, forallb_forall. intros H.
  apply Permutation_length, (Permutation_count_occ string_dec). intros x.
  destruct (in_dec string_dec x (a ++ b)) as [Hin|Hout].
  - apply Nat.eqb_eq. now apply H.
  - rewrite !(proj1 (count_occ_not_In string_dec _ x)); [reflexivity| |];
      intros Hx; apply Hout, in_or_app; auto.
Qed.

Lemma last_removelast {A : Type} (l : list A) (x : A) :
  last l = Some x -> S (length (removelast l)) = length l.
Proof.
  intros H. apply last_Some in H as [l' ->].
  rewrite removelast_last, length_app. cbn. lia.
Qed.

Lemma comprehension_app {A B : Type} (f : A -> result B) (l1 l2 : list A) :
  comprehension f (l1 ++ l2)
  = (ys1 ← comprehension f l1; ys2 ← comprehension f l2; Ok (ys1 ++ ys2)).
Proof.
  induction l1 as [|x l1 IH]; cbn.
  - destruct (comprehension f l2); reflexivity.
  - destruct (f x) as [y|e]; cbn; [|reflexivity]. rewrite IH.
    destruct (comprehension f l1) as [ys1|e]; cbn; [|reflexivity].
    destruct (comprehension f l2); reflexivity.
Qed.

Section WithScalars.

Variable num : Type.
Variable nzero : num.
Variable nadd nmul : num -> num -> num.
Variable W : Type.
Variable manual_get_random_vertex : PolytopeData num -> W -> option (point num) * W.
Variable polyhedron_has_element : CircuitPolytopeData num -> point num -> bool.

Abbreviation impose_target_convex := (impose_target_convex num nzero nadd nmul).
Abbreviation hop_scan := (hop_scan num nzero nadd nmul W manual_get_random_vertex).
Abbreviation single_unordered_decomposition_hop :=
  (single_unordered_decomposition_hop num nzero nadd nmul W manual_get_random_vertex).
Abbreviation hops_while :=
  (hops_while num nzero nadd nmul W manual_get_random_vertex).
Abbreviation select_step := (select_step num polyhedron_has_element).
Abbreviation select_working_polytope :=
  (select_working_polytope num polyhedron_has_element).
Abbreviation scipy_unordered_decomposition_hops :=
  (scipy_unordered_decomposition_hops num nzero nadd nmul W
     manual_get_random_vertex polyhedron_has_element).
Abbreviation accumulated_components :=
  (accumulated_components num nzero nadd nmul).
Abbreviation linked := (linked num).
Abbreviation selected := (selected num polyhedron_has_element).

(** ** One hop *)

Lemma accumulated_components_skip target ops a rest :
  Counter_ne (operations a) ops = true ->
  accumulated_components target ops (a :: rest)
  = accumulated_components target ops rest.
Proof.
  intros H. unfold Paths.accumulated_components.
  rewrite filter_cons_False; [reflexivity|]. congruence.
Qed.

Lemma accumulated_components_match target ops a rest :
  Counter_ne (operations a) ops = false ->
  accumulated_components target ops (a :: rest)
  = (imposed ← comprehension (impose_target_convex target)
                 (convex_subpolytopes (region a));
     more ← accumulated_components target ops rest;
     Ok (imposed ++ more)).
Proof.
  intros H. unfold Paths.accumulated_components.
  rewrite filter_cons_True by exact H. cbn [flat_map].
  apply comprehension_app.
Qed.

(** What a successful scan of the catalog has done. *)
Lemma hop_scan_Ok target ops ancestors backsolution_polytope w r w' :
  hop_scan target ops ancestors backsolution_polytope w = (Ok r, w') ->
  exists before a after components w0 op,
    ancestors = before ++ a :: after
    /\ Counter_ne (operations a) ops = false
    /\ accumulated_components target ops (before ++ [a]) = Ok components
    /\ manual_get_random_vertex
         (mkPolytopeData (convex_subpolytopes backsolution_polytope ++ components))
         w0
       = (Some (ancestor r), w')
    /\ last (operations a) = Some op
    /\ hop r = (ancestor r, op, target)
    /\ operations_remaining r = removelast (operations a).
Proof.
  revert backsolution_polytope w.
  induction ancestors as [|a rest IH]; intros bp w H; cbn in H; [discriminate|].
  destruct (Counter_ne (operations a) ops) eqn:Hm.
  - apply IH in H as (before & a' & after & comps & w0 & op & -> & H1 & H2 & H3).
    exists (a :: before), a', after, comps, w0, op.
    split; [reflexivity|]. split; [exact H1|].
    split; [|exact H3].
    cbn [app]. now rewrite accumulated_components_skip.
  - destruct (comprehension _ _) as [imposed|e] eqn:Hi; [|discriminate].
    destruct (manual_get_random_vertex _ w) as [[solution|] w1] eqn:Hv.
    + destruct (last (operations a)) as [op|] eqn:Hl; [|discriminate].
      injection H as <- <-.
      exists [], a, rest, imposed, w, op. cbn [app].
      split; [reflexivity|]. split; [exact Hm|].
      split; [|cbn; auto].
      rewrite accumulated_components_match by exact Hm. rewrite Hi. cbn.
      now rewrite app_nil_r.
    + apply IH in H
        as (before & a' & after & comps & w0 & op & -> & H1 & H2 & H3 & H4).
      exists (a :: before), a', after, (imposed ++ comps), w0, op.
      split; [reflexivity|]. split; [exact H1|].
      split; [|split; [|exact H4]].
      * cbn [app]. rewrite accumulated_components_match by exact Hm.
        rewrite Hi. cbn. rewrite H2. reflexivity.
      * cbn in H3. now rewrite app_assoc.
Qed.


Lemma hop_shortens target working_operations scipy_coverage_set w r w' :
  single_unordered_decomposition_hop target working_operations scipy_coverage_set w
  = (Ok r, w') ->
  S (length (operations_remaining r)) = length working_operations
  /\ exists op, hop r = (ancestor r, op, target).
Proof.
  intros H.
  apply hop_scan_Ok in H as (_ & a & _ & _ & _ & op & _ & Hm & _ & _ & Hl & Hh & Hr).
  split; [|eauto].
  rewrite Hr, (last_removelast _ _ Hl). now apply Counter_ne_false_length.
Qed.

(** ** The loop *)

Lemma hops_while_enough fuel scs target remaining decomposition w :
  length remaining <= fuel ->
  exists res,
    hops_while fuel scs target remaining decomposition w = Some res
    /\ hops_while (length remaining) scs target remaining decomposition w = Some res.
Proof.
  revert target remaining decomposition w.
  induction fuel as [|fuel IH]; intros target remaining dec w Hle.
  - destruct remaining; [|cbn in Hle; lia]. cbn. eauto.
  - destruct remaining as [|o rest] eqn:E; [cbn; eauto|]. rewrite <- E in *.
    assert (Hlen : length remaining = S (length rest)) by (now rewrite E).
    rewrite Hlen. cbn [Paths.hops_while]. rewrite E. rewrite <- E.
    destruct (single_unordered_decomposition_hop target remaining scs w)
      as [[r|e] w1] eqn:Hh; [|eauto].
    destruct (hop_shortens _ _ _ _ _ _ Hh) as [Hs _].
    assert (Hr : length (operations_remaining r) = length rest) by lia.
    destruct (IH (ancestor r) (operations_remaining r) (hop r :: dec) w1)
      as (res & H1 & H2); [lia|].
    rewrite <- Hr. eauto.
Qed.

Lemma hops_while_count fuel scs target remaining decomposition w d w' :
  hops_while fuel scs target remaining decomposition w = Some (Ok d, w') ->
  length remaining <= fuel
  /\ length d = length remaining + length decomposition.
Proof.
  revert target remaining decomposition w.
  induction fuel as [|fuel IH]; intros target remaining dec w H.
  - destruct remaining; [|discriminate]. injection H as <- <-. cbn. lia.
  - destruct remaining as [|o rest] eqn:E.
    + injection H as <- <-. cbn. lia.
    + rewrite <- E in *. cbn [Paths.hops_while] in H. rewrite E in H.
      rewrite <- E in H.
      destruct (single_unordered_decomposition_hop target remaining scs w)
        as [[r|e] w1] eqn:Hh; [|discriminate].
      destruct (hop_shortens _ _ _ _ _ _ Hh) as [Hs _].
      apply IH in H as [H1 H2]. cbn in H2. lia.
Qed.

Lemma hops_while_linked fuel scs target remaining decomposition w d w' final :
  hops_while fuel scs target remaining decomposition w = Some (Ok d, w') ->
  linked target final decomposition ->
  exists current, linked current final d.
Proof.
  revert target remaining decomposition w.
  induction fuel as [|fuel IH]; intros target remaining dec w H Hl.
  - destruct remaining; [|discriminate]. injection H as <- <-. eauto.
  - destruct remaining as [|o rest] eqn:E.
    + injection H as <- <-. eauto.
    + rewrite <- E in *. cbn [Paths.hops_while] in H. rewrite E in H.
      rewrite <- E in H.
      destruct (single_unordered_decomposition_hop target remaining scs w)
        as [[r|e] w1] eqn:Hh; [|discriminate].
      destruct (hop_shortens _ _ _ _ _ _ Hh) as [_ [op Hop]].
      apply IH in H; [exact H|]. rewrite Hop.
      destruct Hl as (L1 & L2 & L3 & L4). repeat split.
      * intros [|i] s1 o1 t1 s2 o2 t2 H1 H2; cbn in H1, H2.
        -- injection H1 as <- <- <-. destruct dec as [|[[s' o'] t'] dec'];
             [discriminate|]. injection H2 as <- <- <-.
           symmetry. exact (L3 _ _ _ eq_refl).
        -- eauto.
      * intros s o' t Hlast. destruct dec as [|x dec'].
        -- injection Hlast as <- <- <-. now apply L4.
        -- exact (L2 _ _ _ Hlast).
      * intros s o' t Hhead. now injection Hhead as <- <- <-.
      * discriminate.
Qed.

(** ** The choice of the working polytope *)

Lemma cost_lt_Some (c b : Q) : cost_lt c (Some b) = false -> (b <= c)%Q.
Proof.
  unfold cost_lt. rewrite negb_false_iff. apply Qle_bool_iff.
Qed.

Lemma cost_lt_Some_true (c b : Q) : cost_lt c (Some b) = true -> (c <= b)%Q.
Proof.
  unfold cost_lt. rewrite negb_true_iff. intros H.
  destruct (Qlt_le_dec c b) as [L|L]; [now apply Qlt_le_weak|].
  apply Qle_bool_iff in L. congruence.
Qed.

Lemma select_step_selected target seen st e :
  selected target seen st -> selected target (seen ++ [e]) (select_step target st e).
Proof.
  unfold Paths.selected, Paths.select_step. destruct st as [[p|] best]; cbn.
  - intros (-> & Hin & Hp & Hmin).
    destruct (cost_lt (cost e) (Some (cost p))) eqn:Hc; cbn.
    + destruct (polyhedron_has_element e target) eqn:He; cbn.
      * split; [reflexivity|]. split; [apply in_or_app; right; now left|].
        split; [exact He|]. intros e' Hin' He'.
        apply in_app_or in Hin' as [Hin'|[<-|[]]]; [|apply Qle_refl].
        eapply Qle_trans; [exact (cost_lt_Some_true _ _ Hc)|]. now apply Hmin.
      * split; [reflexivity|]. split; [apply in_or_app; now left|].
        split; [exact Hp|]. intros e' Hin' He'.
        apply in_app_or in Hin' as [Hin'|[<-|[]]]; [now apply Hmin|congruence].
    + split; [reflexivity|]. split; [apply in_or_app; now left|].
      split; [exact Hp|]. intros e' Hin' He'.
      apply in_app_or in Hin' as [Hin'|[<-|[]]]; [now apply Hmin|].
      now apply cost_lt_Some.
  - intros (-> & Hnone). cbn.
    destruct (polyhedron_has_element e target) eqn:He; cbn.
    + split; [reflexivity|]. split; [apply in_or_app; right; now left|].
      split; [exact He|]. intros e' Hin' He'.
      apply in_app_or in Hin' as [Hin'|[<-|[]]]; [|apply Qle_refl].
      rewrite (Hnone _ Hin') in He'. discriminate.
    + split; [reflexivity|]. intros e' Hin'.
      apply in_app_or in Hin' as [Hin'|[<-|[]]]; [now apply Hnone|exact He].
Qed.

Lemma fold_select_selected target seen coverage st :
  selected target seen st ->
  selected target (seen ++ coverage) (fold_left (select_step target) coverage st).
Proof.
  revert seen st. induction coverage as [|e coverage IH]; intros seen st H; cbn.
  - now rewrite app_nil_r.
  - replace (seen ++ e :: coverage) with ((seen ++ [e]) ++ coverage)
      by (now rewrite <- app_assoc).
    apply IH. now apply select_step_selected.
Qed.

Lemma select_working_polytope_selected coverage_set target :
  selected target coverage_set
    (fold_left (select_step target) coverage_set (None, None)).
Proof.
  apply (fold_select_selected target [] coverage_set (None, None)).
  split; [reflexivity|]. intros e [].
Qed.

(** C4: the working polytope is an entry of the coverage set that holds
    the target and no entry that holds the target costs less; an entry is
    chosen as soon as some entry holds the target; when no entry holds it,
    the call raises [ValueError] and returns no decomposition. *)
Theorem decompose_selects_minimum_cost coverage_set target :
  (forall working_polytope,
      select_working_polytope coverage_set target = Some working_polytope ->
      In working_polytope coverage_set
      /\ polyhedron_has_element working_polytope target = true
      /\ forall e, In e coverage_set -> polyhedron_has_element e target = true ->
                   (cost working_polytope <= cost e)%Q)
  /\ ((exists e, In e coverage_set /\ polyhedron_has_element e target = true) ->
      exists working_polytope,
        select_working_polytope coverage_set target = Some working_polytope)
  /\ ((forall e, In e coverage_set -> polyhedron_has_element e target = false) ->
      forall fuel scipy_coverage_set w,
        scipy_unordered_decomposition_hops fuel coverage_set scipy_coverage_set
          target w
        = Some (Raise ValueError, w)).
Proof.
  pose proof (select_working_polytope_selected coverage_set target) as H.
  unfold Paths.selected in H. unfold Paths.scipy_unordered_decomposition_hops.
  unfold Paths.select_working_polytope.
  destruct (fst (fold_left _ coverage_set (None, None))) as [p|].
  - destruct H as (_ & Hin & Hp & Hmin). split; [|split].
    + intros wp Hwp. injection Hwp as <-. auto.
    + eauto.
    + intros Hnone. rewrite (Hnone _ Hin) in Hp. discriminate.
  - destruct H as (_ & Hnone). split; [|split].
    + discriminate.
    + intros (e & Hin & He). rewrite (Hnone _ Hin) in He. discriminate.
    + reflexivity.
Qed.

(** C5: a returned decomposition is a chain: the target of every triple
    is the source of the next one, and the target of the last triple is the
    point that was asked for. *)
Theorem decomposition_is_chain fuel coverage_set scipy_coverage_set target w d w' :
  scipy_unordered_decomposition_hops fuel coverage_set scipy_coverage_set target w
  = Some (Ok d, w') ->
  (forall i s1 o1 t1 s2 o2 t2,
      d !! i = Some (s1, o1, t1) -> d !! S i = Some (s2, o2, t2) -> t1 = s2)
  /\ (forall s o t, last d = Some (s, o, t) -> t = target).
Proof.
  unfold Paths.scipy_unordered_decomposition_hops.
  destruct (select_working_polytope coverage_set target) as [wp|]; [|discriminate].
  intros H.
  destruct (hops_while_linked _ _ _ _ _ _ _ _ target H) as (cur & L1 & L2 & _).
  - repeat split; discriminate.
  - split; assumption.
Qed.


End WithScalars.

(** ** On the integer catalog *)



Lemma decompose_selects_minimum_cost_witness :
  (exists working_polytope,
      select_working_polytope Z Grid.polyhedron_has_element Grid.coverage_set
        [1; 0; 0]%Z = Some working_polytope
      /\ operations working_polytope = ["op1"%string]
      /\ In working_polytope Grid.coverage_set
      /\ Grid.polyhedron_has_element working_polytope [1; 0; 0]%Z = true)
  /\ Grid.decompose 7 Grid.coverage_set Grid.scipy_coverage_set [3; 0; 0]%Z []
     = Some (Raise ValueError, []).
Proof.
  split.
  - eexists. split; [vm_compute; reflexivity|]. split; [reflexivity|].
    destruct (proj1 (decompose_selects_minimum_cost Z 0%Z Z.add Z.mul _
                       Grid.manual_get_random_vertex Grid.polyhedron_has_element
                       Grid.coverage_set [1; 0; 0]%Z) _ eq_refl) as (H1 & H2 & _).
    split; [exact H1|exact H2].
  - apply (proj2 (proj2 (decompose_selects_minimum_cost Z 0%Z Z.add Z.mul _
                           Grid.manual_get_random_vertex Grid.polyhedron_has_element
                           Grid.coverage_set [3; 0; 0]%Z))).
    intros e He. cbn in He. destruct He as [<-|[<-|[<-|[]]]]; reflexivity.
Defined.

Lemma decomposition_is_chain_witness :
  exists d w',
    Grid.decompose 2 Grid.coverage_set Grid.scipy_coverage_set [2; 0; 0]%Z []
    = Some (Ok d, w')
    /\ map (fun t => snd (fst t)) d = ["op1"; "op2"]%string
    /\ (forall i s1 o1 t1 s2 o2 t2,
           d !! i = Some (s1, o1, t1) -> d !! S i = Some (s2, o2, t2) -> t1 = s2)
    /\ (forall s o t, last d = Some (s, o, t) -> t = [2; 0; 0]%Z).
Proof.
  eexists _, _. split; [vm_compute; reflexivity|]. split; [reflexivity|].
  eapply (decomposition_is_chain Z 0%Z Z.add Z.mul _ Grid.manual_get_random_vertex
            Grid.polyhedron_has_element 2 Grid.coverage_set Grid.scipy_coverage_set
            [2; 0; 0]%Z []).
  vm_compute. reflexivity.
Defined.


End PathFacts.

(** * The algebra of volumes, regions and polytopes *)
Module PolytopeAlgebra.
Import Polytopes PolytopeFacts.

(** ** Arithmetic and order of volumes *)

Lemma Qeq_bool_refl' (x : Q) : Qeq_bool x x = true.
Proof. apply Qeq_bool_iff. reflexivity. Qed.

(** X1: [+] on volumes is commutative and associative up to [==], and the
    dimension of a sum is the larger of the two dimensions. *)
Theorem PolytopeVolume_add_comm_assoc (a b c : PolytopeVolume) :
  PolytopeVolume_eqb (PolytopeVolume_add a b) (PolytopeVolume_add b a) = true
  /\ PolytopeVolume_eqb (PolytopeVolume_add (PolytopeVolume_add a b) c)
                        (PolytopeVolume_add a (PolytopeVolume_add b c)) = true
  /\ dimension (PolytopeVolume_add a b) = Z.max (dimension a) (dimension b).
Proof.
  unfold PolytopeVolume_add, PolytopeVolume_eqb.
  destruct a as [da va], b as [db vb], c as [dc vc]. cbn.
  assert (Hfin : forall (d1 d2 : Z) (v1 v2 : Q),
             d1 = d2 -> (v1 == v2)%Q -> (d1 =? d2)%Z && Qeq_bool v1 v2 = true).
  { intros d1 d2 v1 v2 -> Hv. rewrite Z.eqb_refl. now apply Qeq_bool_iff. }
  repeat split.
  - destruct (Z.ltb_spec db da), (Z.ltb_spec da db); cbn;
      (apply Hfin; [lia | first [ring | exfalso; lia]]).
  - repeat (match goal with
            | |- context [(?x <? ?y)%Z] =>
              is_var x; is_var y; destruct (Z.ltb_spec x y); cbn
            end);
      (apply Hfin; [lia | first [ring | exfalso; lia]]).
  - destruct (Z.ltb_spec db da), (Z.ltb_spec da db); cbn; lia.
Qed.

(** X2: subtracting [b] from [a + b] never raises; the difference is [==]
    to [a] when the dimension of [b] is at most that of [a], and is the zero
    volume at the dimension of [b] otherwise. *)
Theorem PolytopeVolume_add_sub (a b : PolytopeVolume) :
  exists r,
    PolytopeVolume_sub (PolytopeVolume_add a b) b = Ok r
    /\ ((dimension b <= dimension a)%Z -> PolytopeVolume_eqb r a = true)
    /\ ((dimension a < dimension b)%Z ->
        PolytopeVolume_eqb r (mkPolytopeVolume (dimension b) 0) = true).
Proof.
  unfold PolytopeVolume_add, PolytopeVolume_sub, PolytopeVolume_eqb.
  destruct a as [da va], b as [db vb]. cbn.
  destruct (Z.ltb_spec db da) as [H1|H1]; cbn.
  - rewrite (proj2 (Z.ltb_lt db da) H1). eexists. split; [reflexivity|]. cbn.
    split; intros; [|lia]. now rewrite Z.eqb_refl, Qeq_bool_refl'.
  - destruct (Z.ltb_spec da db) as [H2|H2]; cbn.
    + rewrite Z.ltb_irrefl, Z.eqb_refl. eexists. split; [reflexivity|]. cbn.
      split; intros; [lia|]. rewrite Z.eqb_refl. apply Qeq_bool_iff. ring.
    + assert (da = db) as -> by lia.
      rewrite Z.ltb_irrefl, Z.eqb_refl. eexists. split; [reflexivity|]. cbn.
      split; intros; [|lia]. rewrite Z.eqb_refl. apply Qeq_bool_iff. ring.
Qed.

Lemma PolytopeVolume_eqb_iff (a b : PolytopeVolume) :
  PolytopeVolume_eqb a b = true
  <-> dimension a = dimension b /\ (volume a == volume b)%Q.
Proof.
  unfold PolytopeVolume_eqb. rewrite andb_true_iff, Z.eqb_eq, Qeq_bool_iff.
  reflexivity.
Qed.

(** X3: the order of volumes is a strict weak order that goes with [==]:
    [<] is irreflexive and transitive, and of [a < b], [a == b], [b < a]
    exactly one holds. *)
Theorem PolytopeVolume_order (a b c : PolytopeVolume) :
  PolytopeVolume_ltb a a = false
  /\ (PolytopeVolume_ltb a b = true -> PolytopeVolume_ltb b c = true ->
      PolytopeVolume_ltb a c = true)
  /\ (PolytopeVolume_ltb a b = true \/ PolytopeVolume_eqb a b = true
      \/ PolytopeVolume_ltb b a = true)
  /\ (PolytopeVolume_ltb a b = true ->
      PolytopeVolume_eqb a b = false /\ PolytopeVolume_ltb b a = false)
  /\ (PolytopeVolume_eqb a b = true ->
      PolytopeVolume_ltb a b = false /\ PolytopeVolume_ltb b a = false).
Proof.
  assert (Hasym : forall x y, PolytopeVolume_ltb x y = true ->
                              PolytopeVolume_ltb y x = false).
  { intros x y H. now apply ltb_not_below. }
  assert (Heq : forall x y, PolytopeVolume_eqb x y = true ->
                            PolytopeVolume_ltb x y = false).
  { intros x y H. apply not_below_iff. apply PolytopeVolume_eqb_iff in H as [H1 H2].
    right. split; [exact H1|]. rewrite H2. apply Qle_refl. }
  split; [|split; [|split; [|split]]].
  - apply Heq. apply PolytopeVolume_eqb_iff. split; reflexivity.
  - rewrite !PolytopeVolume_ltb_iff.
    intros [H|[H1 H2]] [K|[K1 K2]]; try (left; lia).
    right. split; [lia|]. exact (Qlt_trans _ _ _ H2 K2).
  - destruct (PolytopeVolume_ltb a b) eqn:E1; [now left|].
    destruct (PolytopeVolume_ltb b a) eqn:E2; [now right; right|].
    right. left. apply not_below_iff in E1, E2. apply PolytopeVolume_eqb_iff.
    destruct E1 as [E1|[E1 F1]], E2 as [E2|[E2 F2]]; try lia.
    split; [exact E1|]. now apply Qle_antisym.
  - intros H. split; [|now apply Hasym].
    destruct (PolytopeVolume_eqb a b) eqn:E; [|reflexivity].
    apply Heq in E. congruence.
  - intros H. split; [now apply Heq|].
    apply Heq. apply PolytopeVolume_eqb_iff in H as [H1 H2].
    apply PolytopeVolume_eqb_iff. split; [lia|now symmetry].
Qed.

Lemma PolytopeVolume_add_sub_witness :
  exists r,
    PolytopeVolume_sub
      (PolytopeVolume_add (mkPolytopeVolume 3 (1#2)) (mkPolytopeVolume 3 5))
      (mkPolytopeVolume 3 5) = Ok r
    /\ PolytopeVolume_eqb r (mkPolytopeVolume 3 (1#2)) = true.
Proof.
  destruct (PolytopeVolume_add_sub (mkPolytopeVolume 3 (1#2)) (mkPolytopeVolume 3 5))
    as (r & H & H1 & _).
  exists r. split; [exact H|]. apply H1. simpl. lia.
Defined.

Lemma PolytopeVolume_order_witness :
  PolytopeVolume_ltb (mkPolytopeVolume 1 5) (mkPolytopeVolume 2 1) = true.
Proof.
  apply (proj1 (proj2 (PolytopeVolume_order (mkPolytopeVolume 1 5)
                         (mkPolytopeVolume 2 0) (mkPolytopeVolume 2 1))));
    reflexivity.
Defined.

(** ** Intersection and union *)

(** X4: [ConvexPolytope.intersect] is associative and the region without
    constraints is its unit on both sides. *)
Theorem ConvexPolytope_intersect_monoid (a b c : ConvexPolytope) :
  ConvexPolytope_intersect (ConvexPolytope_intersect a b) c
  = ConvexPolytope_intersect a (ConvexPolytope_intersect b c)
  /\ ConvexPolytope_intersect (mkConvexPolytope [] []) a = a
  /\ ConvexPolytope_intersect a (mkConvexPolytope [] []) = a.
Proof.
  unfold ConvexPolytope_intersect. destruct a, b, c. cbn.
  rewrite !app_nil_r, !app_assoc. repeat split.
Qed.

Lemma ConvexPolytope_intersect_assoc (a b c : ConvexPolytope) :
  ConvexPolytope_intersect (ConvexPolytope_intersect a b) c
  = ConvexPolytope_intersect a (ConvexPolytope_intersect b c).
Proof.
  unfold ConvexPolytope_intersect. cbn. now rewrite !app_assoc.
Qed.

(** X5: [Polytope.union] is associative, the polytope without components
    is its unit up to the memo cells, and the result does not depend on the
    memo cells of the operands. *)
Theorem Polytope_union_monoid (a b c : Polytope) :
  Polytope_union (Polytope_union a b) c = Polytope_union a (Polytope_union b c)
  /\ Polytope_union a (Polytope_init []) = clear_memoization a
  /\ Polytope_union (Polytope_init []) a = clear_memoization a
  /\ Polytope_union a b = Polytope_union (clear_memoization a) (clear_memoization b).
Proof.
  unfold Polytope_union, clear_memoization, clone_with_components. cbn.
  rewrite app_nil_r, app_assoc. repeat split.
Qed.

Lemma flat_map_map_app {A B : Type} (f : A -> A -> B) (l k1 k2 : list A) :
  flat_map (fun x => map (f x) (k1 ++ k2)) l
  ≡ₚ flat_map (fun x => map (f x) k1) l ++ flat_map (fun x => map (f x) k2) l.
Proof.
  induction l as [|x l IH]; cbn; [reflexivity|].
  rewrite IH, map_app, <- !app_assoc. apply Permutation_app_head.
  rewrite !app_assoc. apply Permutation_app_tail, Permutation_app_comm.
Qed.

Lemma flat_map_length_const {A B : Type} (f : A -> list B) (l : list A) (n : nat) :
  (forall x, length (f x) = n) -> length (flat_map f l) = length l * n.
Proof.
  intros H. induction l as [|x l IH]; cbn; [reflexivity|].
  rewrite length_app, H, IH. reflexivity.
Qed.

Lemma pairwise_intersect_map (x : ConvexPolytope) (lb lc : list ConvexPolytope) :
  flat_map (fun l => map (ConvexPolytope_intersect l) lc)
           (map (ConvexPolytope_intersect x) lb)
  = map (ConvexPolytope_intersect x)
        (flat_map (fun y => map (ConvexPolytope_intersect y) lc) lb).
Proof.
  induction lb as [|y lb IH]; cbn; [reflexivity|].
  rewrite map_app, IH, map_map. f_equal.
  apply map_ext. intros z. apply ConvexPolytope_intersect_assoc.
Qed.

Lemma pairwise_intersect_assoc (la lb lc : list ConvexPolytope) :
  flat_map (fun l => map (ConvexPolytope_intersect l) lc)
           (flat_map (fun x => map (ConvexPolytope_intersect x) lb) la)
  = flat_map (fun x => map (ConvexPolytope_intersect x)
                           (flat_map (fun y => map (ConvexPolytope_intersect y) lc) lb))
             la.
Proof.
  induction la as [|x la IH]; cbn; [reflexivity|].
  now rewrite flat_map_app, IH, pairwise_intersect_map.
Qed.

(** X6: [Polytope.intersect] pairs every component of the left operand
    with every component of the right one; it distributes over [union] on
    the left as it stands and on the right up to the order of the
    components, it is associative, and with a polytope without components
    on either side the result has no components. *)
Theorem Polytope_intersect_algebra (a b c : Polytope) :
  length (convex_subpolytopes (Polytope_intersect a b))
  = length (convex_subpolytopes a) * length (convex_subpolytopes b)
  /\ Polytope_intersect (Polytope_union a b) c
     = Polytope_union (Polytope_intersect a c) (Polytope_intersect b c)
  /\ convex_subpolytopes (Polytope_intersect a (Polytope_union b c))
     ≡ₚ convex_subpolytopes
          (Polytope_union (Polytope_intersect a b) (Polytope_intersect a c))
  /\ Polytope_intersect (Polytope_intersect a b) c
     = Polytope_intersect a (Polytope_intersect b c)
  /\ convex_subpolytopes (Polytope_intersect a (Polytope_init [])) = []
  /\ convex_subpolytopes (Polytope_intersect (Polytope_init []) a) = [].
Proof.
  unfold Polytope_intersect, Polytope_union, clear_memoization,
    clone_with_components. cbn.
  split; [|split; [|split; [|split; [|split]]]].
  - apply flat_map_length_const. intros x. apply length_map.
  - now rewrite flat_map_app.
  - apply flat_map_map_app.
  - f_equal. apply pairwise_intersect_assoc.
  - induction (convex_subpolytopes a); cbn; auto.
  - reflexivity.
Qed.

End PolytopeAlgebra.

(** * The volume computation and the exceptions of the polytope operations *)
Module VolumeFacts.
Import Polytopes PolytopeFacts.

#[local] Arguments compute_volume : simpl never.

(** ** Bit masks *)

Lemma mask_bit_test (m : N) (i : nat) :
  negb (N.eqb 0 (N.land m (N.shiftl 1 (N.of_nat i)))) = N.testbit m (N.of_nat i).
Proof.
  rewrite N.shiftl_1_l.
  destruct (N.testbit m (N.of_nat i)) eqn:E.
  - apply negb_true_iff, N.eqb_neq. intros H.
    assert (T : N.testbit (N.land m (2 ^ N.of_nat i)) (N.of_nat i) = true).
    { now rewrite N.land_spec, E, N.pow2_bits_true. }
    rewrite <- H in T. now rewrite N.bits_0 in T.
  - apply negb_false_iff, N.eqb_eq. symmetry. apply N.bits_inj. intros j.
    rewrite N.bits_0, N.land_spec, N.pow2_bits_eqb.
    destruct (N.eqb_spec (N.of_nat i) j) as [<-|]; [now rewrite E|apply andb_false_r].
Qed.

Lemma subset_intersection_offset (m : N) (off : nat) (cs : list ConvexPolytope)
    (acc : ConvexPolytope) :
  let selected (field : ConvexPolytope -> list (list Q)) :=
    concat (imap (fun i c => if N.testbit m (N.of_nat (off + i))
                             then field c else []) cs) in
  fold_left
    (fun intersection '((index, convex_subpolytope) : nat * ConvexPolytope) =>
       if negb (N.eqb 0 (N.land m (N.shiftl 1 (N.of_nat index))))
       then ConvexPolytope_intersect intersection convex_subpolytope
       else intersection)
    (imap (fun i => pair (off + i)) cs) acc
  = mkConvexPolytope (inequalities acc ++ selected inequalities)
                     (equalities acc ++ selected equalities).
Proof.
  intros selected. subst selected. revert off acc.
  induction cs as [|c cs IH]; intros off acc.
  - cbn. rewrite !app_nil_r. now destruct acc.
  - rewrite !imap_cons. cbn [fold_left concat]. cbv beta iota.
    rewrite mask_bit_test.
    rewrite (imap_ext _ (fun i => pair (S off + i))) by (intros; cbn; f_equal; lia).
    rewrite IH.
    rewrite !(imap_ext (_ ∘ S)
                (fun i c0 => if N.testbit m (N.of_nat (S off + i)) then _ c0 else []))
      by (intros; cbn; now replace (off + S i) with (S (off + i)) by lia).
    destruct (N.testbit m (N.of_nat (off + 0))); cbn; now rewrite <- ?app_assoc.
Qed.

(** X7: the intersection that [Polytope.volume] forms for a bit mask has
    the constraints of exactly the components whose bit is set, in the
    order of the components. *)
Theorem subset_intersection_constraints (cs : list ConvexPolytope) (m : N) :
  inequalities (subset_intersection cs m)
  = concat (imap (fun i c => if N.testbit m (N.of_nat i) then inequalities c else [])
                 cs)
  /\ equalities (subset_intersection cs m)
     = concat (imap (fun i c => if N.testbit m (N.of_nat i) then equalities c else [])
                    cs).
Proof.
  unfold subset_intersection.
  change (imap pair cs) with (imap (fun i => pair (0 + i)) cs).
  rewrite (subset_intersection_offset m 0 cs (mkConvexPolytope [] [])).
  split; reflexivity.
Qed.

(** ** What the polytope operations can raise *)

#[local] Arguments N.eqb : simpl never.
#[local] Arguments N.land : simpl never.
#[local] Arguments N.lxor : simpl never.
#[local] Arguments N.pow : simpl never.
#[local] Arguments N.to_nat : simpl never.
#[local] Arguments Nat.pow : simpl never.

Lemma bit_iteration_bound (n k : nat) (m : N) :
  In m (bit_iteration n k) -> N.to_nat m < 2 ^ n.
Proof.
  unfold bit_iteration. intros H.
  apply list_elem_of_In, list_elem_of_filter in H as [_ H].
  apply list_elem_of_In, in_map_iff in H as (i & <- & Hi).
  apply in_seq in Hi. rewrite Nat2N.id. lia.
Qed.

Lemma clear_bit_le (b : N) (i : nat) :
  N.eqb 0 (N.land (2 ^ N.of_nat i) b) = false ->
  (N.lxor b (2 ^ N.of_nat i) <= b)%N.
Proof.
  intros H.
  assert (T : N.testbit b (N.of_nat i) = true).
  { rewrite <- mask_bit_test, N.shiftl_1_l, N.land_comm. now rewrite H. }
  replace (N.lxor b (2 ^ N.of_nat i)) with (N.ldiff b (2 ^ N.of_nat i));
    [apply N.ldiff_le_l|].
  apply N.bits_inj. intros j.
  rewrite N.ldiff_spec, N.lxor_spec, N.pow2_bits_eqb.
  destruct (N.eqb_spec (N.of_nat i) j) as [<-|]; [now rewrite T|].
  now rewrite andb_true_r, xorb_false_r.
Qed.

Abbreviation only_ValueError r :=
  (forall e, r = Raise e -> e = ValueError).

Ltac raise_from H :=
  intros;
  match goal with
  | E : Raise _ = Raise _ |- _ => injection E as <-; apply H; reflexivity
  end.

Lemma for_each_only_ValueError {A S : Type} (P : S -> Prop) (Q : A -> Prop)
    (body : S -> A -> result S) (xs : list A) (st : S) :
  (forall st x, P st -> Q x ->
     only_ValueError (body st x) /\ forall st', body st x = Ok st' -> P st') ->
  P st -> (forall x, In x xs -> Q x) ->
  only_ValueError (for_each body xs st)
  /\ forall st', for_each body xs st = Ok st' -> P st'.
Proof.
  intros Hbody. revert st. induction xs as [|x xs IH]; intros st HP HQ; cbn.
  - split; [discriminate|]. intros st' H. now injection H as <-.
  - destruct (Hbody st x HP (HQ x (or_introl eq_refl))) as [He Hok].
    destruct (body st x) as [st1|e1]; cbn.
    + apply IH; [now apply Hok|]. intros y Hy. apply HQ. now right.
    + split; [|discriminate]. raise_from He.
Qed.

Lemma balance_only_ValueError (d : nat) (vol v : PolytopeVolume) :
  only_ValueError (balance d vol v).
Proof.
  unfold balance, PolytopeVolume_sub. intros e.
  destruct (Nat.odd d); [|discriminate].
  destruct (_ <? _)%Z; [discriminate|]. destruct (_ =? _)%Z; [discriminate|].
  intros H. now injection H as <-.
Qed.

Section WithBackend.

Variable backend_volume : ConvexPolytope -> option PolytopeVolume.
Variable backend_vertices : ConvexPolytope -> option (list vertex).
Variable backend_reduce : ConvexPolytope -> option ConvexPolytope.

Abbreviation compute_volume := (compute_volume backend_volume).
Abbreviation compute_vertices := (compute_vertices backend_vertices).
Abbreviation Polytope_volume := (Polytope_volume backend_volume).
Abbreviation Polytope_vertices := (Polytope_vertices backend_vertices).
Abbreviation Polytope_contains := (Polytope_contains backend_volume backend_vertices).
Abbreviation trim_polytope_set := (trim_polytope_set backend_volume backend_vertices).
Abbreviation scan_from_last := (scan_from_last backend_volume backend_vertices).
Abbreviation Polytope_reduce :=
  (Polytope_reduce backend_volume backend_vertices backend_reduce).

Abbreviation table_of_size size :=
  (fun st : volume_state => length (previous_volumes st) = size).

Lemma parent_scan_in_range (d : nat) (bitstring : N) (v : PolytopeVolume)
    (parents : list nat) (st : volume_state) (size : nat) :
  N.to_nat bitstring < size -> table_of_size size st ->
  only_ValueError (parent_scan d bitstring v parents st)
  /\ forall st', parent_scan d bitstring v parents st = Ok st' ->
                 table_of_size size st'.
Proof.
  intros Hb. induction parents as [|i parents IH]; intros Hst; cbn.
  - split; [discriminate|]. intros st' H. now injection H as <-.
  - destruct (N.eqb 0 (N.land (2 ^ N.of_nat i) bitstring)) eqn:Hbit; [now apply IH|].
    destruct (negb _); [|now apply IH].
    pose proof (clear_bit_le bitstring i Hbit) as Hle.
    unfold getitem.
    destruct (lookup_lt_is_Some_2 (previous_volumes st)
                (N.to_nat (N.lxor bitstring (2 ^ N.of_nat i)))) as [entry ->];
      [cbn in Hst; lia|]. cbn.
    destruct (volume_eq_entry v entry); [|now apply IH].
    pose proof (balance_only_ValueError d (running_volume st) v) as Hbal.
    destruct (balance d (running_volume st) v) as [vol|e]; cbn.
    + split; [discriminate|]. intros st' H. injection H as <-. exact Hst.
    + split; [|discriminate]. raise_from Hbal.
Qed.

Lemma visit_subset_in_range (cs : list ConvexPolytope) (top : Z) (d : nat)
    (st : volume_state) (bitstring : N) (size : nat) :
  table_of_size size st -> N.to_nat bitstring < size ->
  only_ValueError (visit_subset backend_volume cs top d st bitstring)
  /\ forall st', visit_subset backend_volume cs top d st bitstring = Ok st' ->
                 table_of_size size st'.
Proof.
  intros Hst Hb. unfold visit_subset.
  destruct (any_mask_within _ _).
  - split; [discriminate|]. intros st' H. now injection H as <-.
  - unfold setitem. cbn in Hst. rewrite bool_decide_eq_true_2 by lia. cbn.
    apply parent_scan_in_range; [exact Hb|]. cbn. now rewrite length_insert.
Qed.

Lemma sum_subset_in_range (d : nat) (st : volume_state) (bitstring : N) (size : nat) :
  table_of_size size st -> N.to_nat bitstring < size ->
  only_ValueError (sum_subset d st bitstring)
  /\ forall st', sum_subset d st bitstring = Ok st' -> table_of_size size st'.
Proof.
  intros Hst Hb. unfold sum_subset, getitem.
  destruct (lookup_lt_is_Some_2 (previous_volumes st) (N.to_nat bitstring))
    as [entry ->]; [cbn in Hst; lia|]. cbn.
  destruct entry as [v|].
  - destruct (any_mask_within' _ _).
    + split; [discriminate|]. intros st' H. now injection H as <-.
    + pose proof (balance_only_ValueError d (running_volume st) v) as Hbal.
      destruct (balance d (running_volume st) v) as [vol|e]; cbn.
      * split; [discriminate|]. intros st' H. injection H as <-. exact Hst.
      * split; [|discriminate]. raise_from Hbal.
  - split; [discriminate|]. intros st' H. now injection H as <-.
Qed.

Lemma compute_volume_only_ValueError (cs : list ConvexPolytope) :
  only_ValueError (compute_volume cs).
Proof.
  unfold Polytopes.compute_volume.
  set (top := fold_left _ cs 0%Z).
  destruct (for_each_only_ValueError (table_of_size (2 ^ length cs)) (fun _ => True)
              (volume_level backend_volume cs top) (seq 0 (length cs))
              (mkVolumeState (mkPolytopeVolume 0 0) []
                             (replicate (2 ^ length cs) None))) as [He _].
  - intros st d Hst _. unfold volume_level.
    destruct (for_each_only_ValueError (table_of_size (2 ^ length cs))
                (fun m => N.to_nat m < 2 ^ length cs)
                (visit_subset backend_volume cs top d)
                (bit_iteration (length cs) (1 + d)) st) as [He1 Hok1].
    + intros st0 m H0 Hm. now apply visit_subset_in_range.
    + exact Hst.
    + intros m. apply bit_iteration_bound.
    + destruct (for_each _ _ st) as [st1|e1]; cbn.
      * apply (for_each_only_ValueError (table_of_size (2 ^ length cs))
                 (fun m => N.to_nat m < 2 ^ length cs)).
        -- intros st0 m H0 Hm. now apply sum_subset_in_range.
        -- now apply Hok1.
        -- intros m. apply bit_iteration_bound.
      * split; [|discriminate]. raise_from He1.
  - cbn. apply length_replicate.
  - auto.
  - destruct (for_each _ _ _) as [st|e0]; cbn; [discriminate|]. raise_from He.
Qed.

Lemma Polytope_volume_only_ValueError (p : Polytope) :
  only_ValueError (Polytope_volume p).
Proof.
  unfold Polytopes.Polytope_volume, memoized_property. intros e.
  destruct (memo_volume p); [discriminate|].
  pose proof (compute_volume_only_ValueError (convex_subpolytopes p)) as H.
  destruct (compute_volume (convex_subpolytopes p)); cbn; [discriminate|].
  raise_from H.
Qed.

Lemma Polytope_contains_only_ValueError (self other : Polytope) :
  only_ValueError (Polytope_contains self other).
Proof.
  destruct (Polytope_vertices_Ok backend_vertices other) as (vs & o1 & Hv & _).
  rewrite (Polytope_contains_unfold _ _ self other o1 vs Hv). intros e.
  destruct (negb _); [discriminate|].
  pose proof (Polytope_volume_only_ValueError o1) as H1.
  destruct (Polytope_volume o1) as [[vl o2]|e1]; cbn; [|raise_from H1].
  pose proof (compute_volume_only_ValueError
                (convex_subpolytopes (Polytope_intersect other self))) as H2.
  destruct (compute_volume _); cbn; [discriminate|]. raise_from H2.
Qed.

Lemma comprehension_only_ValueError {A B : Type} (f : A -> result B) (l : list A) :
  (forall x, In x l -> only_ValueError (f x)) ->
  only_ValueError (comprehension f l).
Proof.
  induction l as [|x l IH]; intros H e; cbn; [discriminate|].
  pose proof (H x (or_introl eq_refl)) as Hx.
  destruct (f x); cbn; [|raise_from Hx].
  assert (IH' : only_ValueError (comprehension f l))
    by (apply IH; intros y Hy; apply H; now right).
  destruct (comprehension f l); cbn; [discriminate|]. raise_from IH'.
Qed.

Lemma scan_from_last_only_ValueError (context : Polytope) (fr kept : list Polytope) :
  only_ValueError (scan_from_last context fr kept).
Proof.
  revert kept. induction fr as [|c fr IH]; intros kept e; cbn; [discriminate|].
  pose proof (Polytope_contains_only_ValueError
                (fold_left Polytope_union (rev fr ++ kept) context) c) as H.
  destruct (Polytope_contains _ c) as [[[] c']|e1]; cbn; [apply IH|apply IH|].
  raise_from H.
Qed.

Lemma trim_polytope_set_only_ValueError trimmable fixed :
  only_ValueError (trim_polytope_set trimmable fixed).
Proof.
  rewrite trim_polytope_set_as_scan. intros e.
  pose proof (comprehension_only_ValueError Polytope_volume trimmable
                (fun x _ => Polytope_volume_only_ValueError x)) as H.
  destruct (comprehension _ _) as [keyed|e1]; cbn; [|raise_from H].
  apply scan_from_last_only_ValueError.
Qed.

End WithBackend.

End VolumeFacts.

(** * Trimming and reduction *)
Module ReduceFacts.
Import Polytopes PolytopeFacts VolumeFacts.

#[local] Arguments compute_volume : simpl never.
#[local] Arguments compute_vertices : simpl never.
#[local] Arguments Polytope_intersect : simpl never.

Lemma submseteq_concat {A : Type} (l1 l2 : list (list A)) :
  l1 ⊆+ l2 -> concat l1 ⊆+ concat l2.
Proof.
  intros H. apply submseteq_sublist_r in H as (l & Hp & Hs).
  apply submseteq_sublist_r. exists (concat l).
  split; [now apply Permutation_concat|now apply sublist_concat].
Qed.

Section WithBackend.

Variable backend_volume : ConvexPolytope -> option PolytopeVolume.
Variable backend_vertices : ConvexPolytope -> option (list vertex).
Variable backend_reduce : ConvexPolytope -> option ConvexPolytope.

Abbreviation compute_volume := (compute_volume backend_volume).
Abbreviation compute_vertices := (compute_vertices backend_vertices).
Abbreviation Polytope_volume := (Polytope_volume backend_volume).
Abbreviation Polytope_vertices := (Polytope_vertices backend_vertices).
Abbreviation Polytope_contains := (Polytope_contains backend_volume backend_vertices).
Abbreviation trim_polytope_set := (trim_polytope_set backend_volume backend_vertices).
Abbreviation scan_from_last := (scan_from_last backend_volume backend_vertices).
Abbreviation Polytope_reduce :=
  (Polytope_reduce backend_volume backend_vertices backend_reduce).
Abbreviation ConvexPolytope_contains := (ConvexPolytope_contains backend_vertices).
Abbreviation ConvexPolytope_volume := (ConvexPolytope_volume backend_volume).
Abbreviation ConvexPolytope_vertices := (ConvexPolytope_vertices backend_vertices).

(** ** Survivors of a trim *)

Lemma trim_polytope_set_components trimmable fixed out :
  trim_polytope_set trimmable fixed = Ok out ->
  map convex_subpolytopes out ⊆+ map convex_subpolytopes trimmable
  /\ Forall (fun p => memo_volume p <> None /\ memo_vertices p <> None) out.
Proof.
  rewrite trim_polytope_set_as_scan. intros H.
  apply bind_Ok in H as (keyed & Hk & H).
  apply comprehension_Forall2 in Hk.
  destruct (keyed_volume_cached _ _ _ Hk) as [Hkeys Hcs].
  assert (Hsorted : Forall (fun p => memo_volume p <> None)
                           (rev (map snd (sorted_descending keyed)))).
  { apply Forall_rev. rewrite Forall_forall. intros p Hp.
    apply list_elem_of_In, in_map_iff in Hp as (kx & <- & Hkx).
    apply list_elem_of_In in Hkx. rewrite sorted_descending_Permutation in Hkx.
    rewrite Forall_forall in Hkeys. destruct (Hkeys _ Hkx) as [-> _]. discriminate. }
  split.
  - apply scan_from_last_survivors in H as (s & -> & Hs).
    rewrite app_nil_r, rev_involutive in *. rewrite <- Hcs.
    etransitivity; [apply sublist_submseteq, Hs|].
    apply Permutation_submseteq. do 2 apply Permutation_map.
    apply sorted_descending_Permutation.
  - revert H Hsorted. generalize (rev (map snd (sorted_descending keyed))).
    generalize (fixed_union fixed). intros context fr.
    assert (G : forall kept,
               Forall (fun p => memo_volume p <> None /\ memo_vertices p <> None) kept ->
               scan_from_last context fr kept = Ok out ->
               Forall (fun p => memo_volume p <> None) fr ->
               Forall (fun p => memo_volume p <> None /\ memo_vertices p <> None) out).
    { induction fr as [|c fr IH]; intros kept Hkept H Hfr.
      - now injection H as <-.
      - cbn [Polytopes.scan_from_last] in H.
        apply bind_Ok in H as ([b c'] & Hc & H).
        apply Forall_cons in Hfr as [Hc0 Hfr].
        apply Polytope_contains_inv in Hc as (_ & Hver & Hvol & _).
        destruct b; [now apply (IH kept)|].
        apply (IH (c' :: kept)); auto. constructor; [|exact Hkept].
        split; [|exact Hver].
        destruct (memo_volume c) as [v|] eqn:E; [|contradiction].
        rewrite (Hvol v eq_refl). discriminate. }
    intros H Hfr. now apply (G []).
Qed.

(** ** [Polytope.reduce] *)

Lemma reduce_candidates (cs : list ConvexPolytope) :
  map convex_subpolytopes
      (omap (fun c => match backend_reduce c with
                      | Some reduced => Some (Polytope_init [reduced])
                      | None => None
                      end) cs)
  = map (fun r => [r]) (omap backend_reduce cs).
Proof.
  induction cs as [|c cs IH]; cbn; [reflexivity|].
  destruct (backend_reduce c); cbn; now rewrite ?IH.
Qed.

Lemma comprehension_first_component (l : list Polytope) :
  Forall (fun p => exists x, convex_subpolytopes p = [x]) l ->
  comprehension (fun p => getitem (convex_subpolytopes p) 0) l
  = Ok (concat (map convex_subpolytopes l)).
Proof.
  induction 1 as [|p l [x Hx] _ IH]; cbn; [reflexivity|].
  rewrite Hx. cbn. rewrite IH. reflexivity.
Qed.

Lemma concat_singletons {A : Type} (l : list A) :
  concat (map (fun r => [r]) l) = l.
Proof. induction l; cbn; congruence. Qed.

Lemma Polytope_reduce_unfold (self : Polytope) :
  Polytope_reduce self
  = (out ← trim_polytope_set
             (omap (fun c => match backend_reduce c with
                             | Some reduced => Some (Polytope_init [reduced])
                             | None => None
                             end) (convex_subpolytopes self)) None;
     Ok (clone_with_components self (concat (map convex_subpolytopes out)))).
Proof.
  unfold Polytopes.Polytope_reduce.
  destruct (trim_polytope_set _ None) as [out|e] eqn:Ht; cbn; [|reflexivity].
  rewrite comprehension_first_component; [reflexivity|].
  apply trim_polytope_set_components in Ht as [Hsub _].
  rewrite reduce_candidates in Hsub.
  rewrite Forall_forall. intros p Hp.
  assert (Hin : convex_subpolytopes p ∈ map convex_subpolytopes out).
  { apply list_elem_of_In, in_map. now apply list_elem_of_In. }
  apply (fun H => elem_of_submseteq _ _ _ H Hsub) in Hin.
  apply list_elem_of_In, in_map_iff in Hin as (x & Hx & _). eauto.
Qed.

(** X8: the components of a reduced polytope are reductions of components
    of the original, each used at most once; the components whose reduction
    raises [NoFeasibleSolutions] contribute none; the clone has the memo
    cells of the original; and [reduce] either returns or raises
    [ValueError]. *)
Theorem Polytope_reduce_components (self : Polytope) :
  (forall r, Polytope_reduce self = Ok r ->
     convex_subpolytopes r ⊆+ omap backend_reduce (convex_subpolytopes self)
     /\ memo_volume r = memo_volume self
     /\ memo_vertices r = memo_vertices self)
  /\ ((exists r, Polytope_reduce self = Ok r)
      \/ Polytope_reduce self = Raise ValueError).
Proof.
  rewrite Polytope_reduce_unfold. split.
  - intros r H. apply bind_Ok in H as (out & Ht & H). injection H as <-. cbn.
    split; [|split; reflexivity].
    apply trim_polytope_set_components in Ht as [Hsub _].
    rewrite reduce_candidates in Hsub. apply submseteq_concat in Hsub.
    now rewrite concat_singletons in Hsub.
  - pose proof (trim_polytope_set_only_ValueError backend_volume backend_vertices
                  (omap (fun c => match backend_reduce c with
                                  | Some reduced => Some (Polytope_init [reduced])
                                  | None => None
                                  end) (convex_subpolytopes self)) None) as H.
    destruct (trim_polytope_set _ None) as [out|e]; cbn; [eauto|].
    right. now rewrite (H e eq_refl).
Qed.

(** X9: [volume], [contains] and [trim_polytope_set] either return or
    raise [ValueError]: no index of the table of subset volumes and no
    index of the candidate list is ever out of range; a trim returns as
    many candidates as it was given or fewer, each with both memo cells
    filled. *)
Theorem polytope_operations_raise_ValueError_only :
  (forall p, (exists r, Polytope_volume p = Ok r)
             \/ Polytope_volume p = Raise ValueError)
  /\ (forall self other,
        (exists r, Polytope_contains self other = Ok r)
        \/ Polytope_contains self other = Raise ValueError)
  /\ (forall trimmable fixed,
        (exists out,
            trim_polytope_set trimmable fixed = Ok out
            /\ length out <= length trimmable
            /\ Forall (fun p => memo_volume p <> None /\ memo_vertices p <> None) out)
        \/ trim_polytope_set trimmable fixed = Raise ValueError).
Proof.
  split; [|split].
  - intros p. pose proof (Polytope_volume_only_ValueError backend_volume p) as H.
    destruct (Polytope_volume p) as [r|e]; [eauto|]. right. now rewrite (H e eq_refl).
  - intros self other.
    pose proof (Polytope_contains_only_ValueError backend_volume backend_vertices
                  self other) as H.
    destruct (Polytope_contains self other) as [r|e]; [eauto|].
    right. now rewrite (H e eq_refl).
  - intros trimmable fixed.
    pose proof (trim_polytope_set_only_ValueError backend_volume backend_vertices
                  trimmable fixed) as H.
    destruct (trim_polytope_set trimmable fixed) as [out|e] eqn:Ht;
      [|right; now rewrite (H e eq_refl)].
    left. exists out. split; [reflexivity|].
    apply trim_polytope_set_components in Ht as [Hsub Hmemo].
    split; [|exact Hmemo].
    apply submseteq_length in Hsub. now rewrite !length_map in Hsub.
Qed.

End WithBackend.

Lemma Polytope_reduce_components_witness :
  let self :=
    Polytope_init [Interval.between 0 1; Interval.between 1 0; Interval.between 0 2] in
  exists r,
    Polytope_reduce Interval.volume Interval.vertices Interval.reduce self = Ok r
    /\ convex_subpolytopes r = [Interval.between 0 2]
    /\ omap Interval.reduce (convex_subpolytopes self)
       = [Interval.between 0 1; Interval.between 0 2]
    /\ convex_subpolytopes r ⊆+ omap Interval.reduce (convex_subpolytopes self).
Proof.
  intros self. eexists. split; [vm_compute; reflexivity|].
  split; [reflexivity|]. split; [vm_compute; reflexivity|].
  refine (proj1 (proj1 (Polytope_reduce_components
                          Interval.volume Interval.vertices Interval.reduce self)
                       _ _)).
  vm_compute. reflexivity.
Defined.

End ReduceFacts.

(** * Polytopes of one component *)
Module SingleFacts.
Import Polytopes PolytopeFacts.

#[local] Arguments Z.max : simpl never.
#[local] Arguments Z.ltb : simpl never.
#[local] Arguments Z.eqb : simpl never.
#[local] Arguments Qplus : simpl never.
#[local] Arguments Qeq_bool : simpl never.

Section WithBackend.

Variable backend_volume : ConvexPolytope -> option PolytopeVolume.
Variable backend_vertices : ConvexPolytope -> option (list vertex).

Abbreviation compute_volume := (compute_volume backend_volume).
Abbreviation compute_vertices := (compute_vertices backend_vertices).
Abbreviation Polytope_volume := (Polytope_volume backend_volume).
Abbreviation Polytope_vertices := (Polytope_vertices backend_vertices).
Abbreviation Polytope_contains := (Polytope_contains backend_volume backend_vertices).
Abbreviation trim_polytope_set := (trim_polytope_set backend_volume backend_vertices).
Abbreviation scan_from_last := (scan_from_last backend_volume backend_vertices).
Abbreviation ConvexPolytope_contains := (ConvexPolytope_contains backend_vertices).
Abbreviation ConvexPolytope_volume := (ConvexPolytope_volume backend_volume).
Abbreviation ConvexPolytope_vertices := (ConvexPolytope_vertices backend_vertices).

(** ** Polytopes with one component *)

Lemma compute_volume_singleton (c : ConvexPolytope) :
  compute_volume [c]
  = Ok (if (dimension (ConvexPolytope_volume c) <? 0)%Z then mkPolytopeVolume 0 0
        else PolytopeVolume_add (mkPolytopeVolume 0 0) (ConvexPolytope_volume c)).
Proof.
  destruct c as [ineqs eqs].
  assert (Hb : bit_iteration 1 1 = [1%N]) by (vm_compute; reflexivity).
  unfold Polytopes.compute_volume, volume_level.
  cbn [length seq for_each]. change (1 + 0) with 1. rewrite Hb.
  unfold visit_subset, sum_subset, subset_intersection. cbn.
  change (N.to_nat 1) with 1.
  change (N.land 1 (N.shiftl 1 (N.of_nat 0))) with 1%N.
  change (N.land (2 ^ N.of_nat 0) 1) with 1%N.
  change (N.lxor 1 (2 ^ N.of_nat 0)) with 0%N.
  change (N.to_nat 0) with 0.
  cbn.
  change (ConvexPolytope_intersect (mkConvexPolytope [] [])
            (mkConvexPolytope ineqs eqs)) with (mkConvexPolytope ineqs eqs).
  set (v := ConvexPolytope_volume (mkConvexPolytope ineqs eqs)).
  unfold setitem. change (bool_decide (1 < length [@None PolytopeVolume; None])) with true.
  cbn.
  destruct (Z.ltb_spec (dimension v) (Z.max 0 (dimension v))) as [H|H];
    destruct (Z.ltb_spec (dimension v) 0) as [K|K]; try lia; cbn; reflexivity.
Qed.

(** X10: a polytope made by [make_convex_polytope] has, as its volume,
    a volume [==] to that of its one region as long as the backend gives a
    dimension that is not negative (the zero volume for an empty region),
    and, as its vertices, the one vertex list of that region; a missing
    list of equalities counts as an empty one. *)
Theorem make_convex_polytope_volume (ineqs : list (list Q))
    (eqs : option (list (list Q))) :
  let c := mkConvexPolytope ineqs (default [] eqs) in
  (0 <= dimension (ConvexPolytope_volume c))%Z ->
  exists v p1 p2,
    Polytope_volume (make_convex_polytope ineqs eqs) = Ok (v, p1)
    /\ PolytopeVolume_eqb v (ConvexPolytope_volume c) = true
    /\ Polytope_vertices p1 = Ok ([ConvexPolytope_vertices c], p2)
    /\ make_convex_polytope ineqs None = make_convex_polytope ineqs (Some []).
Proof.
  intros c Hdim. unfold make_convex_polytope. fold c.
  rewrite (Polytope_volume_fresh _ (Polytope_init [c]) eq_refl).
  cbn [convex_subpolytopes Polytope_init]. rewrite compute_volume_singleton.
  eexists _, _, _. split; [reflexivity|].
  split; [|split; [reflexivity|reflexivity]].
  destruct (Z.ltb_spec (dimension (ConvexPolytope_volume c)) 0) as [K|K]; [lia|].
  unfold PolytopeVolume_add, PolytopeVolume_eqb. cbn.
  destruct (Z.ltb_spec (dimension (ConvexPolytope_volume c)) 0); [lia|].
  destruct (Z.ltb_spec 0 (dimension (ConvexPolytope_volume c))) as [L|L]; cbn.
  - rewrite Z.eqb_refl. apply Qeq_bool_iff. reflexivity.
  - replace (dimension (ConvexPolytope_volume c)) with 0%Z by lia.
    apply Qeq_bool_iff. ring.
Qed.

Lemma Polytope_intersect_nil_r (p : Polytope) :
  convex_subpolytopes (Polytope_intersect p (Polytope_init [])) = [].
Proof.
  unfold Polytope_intersect. cbn. induction (convex_subpolytopes p); cbn; auto.
Qed.

Lemma forallb_pointwise {A : Type} (f g : A -> bool) (l : list A) :
  (forall x, f x = g x) -> forallb f l = forallb g l.
Proof. intros H. induction l as [|x l IH]; cbn; [reflexivity|]. now rewrite H, IH. Qed.

Lemma forallb_false_length {A : Type} (l : list A) :
  forallb (fun _ => false) l = Nat.eqb (length l) 0.
Proof. now destruct l. Qed.

(** X11: a single candidate trimmed without context is dropped exactly
    when none of its vertex lists holds a vertex and its volume is [==] to
    the zero volume; otherwise it comes back, its memo cells filled. *)
Theorem trim_polytope_set_lone_candidate (c c1 c2 : Polytope)
    (v : PolytopeVolume) (vs : list (list vertex)) :
  Polytope_volume c = Ok (v, c1) ->
  Polytope_vertices c1 = Ok (vs, c2) ->
  trim_polytope_set [c] None
  = Ok (if forallb (fun sub => Nat.eqb (length sub) 0) vs
           && PolytopeVolume_eqb (mkPolytopeVolume 0 0) v
        then [] else [c2]).
Proof.
  intros Hvol Hver. rewrite trim_polytope_set_as_scan.
  cbn [comprehension]. rewrite Hvol. cbn.
  rewrite (Polytope_contains_unfold _ _ _ c1 c2 vs Hver).
  change (fold_left Polytope_union [] (Polytope_init [])) with (Polytope_init []).
  rewrite Polytope_intersect_nil_r.
  change (Polytopes.compute_vertices backend_vertices []) with (@nil (list vertex)).
  assert (Hph : vertex_phase vs [] = forallb (fun sub => Nat.eqb (length sub) 0) vs).
  { unfold vertex_phase. apply forallb_pointwise. intros sub. apply forallb_false_length. }
  rewrite Hph.
  destruct (Polytope_volume_inv _ _ _ _ Hvol) as (Hm & _).
  destruct (Polytope_vertices_Ok backend_vertices c1)
    as (vs' & c2' & Hver' & _ & Hmv & _).
  rewrite Hver in Hver'. injection Hver' as <- <-.
  rewrite Hm in Hmv.
  rewrite (Polytope_volume_memo _ c2 v Hmv). cbn.
  destruct (forallb _ vs); cbn; [|reflexivity].
  change (Polytopes.compute_volume backend_volume []) with (Ok (mkPolytopeVolume 0 0)).
  cbn. destruct (PolytopeVolume_eqb _ v); reflexivity.
Qed.

(** X12: [ConvexPolytope.contains] answers true for a region without
    vertices, an empty one in particular; for polytopes of one component
    each, [Polytope.contains] answers false, without reading a volume,
    whenever [ConvexPolytope.contains] does, so that it can only answer
    true where [ConvexPolytope.contains] does. *)
Theorem ConvexPolytope_contains_single (self other : ConvexPolytope) :
  (ConvexPolytope_vertices other = [] -> ConvexPolytope_contains self other = true)
  /\ (ConvexPolytope_contains self other = false ->
      exists other',
        Polytope_contains (Polytope_init [self]) (Polytope_init [other])
        = Ok (false, other')
        /\ memo_volume other' = None)
  /\ (forall other',
        Polytope_contains (Polytope_init [self]) (Polytope_init [other])
        = Ok (true, other') ->
        ConvexPolytope_contains self other = true).
Proof.
  assert (Hph : vertex_phase
                  (Polytopes.compute_vertices backend_vertices [other])
                  (Polytopes.compute_vertices backend_vertices
                     (convex_subpolytopes
                        (Polytope_intersect (Polytope_init [other])
                                            (Polytope_init [self]))))
                = ConvexPolytope_contains self other).
  { unfold vertex_phase, Polytopes.ConvexPolytope_contains. cbn.
    rewrite andb_true_r. apply forallb_pointwise. intros v. apply orb_false_r. }
  pose proof (Polytope_contains_unfold backend_volume backend_vertices
                (Polytope_init [self]) (Polytope_init [other]) _ _
                (Polytope_vertices_fresh backend_vertices (Polytope_init [other])
                                         eq_refl)) as E.
  cbn [convex_subpolytopes Polytope_init memo_volume] in E.
  rewrite Hph in E.
  split; [|split].
  - intros H. unfold Polytopes.ConvexPolytope_contains. now rewrite H.
  - intros H. rewrite H in E. cbn in E. eexists. split; [exact E|reflexivity].
  - intros o' H. destruct (ConvexPolytope_contains self other); [reflexivity|].
    rewrite E in H. discriminate H.
Qed.

End WithBackend.

Lemma make_convex_polytope_volume_witness :
  let ineqs := inequalities (Interval.between 0 2) in
  exists v p1 p2,
    Polytope_volume Interval.volume (make_convex_polytope ineqs None) = Ok (v, p1)
    /\ PolytopeVolume_eqb v
         (ConvexPolytope_volume Interval.volume (mkConvexPolytope ineqs [])) = true
    /\ Polytope_vertices Interval.vertices p1
       = Ok ([ConvexPolytope_vertices Interval.vertices (mkConvexPolytope ineqs [])],
             p2)
    /\ make_convex_polytope ineqs None = make_convex_polytope ineqs (Some []).
Proof.
  intros ineqs.
  apply (make_convex_polytope_volume Interval.volume Interval.vertices ineqs None).
  vm_compute. discriminate.
Defined.

Lemma trim_polytope_set_lone_candidate_witness :
  exists c2,
    trim_polytope_set Interval.volume Interval.vertices
      [Polytope_init [Interval.between 0 1]] None = Ok [c2]
    /\ memo_volume c2 = Some (mkPolytopeVolume 1 1).
Proof.
  eexists. split.
  - exact (trim_polytope_set_lone_candidate Interval.volume Interval.vertices
             (Polytope_init [Interval.between 0 1]) _ _ _ _ eq_refl eq_refl).
  - vm_compute. reflexivity.
Defined.

Lemma ConvexPolytope_contains_single_witness :
  exists other',
    Polytope_contains Interval.volume Interval.vertices
      (Polytope_init [Interval.between 0 (1#2)])
      (Polytope_init [Interval.between (1#2) (3#2)]) = Ok (false, other')
    /\ memo_volume other' = None.
Proof.
  apply (proj1 (proj2 (ConvexPolytope_contains_single
                         Interval.volume Interval.vertices
                         (Interval.between 0 (1#2)) (Interval.between (1#2) (3#2))))).
  vm_compute. reflexivity.
Defined.

End SingleFacts.

(** * Inclusion and exclusion on two components *)
Module VolumePairFacts.
Import Polytopes PolytopeFacts.

Section WithBackend.

Variable backend_volume : ConvexPolytope -> option PolytopeVolume.

Abbreviation ConvexPolytope_volume := (ConvexPolytope_volume backend_volume).
Abbreviation compute_volume := (compute_volume backend_volume).
Abbreviation Polytope_volume := (Polytope_volume backend_volume).

Ltac evaluate :=
  cbv -[Polytopes.ConvexPolytope_volume subset_intersection ConvexPolytope_intersect
        PolytopeVolume_eqb PolytopeVolume_add PolytopeVolume_sub
        Z.ltb Z.max Z.eqb dimension volume Qplus Qminus Qopp Qmult Qeq_bool].

Lemma subset_intersection_pair (A B : ConvexPolytope) :
  subset_intersection [A; B] 1 = A
  /\ subset_intersection [A; B] 2 = B
  /\ subset_intersection [A; B] 3 = ConvexPolytope_intersect A B.
Proof. destruct A, B. repeat split. Qed.

Lemma compute_volume_pair_overlap (A B : ConvexPolytope) (n : Z) :
  (0 <= n)%Z ->
  dimension (ConvexPolytope_volume A) = n ->
  dimension (ConvexPolytope_volume B) = n ->
  (dimension (ConvexPolytope_volume (ConvexPolytope_intersect A B)) <= n)%Z ->
  exists v,
    compute_volume [A; B] = Ok v
    /\ PolytopeVolume_eqb v
         (mkPolytopeVolume n
            (volume (ConvexPolytope_volume A) + volume (ConvexPolytope_volume B)
             - (if (dimension (ConvexPolytope_volume (ConvexPolytope_intersect A B))
                    =? n)%Z
                then volume (ConvexPolytope_volume (ConvexPolytope_intersect A B))
                else 0))%Q) = true.
Proof.
  destruct (subset_intersection_pair A B) as (E1 & E2 & E3).
  intros Hn Ha Hb Hc.
  evaluate. rewrite ?E1, ?E2, ?E3.
  revert Ha Hb Hc.
  generalize (ConvexPolytope_volume A) (ConvexPolytope_volume B)
             (ConvexPolytope_volume (ConvexPolytope_intersect A B)).
  clear E1 E2 E3. intros a b c Ha Hb Hc.
  replace ((0 `max` dimension a) `max` dimension b)%Z with n by lia.
  assert (Han : (dimension a <? n)%Z = false) by (apply Z.ltb_ge; lia).
  assert (Hbn : (dimension b <? n)%Z = false) by (apply Z.ltb_ge; lia).
  rewrite ?Han, ?Hbn.
  assert (Hsum : exists s, PolytopeVolume_add
                   (PolytopeVolume_add (mkPolytopeVolume 0 0) a) b = s
                 /\ dimension s = n /\ (volume s == volume a + volume b)%Q).
  { eexists. split; [reflexivity|]. unfold PolytopeVolume_add.
    destruct a as [da va], b as [db vb]. cbn [dimension volume] in *. subst da db.
    destruct (Z.ltb_spec n 0); [lia|].
    destruct (Z.ltb_spec 0 n); cbn [dimension volume];
      rewrite ?Z.ltb_irrefl; cbn [dimension volume].
    - split; [reflexivity|]. reflexivity.
    - destruct (Z.ltb_spec n 0); [lia|]. destruct (Z.ltb_spec 0 n); [lia|].
      cbn [dimension volume]. split; [lia|]. ring. }
  destruct Hsum as (s & -> & Hs & Hvs).
  destruct (Z.ltb_spec (dimension c) n) as [Hlt|Hge].
  - assert (Hcb : PolytopeVolume_eqb c b = false).
    { unfold PolytopeVolume_eqb. destruct (Z.eqb_spec (dimension c) (dimension b)); [lia|].
      reflexivity. }
    assert (Hca : PolytopeVolume_eqb c a = false).
    { unfold PolytopeVolume_eqb. destruct (Z.eqb_spec (dimension c) (dimension a)); [lia|].
      reflexivity. }
    evaluate. rewrite Hcb, Hca. evaluate.
    eexists. split; [reflexivity|].
    unfold PolytopeVolume_eqb. cbn [dimension volume].
    rewrite Hs, Z.eqb_refl. cbn [andb]. apply Qeq_bool_iff.
    destruct (Z.eqb_spec (dimension c) n); [lia|]. rewrite Hvs. ring.
  - assert (Hsub : PolytopeVolume_sub s c
                   = Ok (mkPolytopeVolume (dimension s) (volume s - volume c)%Q)).
    { unfold PolytopeVolume_sub.
      destruct (Z.ltb_spec (dimension c) (dimension s)); [lia|].
      destruct (Z.eqb_spec (dimension s) (dimension c)); [reflexivity|lia]. }
    assert (Hfin : PolytopeVolume_eqb
                     (mkPolytopeVolume (dimension s) (volume s - volume c)%Q)
                     (mkPolytopeVolume n
                        (volume a + volume b
                         - (if (dimension c =? n)%Z then volume c else 0))%Q) = true).
    { unfold PolytopeVolume_eqb. cbn [dimension volume].
      rewrite Hs, Z.eqb_refl. cbn [andb]. apply Qeq_bool_iff.
      destruct (Z.eqb_spec (dimension c) n); [|lia]. rewrite Hvs. ring. }
    evaluate.
    destruct (PolytopeVolume_eqb c b) eqn:Hcb.
    + rewrite Hsub. evaluate. eexists. split; [reflexivity|]. exact Hfin.
    + destruct (PolytopeVolume_eqb c a) eqn:Hca.
      * rewrite Hsub. evaluate. eexists. split; [reflexivity|]. exact Hfin.
      * evaluate. rewrite Hsub. evaluate. eexists. split; [reflexivity|]. exact Hfin.
Qed.

Lemma PolytopeVolume_add_zero (v : PolytopeVolume) :
  (0 <= dimension v)%Z ->
  PolytopeVolume_eqb (PolytopeVolume_add (mkPolytopeVolume 0 0) v) v = true.
Proof.
  intros H. unfold PolytopeVolume_add, PolytopeVolume_eqb. cbn [dimension volume].
  destruct (Z.ltb_spec (dimension v) 0); [lia|].
  destruct (Z.ltb_spec 0 (dimension v)); cbn [dimension volume].
  - rewrite Z.eqb_refl. cbn [andb]. apply Qeq_bool_iff. reflexivity.
  - replace (dimension v) with 0%Z by lia. cbn [andb Z.eqb].
    apply Qeq_bool_iff. ring.
Qed.

Lemma compute_volume_pair_lower (A B : ConvexPolytope) :
  let a := ConvexPolytope_volume A in
  let b := ConvexPolytope_volume B in
  ((dimension a < dimension b)%Z -> (0 <= dimension b)%Z ->
   compute_volume [A; B] = Ok (PolytopeVolume_add (mkPolytopeVolume 0 0) b))
  /\ ((dimension b < dimension a)%Z -> (0 <= dimension a)%Z ->
      compute_volume [A; B] = Ok (PolytopeVolume_add (mkPolytopeVolume 0 0) a)).
Proof.
  destruct (subset_intersection_pair A B) as (E1 & E2 & E3).
  cbv zeta. split; intros Hlt Hn.
  - evaluate. rewrite ?E1, ?E2, ?E3.
    replace ((0 `max` dimension (ConvexPolytope_volume A))
             `max` dimension (ConvexPolytope_volume B))%Z
      with (dimension (ConvexPolytope_volume B)) by lia.
    rewrite (proj2 (Z.ltb_lt _ _) Hlt), Z.ltb_irrefl. evaluate. reflexivity.
  - evaluate. rewrite ?E1, ?E2, ?E3.
    replace ((0 `max` dimension (ConvexPolytope_volume A))
             `max` dimension (ConvexPolytope_volume B))%Z
      with (dimension (ConvexPolytope_volume A)) by lia.
    rewrite (proj2 (Z.ltb_lt _ _) Hlt), Z.ltb_irrefl. evaluate. reflexivity.
Qed.

Lemma compute_volume_pair_higher (A B : ConvexPolytope) (n : Z) :
  (0 <= n)%Z ->
  dimension (ConvexPolytope_volume A) = n ->
  dimension (ConvexPolytope_volume B) = n ->
  (n < dimension (ConvexPolytope_volume (ConvexPolytope_intersect A B)))%Z ->
  compute_volume [A; B] = Raise ValueError.
Proof.
  destruct (subset_intersection_pair A B) as (E1 & E2 & E3).
  intros Hn Ha Hb Hc.
  evaluate. rewrite ?E1, ?E2, ?E3.
  revert Ha Hb Hc.
  generalize (ConvexPolytope_volume A) (ConvexPolytope_volume B)
             (ConvexPolytope_volume (ConvexPolytope_intersect A B)).
  clear E1 E2 E3. intros a b c Ha Hb Hc.
  replace ((0 `max` dimension a) `max` dimension b)%Z with n by lia.
  assert (Han : (dimension a <? n)%Z = false) by (apply Z.ltb_ge; lia).
  assert (Hbn : (dimension b <? n)%Z = false) by (apply Z.ltb_ge; lia).
  assert (Hcn : (dimension c <? n)%Z = false) by (apply Z.ltb_ge; lia).
  assert (Hcb : PolytopeVolume_eqb c b = false).
  { unfold PolytopeVolume_eqb. destruct (Z.eqb_spec (dimension c) (dimension b)); [lia|].
    reflexivity. }
  assert (Hca : PolytopeVolume_eqb c a = false).
  { unfold PolytopeVolume_eqb. destruct (Z.eqb_spec (dimension c) (dimension a)); [lia|].
    reflexivity. }
  rewrite ?Han, ?Hbn, ?Hcn. evaluate. rewrite Hcb, Hca. evaluate.
  assert (Hs : dimension (PolytopeVolume_add
                            (PolytopeVolume_add (mkPolytopeVolume 0 0) a) b) = n).
  { unfold PolytopeVolume_add. cbn [dimension volume].
    repeat (match goal with
            | |- context [(?x <? ?y)%Z] => destruct (Z.ltb_spec x y)
            end; cbn [dimension volume]); lia. }
  unfold PolytopeVolume_sub at 1. rewrite Hs.
  destruct (Z.ltb_spec (dimension c) n); [lia|].
  destruct (Z.eqb_spec n (dimension c)); [lia|]. reflexivity.
Qed.

(** X13: inclusion and exclusion on two components.  When both have
    volumes of the same dimension, not negative, and the backend gives
    their intersection that dimension or a lower one, the volume of the
    polytope is [==] to the sum of the two volumes less that of the
    intersection, which counts only at the dimension of the two; should
    the backend give the intersection a higher dimension, [volume] raises
    [ValueError]; and a component of lower dimension than the other does
    not count: the volume is then [==] to that of the other component. *)
Theorem Polytope_volume_two_components (A B : ConvexPolytope) :
  let a := ConvexPolytope_volume A in
  let b := ConvexPolytope_volume B in
  let c := ConvexPolytope_volume (ConvexPolytope_intersect A B) in
  let self := Polytope_init [A; B] in
  (dimension a = dimension b -> (0 <= dimension a)%Z ->
   ((dimension c <= dimension a)%Z ->
    exists v p,
      Polytope_volume self = Ok (v, p)
      /\ PolytopeVolume_eqb v
           (mkPolytopeVolume (dimension a)
              (volume a + volume b
               - (if (dimension c =? dimension a)%Z then volume c else 0))%Q)
         = true)
   /\ ((dimension a < dimension c)%Z -> Polytope_volume self = Raise ValueError))
  /\ ((dimension a < dimension b)%Z -> (0 <= dimension b)%Z ->
      exists v p, Polytope_volume self = Ok (v, p) /\ PolytopeVolume_eqb v b = true)
  /\ ((dimension b < dimension a)%Z -> (0 <= dimension a)%Z ->
      exists v p, Polytope_volume self = Ok (v, p) /\ PolytopeVolume_eqb v a = true).
Proof.
  intros a b c self. unfold self.
  rewrite (Polytope_volume_fresh _ (Polytope_init [A; B]) eq_refl).
  cbn [convex_subpolytopes Polytope_init].
  split; [|split].
  - intros Hab Hn. split; intros Hc.
    + destruct (compute_volume_pair_overlap A B (dimension a) Hn eq_refl
                  (eq_sym Hab) Hc) as (v & -> & Hv).
      eexists _, _. split; [reflexivity|exact Hv].
    + now rewrite (compute_volume_pair_higher A B (dimension a) Hn eq_refl
                     (eq_sym Hab) Hc).
  - intros H Hn. rewrite (proj1 (compute_volume_pair_lower A B) H Hn).
    eexists _, _. split; [reflexivity|]. now apply PolytopeVolume_add_zero.
  - intros H Hn. rewrite (proj2 (compute_volume_pair_lower A B) H Hn).
    eexists _, _. split; [reflexivity|]. now apply PolytopeVolume_add_zero.
Qed.

End WithBackend.

Lemma Polytope_volume_two_components_witness :
  exists v p,
    Polytope_volume Interval.volume
      (Polytope_init [Interval.between 0 1; Interval.between (1#2) 2]) = Ok (v, p)
    /\ PolytopeVolume_eqb v (mkPolytopeVolume 1 (1 + (3#2) - (1#2))%Q) = true.
Proof.
  apply (proj1 (proj1 (Polytope_volume_two_components Interval.volume
                         (Interval.between 0 1) (Interval.between (1#2) 2))
                      eq_refl ltac:(vm_compute; discriminate))).
  vm_compute. discriminate.
Defined.

End VolumePairFacts.

(** * Hops and decompositions *)
Module HopFacts.
Import Paths PathFacts.

Lemma Counter_ne_false_Permutation (a b : list operation) :
  Counter_ne a b = false <-> a ≡ₚ b.
Proof.
  unfold Counter_ne. rewrite negb_false_iff, forallb_forall.
  rewrite (Permutation_count_occ string_dec). split.
  - intros H x. destruct (in_dec string_dec x (a ++ b)) as [Hin|Hout].
    + apply Nat.eqb_eq. now apply H.
    + rewrite !(proj1 (count_occ_not_In string_dec _ x)); [reflexivity| |];
        intros Hx; apply Hout, in_or_app; auto.
  - intros H x _. apply Nat.eqb_eq, H.
Qed.

Lemma last_removelast_app {A : Type} (l : list A) (x : A) :
  last l = Some x -> removelast l ++ [x] = l.
Proof.
  intros H. apply last_Some in H as [l' ->]. now rewrite removelast_last.
Qed.

Section WithScalars.

Variable num : Type.
Variable nzero : num.
Variable nadd nmul : num -> num -> num.
Variable W : Type.
Variable manual_get_random_vertex : PolytopeData num -> W -> option (point num) * W.
Variable polyhedron_has_element : CircuitPolytopeData num -> point num -> bool.

Abbreviation impose_target := (impose_target num nzero nadd nmul).
Abbreviation impose_target_convex := (impose_target_convex num nzero nadd nmul).
Abbreviation sum_products := (sum_products num nzero nadd nmul).
Abbreviation hop_scan := (hop_scan num nzero nadd nmul W manual_get_random_vertex).
Abbreviation hop_scan_own_region :=
  (hop_scan_own_region num nzero nadd nmul W manual_get_random_vertex).
Abbreviation single_unordered_decomposition_hop :=
  (single_unordered_decomposition_hop num nzero nadd nmul W manual_get_random_vertex).
Abbreviation hops_while :=
  (hops_while num nzero nadd nmul W manual_get_random_vertex).
Abbreviation select_step := (select_step num polyhedron_has_element).
Abbreviation select_working_polytope :=
  (select_working_polytope num polyhedron_has_element).
Abbreviation scipy_unordered_decomposition_hops :=
  (scipy_unordered_decomposition_hops num nzero nadd nmul W
     manual_get_random_vertex polyhedron_has_element).

(** ** Folding the target into a constraint *)

Lemma zip_with_app_l {A B C : Type} (f : A -> B -> C) (l e : list A) (t : list B) :
  length t <= length l -> zip_with f (l ++ e) t = zip_with f l t.
Proof.
  revert t. induction l as [|x l IH]; intros [|y t] H; cbn in *; try reflexivity.
  - now destruct e.
  - lia.
  - f_equal. apply IH. lia.
Qed.

Lemma zip_with_app_r {A B C : Type} (f : A -> B -> C) (l : list A) (t e : list B) :
  length l <= length t -> zip_with f l (t ++ e) = zip_with f l t.
Proof.
  revert t. induction l as [|x l IH]; intros [|y t] H; cbn in *; try reflexivity.
  - lia.
  - f_equal. apply IH. lia.
Qed.

(** X14: imposing the target on a constraint raises [IndexError] exactly
    when the constraint has fewer than four coefficients and otherwise
    gives four coefficients, the last three unchanged; coordinates of the
    target beyond the coefficients that stand against it are ignored, and
    so are coefficients beyond the coordinates of the target. *)
Theorem impose_target_shape (target : point num) (c : list num) :
  (length c < 4 -> impose_target target c = Raise IndexError)
  /\ (4 <= length c ->
      exists c0', impose_target target c
                  = Ok [c0'; nth 1 c nzero; nth 2 c nzero; nth 3 c nzero])
  /\ (forall extra, length c <= 4 + length target ->
        impose_target (target ++ extra) c = impose_target target c)
  /\ (forall extra, 4 + length target <= length c ->
        impose_target target (c ++ extra) = impose_target target c).
Proof.
  unfold Paths.impose_target.
  destruct c as [|c0 [|c1 [|c2 [|c3 rest]]]]; cbn;
    (split; [intros; try reflexivity; lia|]);
    (split; [intros; try lia; eauto|]);
    (split; [intros extra H|intros extra H]); try reflexivity; try lia.
  - unfold Paths.sum_products. rewrite zip_with_app_r by lia. reflexivity.
  - unfold Paths.sum_products. rewrite zip_with_app_l by lia. reflexivity.
Qed.

(** ** One hop *)

(** X15: a successful hop takes one operation [op] off the working
    operations: the operations that remain, with [op], are a rearrangement
    of the working operations; in particular no hop succeeds on an empty
    list of working operations. *)
Theorem hop_operation_accounting target working_operations scipy_coverage_set w r w' :
  single_unordered_decomposition_hop target working_operations scipy_coverage_set w
  = (Ok r, w') ->
  exists op,
    hop r = (ancestor r, op, target)
    /\ operations_remaining r ++ [op] ≡ₚ working_operations
    /\ working_operations <> [].
Proof.
  intros H.
  apply hop_scan_Ok in H as (_ & a & _ & _ & _ & op & _ & Hm & _ & _ & Hl & Hh & Hr).
  exists op. split; [exact Hh|].
  assert (Hp : operations_remaining r ++ [op] ≡ₚ working_operations).
  { rewrite Hr, (last_removelast_app _ _ Hl).
    now apply Counter_ne_false_Permutation. }
  split; [exact Hp|]. intros ->. apply Permutation_length in Hp.
  rewrite length_app in Hp. cbn in Hp. lia.
Qed.

Lemma hop_scan_no_match target ops ancestors bp w :
  (forall a, In a ancestors -> Counter_ne (operations a) ops = true) ->
  hop_scan target ops ancestors bp w = (Raise NoBacksolution, w).
Proof.
  induction ancestors as [|a rest IH]; intros H; cbn; [reflexivity|].
  rewrite (H a (or_introl eq_refl)). apply IH. intros a' Ha'. apply H. now right.
Qed.

Lemma comprehension_Raise_In {A B : Type} (f : A -> result B) (l : list A) (x : A) e0 :
  In x l -> f x = Raise e0 ->
  exists y e, In y l /\ f y = Raise e /\ comprehension f l = Raise e.
Proof.
  induction l as [|z l IH]; intros Hin Hx; [destruct Hin|]. cbn.
  destruct (f z) as [b|e] eqn:Ez; cbn.
  - destruct Hin as [->|Hin]; [congruence|].
    destruct (IH Hin Hx) as (y & e & Hy & Hfy & ->). cbn.
    exists y, e. split; [now right|]. split; [exact Hfy|reflexivity].
  - exists z, e. split; [now left|]. split; [exact Ez|reflexivity].
Qed.

Lemma comprehension_Raise_inv {A B : Type} (f : A -> result B) (l : list A) e :
  comprehension f l = Raise e -> exists y, In y l /\ f y = Raise e.
Proof.
  induction l as [|z l IH]; intros E; [discriminate|]. cbn in E.
  destruct (f z) as [b|e1] eqn:Ez; cbn in E.
  - destruct (comprehension f l) as [bs|e2]; cbn in E; [discriminate|].
    injection E as <-. destruct (IH eq_refl) as (y & Hy & Hfy).
    exists y. split; [now right|exact Hfy].
  - injection E as <-. exists z. split; [now left|exact Ez].
Qed.

Lemma impose_target_Raise target c e :
  impose_target target c = Raise e -> e = IndexError.
Proof.
  unfold Paths.impose_target.
  destruct c as [|c0 [|c1 [|c2 [|c3 rest]]]]; intros H; try discriminate;
    now injection H as <-.
Qed.

Lemma impose_target_convex_Raise target cp e :
  impose_target_convex target cp = Raise e -> e = IndexError.
Proof.
  unfold Paths.impose_target_convex. intros H.
  destruct (comprehension (impose_target target) (inequalities cp)) as [l1|e1] eqn:E1;
    cbn in H.
  - destruct (comprehension (impose_target target) (equalities cp)) as [l2|e2] eqn:E2;
      cbn in H; [discriminate|]. injection H as <-.
    apply comprehension_Raise_inv in E2 as (y & _ & Hy).
    now apply impose_target_Raise in Hy.
  - injection H as <-. apply comprehension_Raise_inv in E1 as (y & _ & Hy).
    now apply impose_target_Raise in Hy.
Qed.

Lemma impose_target_convex_short target cp c :
  In c (inequalities cp ++ equalities cp) -> length c < 4 ->
  exists e, impose_target_convex target cp = Raise e.
Proof.
  intros Hin Hlen.
  assert (Hc : impose_target target c = Raise IndexError).
  { unfold Paths.impose_target.
    destruct c as [|c0 [|c1 [|c2 [|c3 rest]]]]; cbn in Hlen; try reflexivity; lia. }
  unfold Paths.impose_target_convex. apply in_app_or in Hin as [Hin|Hin].
  - destruct (comprehension_Raise_In _ _ _ _ Hin Hc) as (y & e & _ & _ & ->).
    cbn. eauto.
  - destruct (comprehension (impose_target target) (inequalities cp)); cbn; [|eauto].
    destruct (comprehension_Raise_In _ _ _ _ Hin Hc) as (y & e & _ & _ & ->).
    cbn. eauto.
Qed.

(** X16: when no entry of the catalog has the working operations up to
    order (an empty catalog in particular), the hop raises [NoBacksolution]
    and the vertex extraction is not called; when the first entry that
    matches has a constraint of fewer than four coefficients, the hop
    raises [IndexError], again before any extraction. *)
Theorem hop_failures target working_operations w :
  (forall scipy_coverage_set,
      (forall a, In a scipy_coverage_set ->
                 Counter_ne (operations a) working_operations = true) ->
      single_unordered_decomposition_hop target working_operations
        scipy_coverage_set w = (Raise NoBacksolution, w))
  /\ (forall before a after cp c,
        (forall a', In a' before ->
                    Counter_ne (operations a') working_operations = true) ->
        Counter_ne (operations a) working_operations = false ->
        In cp (convex_subpolytopes (region a)) ->
        In c (inequalities cp ++ equalities cp) -> length c < 4 ->
        single_unordered_decomposition_hop target working_operations
          (before ++ a :: after) w = (Raise IndexError, w)).
Proof.
  split.
  - intros scs H. now apply hop_scan_no_match.
  - intros before a after cp c Hbefore Hm Hcp Hc Hlen.
    unfold Paths.single_unordered_decomposition_hop.
    generalize (mkPolytopeData (@nil (ConvexPolytopeData num))). intros bp.
    induction before as [|b before IH]; cbn.
    + rewrite Hm.
      destruct (impose_target_convex_short target cp c Hc Hlen) as [e0 He0].
      destruct (comprehension_Raise_In (impose_target_convex target) _ _ _ Hcp He0)
        as (y & e & _ & Hy & ->).
      now apply impose_target_convex_Raise in Hy as ->.
    + rewrite (Hbefore b (or_introl eq_refl)). apply IH.
      intros a' Ha'. apply Hbefore. now right.
Qed.

(** ** The whole decomposition *)

Lemma hops_while_operations fuel scs target remaining decomposition w d w' :
  hops_while fuel scs target remaining decomposition w = Some (Ok d, w') ->
  map (fun t : triple num => snd (fst t)) d
  ≡ₚ remaining ++ map (fun t : triple num => snd (fst t)) decomposition.
Proof.
  revert target remaining decomposition w.
  induction fuel as [|fuel IH]; intros target remaining dec w H.
  - destruct remaining; [|discriminate]. now injection H as <- <-.
  - destruct remaining as [|o rest] eqn:E.
    + now injection H as <- <-.
    + rewrite <- E in *. cbn [Paths.hops_while] in H. rewrite E in H.
      rewrite <- E in H.
      destruct (single_unordered_decomposition_hop target remaining scs w)
        as [[r|e] w1] eqn:Hh; [|discriminate].
      apply IH in H. rewrite H. cbn [map].
      apply hop_scan_Ok in Hh
        as (_ & a & _ & _ & _ & op & _ & Hm & _ & _ & Hl & Hhop & Hr).
      rewrite Hhop. cbn [fst snd].
      apply Counter_ne_false_Permutation in Hm. rewrite <- Hm.
      rewrite Hr. rewrite <- (last_removelast_app _ _ Hl) at 2.
      rewrite <- app_assoc. reflexivity.
Qed.

(** X17: the operations of a returned decomposition are a rearrangement
    of the operations of the chosen entry; when the chosen entry has no
    operation, the decomposition is empty, for any fuel, and the vertex
    extraction is not called. *)
Theorem decomposition_operations coverage_set scipy_coverage_set target w :
  (forall fuel d w',
      scipy_unordered_decomposition_hops fuel coverage_set scipy_coverage_set
        target w = Some (Ok d, w') ->
      exists working_polytope,
        select_working_polytope coverage_set target = Some working_polytope
        /\ map (fun t : triple num => snd (fst t)) d
           ≡ₚ operations working_polytope)
  /\ (forall working_polytope fuel,
        select_working_polytope coverage_set target = Some working_polytope ->
        operations working_polytope = [] ->
        scipy_unordered_decomposition_hops fuel coverage_set scipy_coverage_set
          target w = Some (Ok [], w)).
Proof.
  unfold Paths.scipy_unordered_decomposition_hops. split.
  - intros fuel d w' H.
    destruct (select_working_polytope coverage_set target) as [wp|]; [|discriminate].
    exists wp. split; [reflexivity|].
    apply hops_while_operations in H. cbn in H. now rewrite app_nil_r in H.
  - intros wp fuel -> ->. now destruct fuel.
Qed.

(** ** Ties in the choice of the working polytope *)

Lemma cost_lt_true (c b : Q) : cost_lt c (Some b) = true -> (c < b)%Q.
Proof.
  unfold cost_lt. rewrite negb_true_iff. intros H.
  apply Qnot_le_lt. intros Hle. apply Qle_bool_iff in Hle. congruence.
Qed.

Lemma fold_select_first target coverage before st :
  match fst st with
  | None => snd st = None
            /\ forall e, In e before -> polyhedron_has_element e target = false
  | Some p =>
    snd st = Some (cost p)
    /\ polyhedron_has_element p target = true
    /\ exists b1 b2, before = b1 ++ p :: b2
         /\ (forall e, In e b1 -> polyhedron_has_element e target = true ->
                       (cost p < cost e)%Q)
         /\ (forall e, In e b2 -> polyhedron_has_element e target = true ->
                       (cost p <= cost e)%Q)
  end ->
  match fst (fold_left (select_step target) coverage st) with
  | None => forall e, In e (before ++ coverage) ->
                      polyhedron_has_element e target = false
  | Some p =>
    polyhedron_has_element p target = true
    /\ exists b1 b2, before ++ coverage = b1 ++ p :: b2
         /\ (forall e, In e b1 -> polyhedron_has_element e target = true ->
                       (cost p < cost e)%Q)
         /\ (forall e, In e b2 -> polyhedron_has_element e target = true ->
                       (cost p <= cost e)%Q)
  end.
Proof.
  revert before st. induction coverage as [|x coverage IH]; intros before st H.
  - cbn. rewrite app_nil_r. destruct (fst st); [now destruct H|now destruct H].
  - cbn [fold_left].
    replace (before ++ x :: coverage) with ((before ++ [x]) ++ coverage)
      by (now rewrite <- app_assoc).
    apply IH. unfold Paths.select_step.
    destruct st as [[p|] best]; cbn in H |- *.
    + destruct H as (-> & Hp & b1 & b2 & -> & Hlt & Hle).
      assert (Hkeep : Some (cost p) = Some (cost p)
                /\ polyhedron_has_element p target = true
                /\ (cost_lt (cost x) (Some (cost p))
                      && polyhedron_has_element x target = false ->
                    exists b1' b2', (b1 ++ p :: b2) ++ [x] = b1' ++ p :: b2'
                      /\ (forall e, In e b1' ->
                            polyhedron_has_element e target = true ->
                            (cost p < cost e)%Q)
                      /\ (forall e, In e b2' ->
                            polyhedron_has_element e target = true ->
                            (cost p <= cost e)%Q))).
      { split; [reflexivity|]. split; [exact Hp|]. intros Hno.
        exists b1, (b2 ++ [x]). split; [now rewrite <- app_assoc|].
        split; [exact Hlt|]. intros e He Hhas.
        apply in_app_or in He as [He|[<-|[]]]; [now apply Hle|].
        rewrite Hhas, andb_true_r in Hno. now apply cost_lt_Some. }
      destruct (cost_lt (cost x) (Some (cost p))
                && polyhedron_has_element x target) eqn:Hsel; cbn.
      * apply andb_true_iff in Hsel as [Hc Hx]. apply cost_lt_true in Hc.
        split; [reflexivity|]. split; [exact Hx|].
        exists (b1 ++ p :: b2), []. split; [reflexivity|].
        split; [|intros e []]. intros e He Hhas.
        apply in_app_or in He as [He|[<-|He]].
        -- eapply Qlt_trans; [exact Hc|now apply Hlt].
        -- exact Hc.
        -- eapply Qlt_le_trans; [exact Hc|now apply Hle].
      * destruct Hkeep as (_ & _ & Hk). split; [reflexivity|].
        split; [exact Hp|]. now apply Hk.
    + destruct H as (-> & Hnone). cbn.
      destruct (polyhedron_has_element x target) eqn:Hx; cbn.
      * split; [reflexivity|]. split; [exact Hx|].
        exists before, []. split; [reflexivity|].
        split; [|intros e []]. intros e He Hhas.
        rewrite (Hnone e He) in Hhas. discriminate.
      * split; [reflexivity|]. intros e He.
        apply in_app_or in He as [He|[<-|[]]]; auto.
Qed.

(** X18: the working polytope is the first entry of least cost among
    those that hold the target: every entry before it that holds the
    target costs strictly more, and every entry after it that holds the
    target costs at least as much. *)
Theorem select_working_polytope_first coverage_set target working_polytope :
  select_working_polytope coverage_set target = Some working_polytope ->
  polyhedron_has_element working_polytope target = true
  /\ exists before after,
       coverage_set = before ++ working_polytope :: after
       /\ (forall e, In e before -> polyhedron_has_element e target = true ->
                     (cost working_polytope < cost e)%Q)
       /\ (forall e, In e after -> polyhedron_has_element e target = true ->
                     (cost working_polytope <= cost e)%Q).
Proof.
  unfold Paths.select_working_polytope. intros H.
  pose proof (fold_select_first target coverage_set [] (None, None)) as G.
  cbn [fst snd app] in G. rewrite H in G. apply G.
  split; [reflexivity|]. intros e [].
Qed.

(** ** Accumulated and own regions *)

Lemma hop_scan_own_region_eq target ops ancestors bp w :
  (forall P Q w0, fst (manual_get_random_vertex (mkPolytopeData P) w0) = None ->
     forall w1, manual_get_random_vertex (mkPolytopeData (P ++ Q)) w1
                = manual_get_random_vertex (mkPolytopeData Q) w1) ->
  (forall Q w1, manual_get_random_vertex
                  (mkPolytopeData (convex_subpolytopes bp ++ Q)) w1
                = manual_get_random_vertex (mkPolytopeData Q) w1) ->
  hop_scan target ops ancestors bp w = hop_scan_own_region target ops ancestors w.
Proof.
  intros Hext. revert bp w.
  induction ancestors as [|a rest IH]; intros bp w Hbp; cbn; [reflexivity|].
  destruct (Counter_ne (operations a) ops); [now apply IH|].
  destruct (comprehension _ _) as [imposed|e]; [|reflexivity].
  rewrite Hbp.
  destruct (manual_get_random_vertex (mkPolytopeData imposed) w)
    as [[solution|] w1] eqn:Hv; [reflexivity|].
  apply IH. cbn. intros Q w2. rewrite <- app_assoc.
  rewrite Hbp. apply (Hext imposed Q w). now rewrite Hv.
Qed.

(** X19: when a region on which the vertex extraction fails adds nothing
    to any region it is put in front of, the hop, which tries each matching
    entry on the components of all matching entries met so far, returns
    what it would return if it tried each matching entry on its own
    components. *)
Theorem hop_as_with_own_regions target working_operations scipy_coverage_set w :
  (forall P Q w0, fst (manual_get_random_vertex (mkPolytopeData P) w0) = None ->
     forall w1, manual_get_random_vertex (mkPolytopeData (P ++ Q)) w1
                = manual_get_random_vertex (mkPolytopeData Q) w1) ->
  single_unordered_decomposition_hop target working_operations scipy_coverage_set w
  = hop_scan_own_region target working_operations scipy_coverage_set w.
Proof.
  intros Hext. apply hop_scan_own_region_eq; [exact Hext|]. reflexivity.
Qed.

End WithScalars.
(** ** On the integer catalog *)

Lemma fold_left_Zadd (l : list Z) (acc : Z) :
  fold_left Z.add l acc = (acc + fold_left Z.add l 0)%Z.
Proof.
  revert acc. induction l as [|x l IH]; intros acc; cbn [fold_left]; [lia|].
  rewrite (IH (acc + x)%Z), (IH (0 + x)%Z). lia.
Qed.

Lemma impose_target_evaluate (target a c c' : list Z) :
  length a = 3 ->
  impose_target Z 0%Z Z.add Z.mul target c = Ok c' ->
  Grid.evaluate c' a = Grid.evaluate c (a ++ target).
Proof.
  intros Ha H. destruct a as [|a1 [|a2 [|a3 [|]]]]; try discriminate Ha.
  unfold Paths.impose_target in H.
  destruct c as [|c0 [|c1 [|c2 [|c3 rest]]]]; try discriminate H.
  injection H as <-. unfold Grid.evaluate, Paths.sum_products. cbn.
  rewrite (fold_left_Zadd _ (_ + _)%Z). lia.
Qed.

Lemma comprehension_forallb (target a : list Z) (test : Z -> bool) l l' :
  length a = 3 ->
  comprehension (impose_target Z 0%Z Z.add Z.mul target) l = Ok l' ->
  forallb (fun c => test (Grid.evaluate c a)) l'
  = forallb (fun c => test (Grid.evaluate c (a ++ target))) l.
Proof.
  intros Ha. revert l'. induction l as [|c l IH]; intros l' H; cbn in H.
  - now injection H as <-.
  - destruct (impose_target Z 0%Z Z.add Z.mul target c) as [c'|e] eqn:Ec;
      cbn in H; [|discriminate].
    destruct (comprehension _ l) as [l1|e]; cbn in H; [|discriminate].
    injection H as <-. cbn.
    now rewrite (impose_target_evaluate _ _ _ _ Ha Ec), (IH l1 eq_refl).
Qed.

Lemma impose_target_convex_satisfies (target a : list Z) cp cp' :
  length a = 3 ->
  impose_target_convex Z 0%Z Z.add Z.mul target cp = Ok cp' ->
  Grid.satisfies cp' a = Grid.satisfies cp (a ++ target).
Proof.
  intros Ha H. unfold Paths.impose_target_convex in H.
  destruct (comprehension _ (inequalities cp)) as [l1|e] eqn:E1; cbn in H;
    [|discriminate].
  destruct (comprehension _ (equalities cp)) as [l2|e] eqn:E2; cbn in H;
    [|discriminate].
  injection H as <-. unfold Grid.satisfies. cbn.
  rewrite (comprehension_forallb target a (fun z => (0 <=? z)%Z) _ _ Ha E1).
  rewrite (comprehension_forallb target a (fun z => (z =? 0)%Z) _ _ Ha E2).
  reflexivity.
Qed.

(** X20: with integer coefficients, imposing the target keeps the value
    of a constraint: the imposed constraint at an ancestor point of three
    coordinates has the value of the original one at the ancestor point
    followed by the target; so an ancestor point satisfies the imposed
    component exactly when, with the target, it satisfies the original. *)
Theorem impose_target_keeps_value (target a : list Z) :
  length a = 3 ->
  (forall c c',
      impose_target Z 0%Z Z.add Z.mul target c = Ok c' ->
      Grid.evaluate c' a = Grid.evaluate c (a ++ target))
  /\ (forall cp cp',
        impose_target_convex Z 0%Z Z.add Z.mul target cp = Ok cp' ->
        Grid.satisfies cp' a = Grid.satisfies cp (a ++ target)).
Proof.
  intros Ha. split.
  - intros c c'. now apply impose_target_evaluate.
  - intros cp cp'. now apply impose_target_convex_satisfies.
Qed.

Lemma accumulated_components_origin (target : list Z) ops ancestors components c' :
  accumulated_components Z 0%Z Z.add Z.mul target ops ancestors = Ok components ->
  In c' components ->
  exists entry cp,
    In entry ancestors
    /\ Counter_ne (operations entry) ops = false
    /\ In cp (convex_subpolytopes (region entry))
    /\ impose_target_convex Z 0%Z Z.add Z.mul target cp = Ok c'.
Proof.
  unfold Paths.accumulated_components. intros H Hin.
  apply PolytopeFacts.comprehension_Forall2 in H.
  apply list_elem_of_In in Hin.
  destruct (proj1 (list_elem_of_lookup _ _) Hin) as [i Hi].
  destruct (Forall2_lookup_r _ _ _ _ _ H Hi) as (cp & Hcp & Himp).
  apply list_elem_of_lookup_2, list_elem_of_In in Hcp.
  apply in_flat_map in Hcp as (entry & He & Hcp).
  apply list_elem_of_In, list_elem_of_filter in He as [Hm He].
  exists entry, cp. split; [now apply list_elem_of_In|]. now split.
Qed.

(** The vertex extraction only returns points of three coordinates that
    satisfy some component of the region it is given. *)
Local Abbreviation extraction_sound W manual_get_random_vertex :=
  (forall (p : PolytopeData Z) (w0 : W) v w1,
      manual_get_random_vertex p w0 = (Some v, w1) ->
      length v = 3
      /\ exists cp, In cp (convex_subpolytopes p) /\ Grid.satisfies cp v = true).

(** A step [(source, op, target)] lies in the catalog: the source followed
    by the target satisfies a component of an entry that has [op] among
    its operations. *)
Local Abbreviation step_in_catalog scipy_coverage_set step :=
  (exists (entry : CircuitPolytopeData Z) cp,
      In entry scipy_coverage_set
      /\ In (snd (fst step)) (operations entry)
      /\ In cp (convex_subpolytopes (region entry))
      /\ Grid.satisfies cp (fst (fst step) ++ snd step) = true).

Lemma hop_sound (W : Type)
    (manual_get_random_vertex : PolytopeData Z -> W -> option (point Z) * W)
    target working_operations scipy_coverage_set w r w' :
  extraction_sound W manual_get_random_vertex ->
  single_unordered_decomposition_hop Z 0%Z Z.add Z.mul W manual_get_random_vertex
    target working_operations scipy_coverage_set w = (Ok r, w') ->
  exists entry cp op,
    hop r = (ancestor r, op, target)
    /\ In entry scipy_coverage_set
    /\ Counter_ne (operations entry) working_operations = false
    /\ In op (operations entry)
    /\ In cp (convex_subpolytopes (region entry))
    /\ Grid.satisfies cp (ancestor r ++ target) = true.
Proof.
  intros Hext H. unfold Paths.single_unordered_decomposition_hop in H.
  apply hop_scan_Ok in H
    as (before & a & after & components & w0 & op & -> & Hm & Hacc & Hv & Hl & Hh & _).
  cbn [convex_subpolytopes app] in Hv.
  apply Hext in Hv as (Hlen & c' & Hin & Hsat). cbn [convex_subpolytopes] in Hin.
  destruct (accumulated_components_origin _ _ _ _ _ Hacc Hin)
    as (entry & cp & He & Hme & Hcp & Himp).
  exists entry, cp, op. split; [exact Hh|]. split.
  { apply in_app_iff in He as [He|[<-|[]]]; apply in_app_iff; [now left|].
    right. now left. }
  split; [exact Hme|]. split.
  { apply Counter_ne_false_Permutation in Hm, Hme.
    apply (Permutation_in op (Permutation_sym Hme)).
    apply (Permutation_in op Hm).
    apply last_Some in Hl as [l' ->]. apply in_app_iff. right. now left. }
  split; [exact Hcp|].
  now rewrite <- (impose_target_convex_satisfies _ _ _ _ Hlen Himp).
Qed.

(** X21: a hop is sound on integer coordinates.  When the vertex
    extraction only returns points of three coordinates that satisfy some
    component of the region it is given, the ancestor point of a
    successful hop, followed by the target, satisfies a component of the
    region of some entry of the catalog that has the working operations
    up to order, the operation of the hop among them. *)
Theorem hop_ancestor_in_region (W : Type)
    (manual_get_random_vertex : PolytopeData Z -> W -> option (point Z) * W)
    target working_operations scipy_coverage_set w r w' :
  (forall p w0 v w1,
      manual_get_random_vertex p w0 = (Some v, w1) ->
      length v = 3
      /\ exists cp, In cp (convex_subpolytopes p) /\ Grid.satisfies cp v = true) ->
  single_unordered_decomposition_hop Z 0%Z Z.add Z.mul W manual_get_random_vertex
    target working_operations scipy_coverage_set w = (Ok r, w') ->
  exists entry cp op,
    hop r = (ancestor r, op, target)
    /\ In entry scipy_coverage_set
    /\ Counter_ne (operations entry) working_operations = false
    /\ In op (operations entry)
    /\ In cp (convex_subpolytopes (region entry))
    /\ Grid.satisfies cp (ancestor r ++ target) = true.
Proof. apply hop_sound. Qed.

Lemma hops_while_sound (W : Type)
    (manual_get_random_vertex : PolytopeData Z -> W -> option (point Z) * W)
    fuel scs target remaining decomposition w d w' :
  extraction_sound W manual_get_random_vertex ->
  Forall (fun step => step_in_catalog scs step) decomposition ->
  hops_while Z 0%Z Z.add Z.mul W manual_get_random_vertex fuel scs target remaining
    decomposition w = Some (Ok d, w') ->
  Forall (fun step => step_in_catalog scs step) d.
Proof.
  intros Hext. revert target remaining decomposition w.
  induction fuel as [|fuel IH]; intros target remaining dec w Hdec H.
  - destruct remaining; [|discriminate]. now injection H as <- <-.
  - destruct remaining as [|o rest] eqn:E.
    + now injection H as <- <-.
    + rewrite <- E in *. cbn [Paths.hops_while] in H. rewrite E in H.
      rewrite <- E in H.
      destruct (single_unordered_decomposition_hop Z 0%Z Z.add Z.mul W
                  manual_get_random_vertex target remaining scs w)
        as [[r|e] w1] eqn:Hh; [|discriminate].
      apply IH in H; [exact H|]. constructor; [|exact Hdec].
      destruct (hop_sound _ _ _ _ _ _ _ _ Hext Hh)
        as (entry & cp & op & Hhop & He & _ & Hop & Hcp & Hsat).
      rewrite Hhop. cbn [fst snd]. exists entry, cp. now repeat split.
Qed.

(** X22: a decomposition is sound on integer coordinates.  Under the same
    condition on the vertex extraction, every step [(source, op, target)]
    of a returned decomposition lies in the catalog: the source followed by
    the target satisfies a component of the region of an entry of
    [scipy_coverage_set] that has [op] among its operations. *)
Theorem decomposition_steps_in_catalog (W : Type)
    (manual_get_random_vertex : PolytopeData Z -> W -> option (point Z) * W)
    (polyhedron_has_element : CircuitPolytopeData Z -> point Z -> bool)
    fuel coverage_set scipy_coverage_set target w d w' :
  (forall p w0 v w1,
      manual_get_random_vertex p w0 = (Some v, w1) ->
      length v = 3
      /\ exists cp, In cp (convex_subpolytopes p) /\ Grid.satisfies cp v = true) ->
  scipy_unordered_decomposition_hops Z 0%Z Z.add Z.mul W manual_get_random_vertex
    polyhedron_has_element fuel coverage_set scipy_coverage_set target w
  = Some (Ok d, w') ->
  forall source op target', In (source, op, target') d ->
    exists entry cp,
      In entry scipy_coverage_set
      /\ In op (operations entry)
      /\ In cp (convex_subpolytopes (region entry))
      /\ Grid.satisfies cp (source ++ target') = true.
Proof.
  intros Hext H source op target' Hin.
  unfold Paths.scipy_unordered_decomposition_hops in H.
  destruct (select_working_polytope _ _ _ _) as [wp|]; [|discriminate].
  apply hops_while_sound in H; [|exact Hext|constructor].
  rewrite Forall_forall in H. apply list_elem_of_In in Hin.
  exact (H _ Hin).
Qed.

Lemma manual_get_random_vertex_sound (p : PolytopeData Z) w0 v w1 :
  Grid.manual_get_random_vertex p w0 = (Some v, w1) ->
  length v = 3
  /\ exists cp, In cp (convex_subpolytopes p) /\ Grid.satisfies cp v = true.
Proof.
  unfold Grid.manual_get_random_vertex. intros H. injection H as H _.
  apply head_Some_elem_of, list_elem_of_filter in H as [Hs Hc].
  split.
  - apply list_elem_of_In in Hc. cbn in Hc.
    repeat (destruct Hc as [<-|Hc]; [reflexivity|]). destruct Hc.
  - apply Is_true_true, existsb_exists in Hs. exact Hs.
Qed.

Lemma filter_orb_nil {A} (p q : A -> bool) (l : list A) :
  filter (fun x => p x) l = [] ->
  filter (fun x => p x || q x) l = filter (fun x => q x) l.
Proof.
  induction l as [|x l IH]; [reflexivity|].
  rewrite !filter_cons. destruct (p x) eqn:E; cbn.
  - discriminate.
  - intros H. rewrite (IH H). reflexivity.
Qed.

Lemma first_vertex_compositional (P Q : list (ConvexPolytopeData Z)) (w0 : unit) :
  fst (Grid.first_vertex (mkPolytopeData P) w0) = None ->
  forall w1, Grid.first_vertex (mkPolytopeData (P ++ Q)) w1
             = Grid.first_vertex (mkPolytopeData Q) w1.
Proof.
  unfold Grid.first_vertex. cbn [fst convex_subpolytopes]. intros H w1.
  apply head_None in H. f_equal. f_equal.
  rewrite <- (filter_orb_nil _ (fun x => existsb (fun cp => Grid.satisfies cp x) Q)
                              _ H).
  apply list_filter_iff. intros x. now rewrite existsb_app.
Qed.

Lemma impose_target_shape_witness :
  impose_target Z 0%Z Z.add Z.mul [2; 0; 0]%Z [1; 2; 3]%Z = Raise IndexError.
Proof.
  apply (proj1 (impose_target_shape Z 0%Z Z.add Z.mul [2; 0; 0]%Z [1; 2; 3]%Z)).
  simpl. lia.
Defined.

Lemma hop_operation_accounting_witness :
  exists r w' op,
    Grid.hop_step [2; 0; 0]%Z ["op1"; "op2"]%string Grid.scipy_coverage_set []
    = (Ok r, w')
    /\ hop r = (ancestor r, op, [2; 0; 0]%Z)
    /\ operations_remaining r ++ [op] ≡ₚ ["op1"; "op2"]%string
    /\ ["op1"; "op2"]%string <> [].
Proof.
  eexists _, _.
  assert (H : Grid.hop_step [2; 0; 0]%Z ["op1"; "op2"]%string
                Grid.scipy_coverage_set [] = (Ok _, _))
    by (vm_compute; reflexivity).
  destruct (hop_operation_accounting Z 0%Z Z.add Z.mul _
              Grid.manual_get_random_vertex _ _ _ _ _ _ H) as (op & H1 & H2 & H3).
  exists op. split; [exact H|]. split; [exact H1|]. split; [exact H2|exact H3].
Defined.

Lemma hop_failures_witness :
  Grid.hop_step [2; 0; 0]%Z ["op3"]%string Grid.scipy_coverage_set []
  = (Raise NoBacksolution, []).
Proof.
  apply (proj1 (hop_failures Z 0%Z Z.add Z.mul _ Grid.manual_get_random_vertex
                  [2; 0; 0]%Z ["op3"]%string [])).
  intros a Ha. vm_compute in Ha.
  repeat (destruct Ha as [<-|Ha]; [reflexivity|]). destruct Ha.
Defined.

Lemma decomposition_operations_witness :
  exists d w' working_polytope,
    Grid.decompose 2 Grid.coverage_set Grid.scipy_coverage_set [2; 0; 0]%Z []
    = Some (Ok d, w')
    /\ select_working_polytope Z Grid.polyhedron_has_element Grid.coverage_set
         [2; 0; 0]%Z = Some working_polytope
    /\ map (fun t : triple Z => snd (fst t)) d ≡ₚ operations working_polytope.
Proof.
  eexists _, _.
  assert (H : Grid.decompose 2 Grid.coverage_set Grid.scipy_coverage_set
                [2; 0; 0]%Z [] = Some (Ok _, _))
    by (vm_compute; reflexivity).
  destruct (proj1 (decomposition_operations Z 0%Z Z.add Z.mul _
                     Grid.manual_get_random_vertex Grid.polyhedron_has_element
                     Grid.coverage_set Grid.scipy_coverage_set [2; 0; 0]%Z [])
                  _ _ _ H) as (wp & H1 & H2).
  exists wp. split; [exact H|]. split; [exact H1|exact H2].
Defined.

Lemma select_working_polytope_first_witness :
  exists working_polytope,
    select_working_polytope Z Grid.polyhedron_has_element Grid.coverage_set
      [1; 0; 0]%Z = Some working_polytope
    /\ Grid.polyhedron_has_element working_polytope [1; 0; 0]%Z = true
    /\ exists before after,
         Grid.coverage_set = before ++ working_polytope :: after
         /\ (forall e, In e before ->
                       Grid.polyhedron_has_element e [1; 0; 0]%Z = true ->
                       (cost working_polytope < cost e)%Q)
         /\ (forall e, In e after ->
                       Grid.polyhedron_has_element e [1; 0; 0]%Z = true ->
                       (cost working_polytope <= cost e)%Q).
Proof.
  eexists. split; [vm_compute; reflexivity|].
  apply (select_working_polytope_first Z Grid.polyhedron_has_element
           Grid.coverage_set [1; 0; 0]%Z).
  vm_compute. reflexivity.
Defined.

Lemma hop_as_with_own_regions_witness :
  single_unordered_decomposition_hop Z 0%Z Z.add Z.mul unit Grid.first_vertex
    [2; 0; 0]%Z ["op1"; "op2"]%string Grid.scipy_coverage_set_two_orders tt
  = hop_scan_own_region Z 0%Z Z.add Z.mul unit Grid.first_vertex
      [2; 0; 0]%Z ["op1"; "op2"]%string Grid.scipy_coverage_set_two_orders tt.
Proof.
  apply (hop_as_with_own_regions Z 0%Z Z.add Z.mul unit Grid.first_vertex).
  exact first_vertex_compositional.
Defined.

Lemma impose_target_keeps_value_witness :
  Grid.evaluate [7; 1; 2; 3]%Z [1; 1; 1]%Z
  = Grid.evaluate [1; 1; 2; 3; 1; 1; 1]%Z ([1; 1; 1] ++ [1; 2; 3])%Z.
Proof.
  apply (proj1 (impose_target_keeps_value [1; 2; 3]%Z [1; 1; 1]%Z eq_refl)).
  reflexivity.
Defined.

Lemma hop_ancestor_in_region_witness :
  exists r w' entry cp op,
    Grid.hop_step [2; 0; 0]%Z ["op1"; "op2"]%string Grid.scipy_coverage_set []
    = (Ok r, w')
    /\ hop r = (ancestor r, op, [2; 0; 0]%Z)
    /\ In entry Grid.scipy_coverage_set
    /\ In op (operations entry)
    /\ In cp (convex_subpolytopes (region entry))
    /\ Grid.satisfies cp (ancestor r ++ [2; 0; 0]%Z) = true.
Proof.
  eexists _, _.
  assert (H : Grid.hop_step [2; 0; 0]%Z ["op1"; "op2"]%string
                Grid.scipy_coverage_set [] = (Ok _, _))
    by (vm_compute; reflexivity).
  destruct (hop_ancestor_in_region _ Grid.manual_get_random_vertex _ _ _ _ _ _
              manual_get_random_vertex_sound H)
    as (entry & cp & op & H1 & H2 & _ & H3 & H4 & H5).
  exists entry, cp, op. split; [exact H|]. split; [exact H1|]. split; [exact H2|].
  split; [exact H3|]. split; [exact H4|exact H5].
Defined.

Lemma decomposition_steps_in_catalog_witness :
  exists d w',
    Grid.decompose 2 Grid.coverage_set Grid.scipy_coverage_set [2; 0; 0]%Z []
    = Some (Ok d, w')
    /\ length d = 2
    /\ forall source op target', In (source, op, target') d ->
         exists entry cp,
           In entry Grid.scipy_coverage_set
           /\ In op (operations entry)
           /\ In cp (convex_subpolytopes (region entry))
           /\ Grid.satisfies cp (source ++ target') = true.
Proof.
  eexists _, _.
  assert (H : Grid.decompose 2 Grid.coverage_set Grid.scipy_coverage_set
                [2; 0; 0]%Z [] = Some (Ok _, _))
    by (vm_compute; reflexivity).
  split; [exact H|]. split; [reflexivity|].
  exact (decomposition_steps_in_catalog _ Grid.manual_get_random_vertex
           Grid.polyhedron_has_element _ _ _ _ _ _ _
           manual_get_random_vertex_sound H).
Defined.

End HopFacts.

(** * Properties of the text of a polytope *)
Module PolytopeTextFacts.
Import Polytopes PolytopeText.

Lemma text_app_assoc (a b c : string) : (a +:+ b) +:+ c = a +:+ (b +:+ c).
Proof.
  induction a as [|x a IH]; [reflexivity|].
  change (String x ((a +:+ b) +:+ c) = String x (a +:+ (b +:+ c))). now f_equal.
Qed.

Lemma text_app_nil_l (a : string) : "" +:+ a = a.
Proof. reflexivity. Qed.

Lemma text_app_nil_r (a : string) : a +:+ "" = a.
Proof.
  induction a as [|x a IH]; [reflexivity|].
  change (String x (a +:+ "") = String x a). now f_equal.
Qed.

Lemma for_each_app {A S : Type} (body : S -> A -> result S) (l1 l2 : list A) (st : S) :
  for_each body (l1 ++ l2) st = st' ← for_each body l1 st; for_each body l2 st'.
Proof.
  revert st. induction l1 as [|x l1 IH]; intros st; cbn; [reflexivity|].
  destruct (body st x) as [st'|e]; cbn; [apply IH|reflexivity].
Qed.

Section WithStr.

Variable str_Fraction : Q -> string.
Variable str_int : nat -> string.

Local Abbreviation write_term := (write_term str_Fraction str_int).
Local Abbreviation write_constraint := (write_constraint str_Fraction str_int).
Local Abbreviation ConvexPolytope_str := (ConvexPolytope_str str_Fraction str_int).
Local Abbreviation Polytope_str := (Polytope_str str_Fraction str_int).

Lemma write_terms_shift (l : list (nat * Q)) (output : string) :
  fold_left (fun output '(index, item) => write_term output index item) l output
  = output +:+ fold_left (fun output '(index, item) => write_term output index item)
                         l "".
Proof.
  revert output. induction l as [|[index item] l IH]; intros output; cbn [fold_left].
  - now rewrite text_app_nil_r.
  - rewrite IH, (IH (write_term "" index item)).
    unfold PolytopeText.write_term. now rewrite !text_app_assoc.
Qed.

Lemma write_constraint_cases (relation : string) (row : list Q) :
  (row <> [] /\ exists t, forall output,
       write_constraint relation output row = Ok (output +:+ t))
  \/ (row = [] /\ forall output,
         write_constraint relation output row = Raise IndexError).
Proof.
  destruct row as [|first rest]; [right; split; [reflexivity|]; intros; reflexivity|].
  left. split; [discriminate|]. eexists. intros output.
  unfold PolytopeText.write_constraint. cbn.
  rewrite write_terms_shift, !text_app_assoc. reflexivity.
Qed.

Lemma write_constraints_cases (relation : string) (rows : list (list Q)) :
  (Forall (fun row => row <> []) rows
   /\ exists t, forall output,
        for_each (write_constraint relation) rows output = Ok (output +:+ t))
  \/ (Exists (fun row => row = []) rows
      /\ forall output,
           for_each (write_constraint relation) rows output = Raise IndexError).
Proof.
  induction rows as [|row rows IH].
  - left. split; [constructor|]. exists ""%string. intros output. cbn.
    now rewrite text_app_nil_r.
  - destruct (write_constraint_cases relation row) as [[Hne [t Ht]]|[He Ht]].
    + destruct IH as [[Hall [t' Ht']]|[Hex Ht']].
      * left. split; [now constructor|]. exists (t +:+ t'). intros output.
        cbn [for_each]. rewrite Ht. cbn. rewrite Ht'. now rewrite text_app_assoc.
      * right. split; [now apply Exists_cons_tl|]. intros output.
        cbn [for_each]. rewrite Ht. cbn. apply Ht'.
    + right. split; [now apply Exists_cons_hd|]. intros output.
      cbn [for_each]. now rewrite Ht.
Qed.

Lemma write_constraints_Ok (relation : string) (rows : list (list Q)) output r :
  for_each (write_constraint relation) rows output = Ok r ->
  exists t, r = output +:+ t
            /\ forall output',
                 for_each (write_constraint relation) rows output'
                 = Ok (output' +:+ t).
Proof.
  intros H. destruct (write_constraints_cases relation rows) as [[_ [t Ht]]|[_ Ht]].
  - exists t. split; [|exact Ht]. rewrite Ht in H. now injection H as <-.
  - rewrite Ht in H. discriminate H.
Qed.

(** X23: [ConvexPolytope.__str__] returns exactly when no constraint is
    an empty list and raises [IndexError] otherwise; the text of a region
    without constraints is empty; and the text of an intersection is the
    text of the left operand followed by that of the right one whenever
    the left has no equalities or the right no inequalities. *)
Theorem ConvexPolytope_str_text (c : ConvexPolytope) :
  (Forall (fun row => row <> []) (inequalities c ++ equalities c) ->
   exists s, ConvexPolytope_str c = Ok s)
  /\ (Exists (fun row => row = []) (inequalities c ++ equalities c) ->
      ConvexPolytope_str c = Raise IndexError)
  /\ ConvexPolytope_str (mkConvexPolytope [] []) = Ok ""%string
  /\ (forall other s s',
        equalities c = [] \/ inequalities other = [] ->
        ConvexPolytope_str c = Ok s -> ConvexPolytope_str other = Ok s' ->
        ConvexPolytope_str (ConvexPolytope_intersect c other) = Ok (s +:+ s')).
Proof.
  unfold PolytopeText.ConvexPolytope_str.
  destruct (write_constraints_cases " >= 0" (inequalities c)) as [[Hi [ti Hti]]|[Hi Hti]];
    destruct (write_constraints_cases " == 0" (equalities c)) as [[He [te Hte]]|[He Hte]].
  all: split; [|split; [|split; [reflexivity|]]].
  all: try (intros H; apply Forall_app in H as [H1 H2]).
  all: try (intros H; apply Exists_app in H).
  all: rewrite ?Hti; cbn; rewrite ?Hte.
  all: try (eexists; reflexivity).
  all: try reflexivity.
  all: try (exfalso;
            match goal with
            | Ha : Forall _ ?l, Hx : Exists _ ?l |- _ =>
              apply Exists_exists in Hx as (row & Hin & ->);
              rewrite Forall_forall in Ha; now apply (Ha _ Hin)
            end).
  all: try (exfalso; destruct H as [H|H];
            match goal with
            | Ha : Forall _ ?l, Hx : Exists _ ?l |- _ =>
              apply Exists_exists in Hx as (row & Hin & ->);
              rewrite Forall_forall in Ha; now apply (Ha _ Hin)
            end).
  all: try (intros other s s' _ H; discriminate H).
  intros other s s' Hside Hs Hs'. injection Hs as <-.
  destruct (for_each (write_constraint " >= 0") (inequalities other) "")
    as [oi|e] eqn:Eoi; cbn in Hs'; [|discriminate].
  apply write_constraints_Ok in Eoi as (toi & -> & Hoi).
  apply write_constraints_Ok in Hs' as (toe & -> & Hoe).
  cbn [ConvexPolytope_intersect inequalities equalities].
  rewrite for_each_app, Hti. cbn. rewrite Hoi. cbn.
  rewrite for_each_app.
  destruct Hside as [Hside|Hside].
  - rewrite Hside in *. cbn. rewrite Hoe.
    specialize (Hte ""%string). cbn in Hte. injection Hte as Hte.
    rewrite text_app_nil_l in Hte. subst te.
    now rewrite !text_app_nil_l, !text_app_nil_r, !text_app_assoc.
  - rewrite Hside in *. specialize (Hoi ""%string). cbn in Hoi. injection Hoi as Hoi.
    rewrite text_app_nil_l in Hoi. subst toi.
    rewrite Hte. cbn. rewrite Hoe.
    now rewrite !text_app_nil_l, !text_app_nil_r, !text_app_assoc.
Qed.

Lemma Polytope_str_loop (n : nat) (cs : list ConvexPolytope) :
  forall k output,
    n = k + length cs ->
    (forall texts,
        comprehension ConvexPolytope_str cs = Ok texts ->
        for_each
          (fun output '(index, item) =>
             text ← ConvexPolytope_str item;
             let output := output +:+ text in
             let output :=
               if bool_decide (1 + index < n) then output +:+ "," else output in
             Ok (output +:+ newline))
          (imap (fun i => pair (k + i)) cs) output
        = Ok (output +:+ String.concat ("," +:+ newline) texts
                     +:+ (if texts is [] then "" else newline)))
    /\ (forall e,
          comprehension ConvexPolytope_str cs = Raise e ->
          for_each
            (fun output '(index, item) =>
               text ← ConvexPolytope_str item;
               let output := output +:+ text in
               let output :=
                 if bool_decide (1 + index < n) then output +:+ "," else output in
               Ok (output +:+ newline))
            (imap (fun i => pair (k + i)) cs) output
          = Raise e).
Proof.
  induction cs as [|c cs IH]; intros k output Hn.
  - split; [|discriminate]. intros texts H. injection H as <-. cbn.
    now rewrite !text_app_nil_r.
  - rewrite imap_cons.
    rewrite (imap_ext _ (fun i => pair (S k + i)) cs)
      by (intros; cbn; f_equal; lia).
    cbn [for_each comprehension]. rewrite Nat.add_0_r.
    destruct (ConvexPolytope_str c) as [text|e0]; cbn;
      [|split; [discriminate|intros e H; now injection H as <-]].
    cbn [length] in Hn.
    destruct (IH (S k) ((if bool_decide (S k < n) then (output +:+ text) +:+ ","
                         else output +:+ text) +:+ newline) ltac:(lia))
      as [IHok IHraise].
    split.
    + intros texts H.
      destruct (comprehension ConvexPolytope_str cs) as [rest|e0] eqn:E; cbn in H;
        [|discriminate].
      injection H as <-. specialize (IHok rest eq_refl). cbn in IHok. rewrite IHok.
      destruct cs as [|c2 cs].
      * injection E as <-. cbn [length] in Hn.
        rewrite bool_decide_eq_false_2 by lia. cbn [String.concat].
        now rewrite !text_app_nil_r, !text_app_assoc.
      * cbn [length] in Hn. rewrite bool_decide_eq_true_2 by lia.
        destruct rest as [|t2 rest].
        { cbn in E. destruct (ConvexPolytope_str c2); cbn in E; [|discriminate].
          destruct (comprehension _ cs); discriminate. }
        cbn [String.concat]. now rewrite !text_app_assoc.
    + intros e H.
      destruct (comprehension ConvexPolytope_str cs) as [rest|e0] eqn:E; cbn in H;
        [discriminate|].
      injection H as <-. specialize (IHraise e0 eq_refl). cbn in IHraise.
      exact IHraise.
Qed.

(** X24: the text of a polytope is an opening bracket and a line break,
    the texts of the components joined by a comma and a line break, and,
    when there is a component, a line break, then the closing bracket; the
    memo cells play no part; and the first component whose text raises
    makes [Polytope.__str__] raise the same. *)
Theorem Polytope_str_joined (self : Polytope) :
  (forall texts,
      comprehension ConvexPolytope_str (convex_subpolytopes self) = Ok texts ->
      Polytope_str self
      = Ok ("[" +:+ newline +:+ String.concat ("," +:+ newline) texts
                +:+ (if texts is [] then "" else newline) +:+ "]"))
  /\ (forall e,
        comprehension ConvexPolytope_str (convex_subpolytopes self) = Raise e ->
        Polytope_str self = Raise e)
  /\ Polytope_str self = Polytope_str (Polytope_init (convex_subpolytopes self)).
Proof.
  destruct (Polytope_str_loop (length (convex_subpolytopes self))
              (convex_subpolytopes self) 0 ("[" +:+ newline) eq_refl) as [Hok Hraise].
  unfold PolytopeText.Polytope_str. split; [|split; [|reflexivity]].
  - intros texts H. specialize (Hok texts H).
    change (imap (fun i => pair (0 + i)) (convex_subpolytopes self))
      with (imap pair (convex_subpolytopes self)) in Hok.
    cbv zeta in Hok. rewrite Hok. cbn. now rewrite !text_app_assoc.
  - intros e H. specialize (Hraise e H).
    change (imap (fun i => pair (0 + i)) (convex_subpolytopes self))
      with (imap pair (convex_subpolytopes self)) in Hraise.
    cbv zeta in Hraise. now rewrite Hraise.
Qed.

End WithStr.

Lemma ConvexPolytope_str_text_witness :
  let a := Interval.between 0 (3#2) in
  let b := mkConvexPolytope [] [[-1; 1]]%Q in
  exists s s',
    ConvexPolytope_str str_Fraction str_int a = Ok s
    /\ ConvexPolytope_str str_Fraction str_int b = Ok s'
    /\ ConvexPolytope_str str_Fraction str_int (ConvexPolytope_intersect a b)
       = Ok (s +:+ s').
Proof.
  intros a b. eexists _, _.
  split; [vm_compute; reflexivity|]. split; [vm_compute; reflexivity|].
  apply (proj2 (proj2 (proj2 (ConvexPolytope_str_text str_Fraction str_int a)))).
  - left. reflexivity.
  - vm_compute. reflexivity.
  - vm_compute. reflexivity.
Defined.

Lemma Polytope_str_joined_witness :
  let self := Polytope_init [Interval.between 0 1; Interval.between 1 (5#2)] in
  exists texts,
    comprehension (ConvexPolytope_str str_Fraction str_int) (convex_subpolytopes self)
    = Ok texts
    /\ length texts = 2
    /\ Polytope_str str_Fraction str_int self
       = Ok ("[" +:+ newline +:+ String.concat ("," +:+ newline) texts
                 +:+ newline +:+ "]").
Proof.
  intros self. eexists.
  split; [vm_compute; reflexivity|]. split; [reflexivity|].
  apply (proj1 (Polytope_str_joined str_Fraction str_int self)).
  vm_compute. reflexivity.
Defined.

End PolytopeTextFacts.

(** * Properties of the depth pass *)
Module DepthPassFacts.
Import DepthPass.

Section WithCoverage.

Variable Instruction : Type.
Variable coverage : Type.
Variable num_qubits : Instruction -> Z.
Variable str : Instruction -> string.
Variable E : Type.
Variable error : Type.
Variable _gate_set_to_coverage : Instruction -> E -> (error + coverage) * E.

Local Abbreviation init :=
  (MonodromyDepth_init Instruction coverage num_qubits str E error
     _gate_set_to_coverage).

(** X25: the class cache is keyed on the text of the basis gate.  A
    construction that fails leaves the cache as it was, and on a gate
    that is not on two qubits it fails before [_gate_set_to_coverage] is
    called; a construction that succeeds leaves the coverage set of the
    pass under the text of its gate and changes no entry that was there;
    and a later construction on any two-qubit gate of the same text, the
    same gate or not, gets that coverage set, does not call
    [_gate_set_to_coverage] and leaves the cache as it is. *)
Theorem MonodromyDepth_init_cache (g : Instruction) (cache : gmap string coverage)
    (env : E) :
  (num_qubits g <> 2%Z -> init g cache env = (inl AssertionError, cache, env))
  /\ (forall e cache' env',
        init g cache env = (inl e, cache', env') -> cache' = cache)
  /\ (forall p cache' env',
        init g cache env = (inr p, cache', env') ->
        basis_gate p = g
        /\ cache' !! str g = Some (coverage_set p)
        /\ cache ⊆ cache'
        /\ (forall g2, str g2 = str g -> num_qubits g2 = 2%Z ->
              init g2 cache' env'
              = (inr (mkMonodromyDepth g2 true (coverage_set p)), cache', env'))).
Proof.
  unfold MonodromyDepth_init. split; [|split].
  - intros H. destruct (Z.eqb_spec (num_qubits g) 2); [contradiction|reflexivity].
  - intros e cache' env' H.
    destruct (negb _); [congruence|].
    destruct (cache !! str g); [congruence|].
    destruct (_gate_set_to_coverage g env) as [[e'|made] env'']; congruence.
  - intros p cache' env' H.
    destruct (negb _); [congruence|].
    assert (Hnext : forall g2 c, cache' !! str g = Some c -> str g2 = str g ->
              num_qubits g2 = 2%Z ->
              (if negb (num_qubits g2 =? 2)%Z
               then (inl AssertionError, cache', env')
               else match cache' !! str g2 with
                    | Some found => (inr (mkMonodromyDepth g2 true found), cache', env')
                    | None =>
                      match _gate_set_to_coverage g2 env' with
                      | (inl e, env'') => (inl (Raised e), cache', env'')
                      | (inr made, env'') =>
                        (inr (mkMonodromyDepth g2 true made),
                         <[str g2 := made]> cache', env'')
                      end
                    end)
              = (inr (mkMonodromyDepth g2 true c), cache', env')).
    { intros g2 c Hc Hs Hq. rewrite Hq, Hs, Hc. reflexivity. }
    destruct (cache !! str g) as [found|] eqn:Ec.
    + injection H as <- <- <-. cbn.
      split; [reflexivity|]. split; [exact Ec|]. split; [reflexivity|].
      intros g2. now apply Hnext.
    + destruct (_gate_set_to_coverage g env) as [[e'|made] env'']; [congruence|].
      injection H as <- <- <-. cbn.
      assert (Hl : <[str g := made]> cache !! str g = Some made)
        by apply lookup_insert_eq.
      split; [reflexivity|]. split; [exact Hl|].
      split; [now apply insert_subseteq|].
      intros g2. now apply Hnext.
Qed.

End WithCoverage.

Lemma MonodromyDepth_init_cache_witness :
  let num_qubits := fun g : string * Z => snd g in
  let str := fun g : string * Z => fst g in
  let make := fun (g : string * Z) (calls : nat) =>
                (inr (String.length (fst g)) : unit + nat, S calls) in
  let init := MonodromyDepth_init (string * Z) nat num_qubits str nat unit make in
  init ("ccx"%string, 3%Z) ∅ 0 = (inl AssertionError, ∅, 0)
  /\ exists p cache' env',
       init ("cx"%string, 2%Z) ∅ 0 = (inr p, cache', env')
       /\ cache' !! "cx"%string = Some (coverage_set p)
       /\ env' = 1.
Proof.
  intros num_qubits str make init. split.
  - apply (proj1 (MonodromyDepth_init_cache (string * Z) nat num_qubits str nat unit
                    make ("ccx"%string, 3%Z) ∅ 0)).
    simpl. lia.
  - eexists _, _, _.
    assert (H : init ("cx"%string, 2%Z) ∅ 0 = (inr _, _, _)) by reflexivity.
    split; [exact H|]. split; [|reflexivity].
    exact (proj1 (proj2 (proj2 (proj2 (MonodromyDepth_init_cache (string * Z) nat
             num_qubits str nat unit make ("cx"%string, 2%Z) ∅ 0)) _ _ _ H))).
Defined.

End DepthPassFacts.
